(** * Tr-merge-utility: a shallow embedding of [Tr-merge-utlity-local.py]

    The script selects commits of the current branch in a date range,
    copies the files they changed into [staging_folder], writes a manifest
    [changes.json] and zips the staging folder.

    Conventions of the embedding.
    - Text (operator input, date strings) is [string]; characters are
      bytes, so only ASCII digits and ASCII white space are recognised.
    - A path is the list of its components relative to the repository
      root, which is the working directory of the process; git prints
      changed paths in exactly this normalised, root-relative form.
    - The file system is a tree of directories and regular files.
    - Library calls ([strptime], [list.sort], [os.makedirs],
      [shutil.copy2], [os.walk], ...) are modelled by functions that
      follow the CPython library code. *)

From Stdlib Require Import ZArith List String Ascii Bool Lia Permutation Sorted.
From Stdlib Require Import DecimalString DecimalNat.
From stdpp Require Import base gmap sets list strings.

Set Warnings "-register-all,-clear-no-such-hyp".

(** The code point of a character *)
Definition code (c : ascii) : Z := Z.of_nat (nat_of_ascii c).

(** ** Date parsing: [datetime.strptime(s, "%d/%m/%Y")] *)

Module Strptime.

Local Open Scope Z_scope.

(** A backtracking matcher returns, in priority order, every way of
    matching a prefix of the text: the matched text and the rest. *)
Definition matcher : Type := list ascii → list (list ascii * list ascii).

Definition in_class (lo hi c : ascii) : bool :=
  (code lo <=? code c) && (code c <=? code hi).

(** [[lo-hi]] *)
Definition re_class (lo hi : ascii) : matcher := λ s,
  match s with
  | c :: r => if in_class lo hi c then [([c], r)] else []
  | [] => []
  end.

Definition re_lit (c : ascii) : matcher := re_class c c.

(** [\d], restricted to the ASCII digits *)
Definition re_digit : matcher := re_class "0" "9".

Definition re_seq (m1 m2 : matcher) : matcher := λ s,
  flat_map (λ '(a, r), map (λ '(b, r'), (a ++ b, r')) (m2 r)) (m1 s).

Definition re_alt (m1 m2 : matcher) : matcher := λ s, m1 s ++ m2 s.

(** [%d] is [(3[0-1]|[1-2]\d|0[1-9]|[1-9]| [1-9])] *)
Definition re_d : matcher :=
  re_alt (re_seq (re_lit "3") (re_class "0" "1"))
 (re_alt (re_seq (re_class "1" "2") re_digit)
 (re_alt (re_seq (re_lit "0") (re_class "1" "9"))
 (re_alt (re_class "1" "9")
         (re_seq (re_lit " ") (re_class "1" "9"))))).

(** [%m] is [(1[0-2]|0[1-9]|[1-9])] *)
Definition re_m : matcher :=
  re_alt (re_seq (re_lit "1") (re_class "0" "2"))
 (re_alt (re_seq (re_lit "0") (re_class "1" "9"))
         (re_class "1" "9")).

(** [%Y] is [(\d\d\d\d)] *)
Definition re_Y : matcher :=
  re_seq re_digit (re_seq re_digit (re_seq re_digit re_digit)).

(** The groups of one match of the compiled format [%d/%m/%Y] and the
    text left over after it. *)
Record groups := Groups {
  g_d : list ascii; g_m : list ascii; g_Y : list ascii; g_rest : list ascii }.

Definition format_regex (s : list ascii) : list groups :=
  flat_map (λ '(d, r1),
  flat_map (λ '(_, r2),
  flat_map (λ '(m, r3),
  flat_map (λ '(_, r4),
  map (λ '(y, r5), Groups d m y r5) (re_Y r4))
    (re_lit "/" r3)) (re_m r2)) (re_lit "/" r1)) (re_d s).

(** [re.match]: the first match in priority order, if any *)
Definition re_match (s : list ascii) : option groups := head (format_regex s).

(** [int(text)] on a group: decimal digits, white space skipped *)
Definition py_int (s : list ascii) : Z :=
  fold_left (λ acc c, if in_class "0" "9" c then 10 * acc + (code c - 48) else acc) s 0.

Definition is_leap (y : Z) : bool :=
  (y mod 4 =? 0) && (negb (y mod 100 =? 0) || (y mod 400 =? 0)).

Definition days_in_month (y m : Z) : Z :=
  match m with
  | 2 => if is_leap y then 29 else 28
  | 4 | 6 | 9 | 11 => 30
  | _ => 31
  end.

End Strptime.

Local Open Scope Z_scope.

(** A [datetime] built by [strptime] from a date-only format: the time of
    day is midnight, so only the calendar fields vary. *)
Record datetime := Datetime { year : Z; month : Z; day : Z }.

(** The range check of the [datetime] constructor ([MINYEAR = 1],
    [MAXYEAR = 9999]); a violation is a [ValueError]. *)
Definition datetime_new (y m d : Z) : option datetime :=
  if (1 <=? y) && (y <=? 9999) && (1 <=? m) && (m <=? 12)
     && (1 <=? d) && (d <=? Strptime.days_in_month y m)
  then Some (Datetime y m d) else None.

(** [datetime.strptime(date_str, "%d/%m/%Y")]; [None] stands for the
    [ValueError] of a failed match, of left-over text ("unconverted data
    remains") or of an impossible date. *)
Definition strptime (date_str : string) : option datetime :=
  match Strptime.re_match (list_ascii_of_string date_str) with
  | None => None
  | Some g =>
      match Strptime.g_rest g with
      | _ :: _ => None
      | [] => datetime_new (Strptime.py_int (Strptime.g_Y g))
                           (Strptime.py_int (Strptime.g_m g))
                           (Strptime.py_int (Strptime.g_d g))
      end
  end.

(** [parse_date_input]: the [ValueError] is caught and becomes [None]. *)
Definition parse_date_input (date_str : string) : option datetime :=
  strptime date_str.

(** Decimal text of fixed width, as [strftime] prints the fields of a
    date ([%d] and [%m] in two digits, [%Y] in four). *)
Definition digit_char (n : Z) : ascii := ascii_of_nat (Z.to_nat (48 + n mod 10)).

Definition pad2 (n : Z) : list ascii := [digit_char (n / 10); digit_char n].

Definition pad4 (n : Z) : list ascii :=
  [digit_char (n / 1000); digit_char (n / 100); digit_char (n / 10); digit_char n].

(** The text dd/mm/yyyy of a date, the same with another separator
    character, and the fields in other orders. *)
Definition dmy_with (sep : ascii) (dt : datetime) : string :=
  string_of_list_ascii (pad2 (day dt) ++ sep :: pad2 (month dt) ++ sep :: pad4 (year dt)).

Definition format_dmy (dt : datetime) : string := dmy_with "/" dt.

Definition format_ymd (dt : datetime) : string :=
  string_of_list_ascii (pad4 (year dt) ++ "/"%char :: pad2 (month dt) ++ "/"%char :: pad2 (day dt)).

Definition format_mdy (dt : datetime) : string :=
  string_of_list_ascii (pad2 (month dt) ++ "/"%char :: pad2 (day dt) ++ "/"%char :: pad4 (year dt)).

(** [%Y] as the C library prints it: the year without padding *)
Definition year_text (y : Z) : list ascii :=
  if y <? 10 then [digit_char y]
  else if y <? 100 then pad2 y
  else if y <? 1000 then [digit_char (y / 100); digit_char (y / 10); digit_char y]
  else pad4 y.

(** [strftime("%Y-%m-%d")] *)
Definition strftime_iso (dt : datetime) : string :=
  string_of_list_ascii
    (year_text (year dt) ++ "-"%char :: pad2 (month dt) ++ "-"%char :: pad2 (day dt)).

(** Comparison of two datetimes *)
Definition datetime_gt (a b : datetime) : bool :=
  (year b <? year a)
  || ((year a =? year b) && ((month b <? month a)
      || ((month a =? month b) && (day b <? day a)))).


(** ** Text primitives of the operator interface *)

Module Text.

(** [str.isspace] on one ASCII character: tab to carriage return, the
    four separators 0x1c to 0x1f, and the space *)
Definition isspace (c : ascii) : bool :=
  ((9 <=? code c) && (code c <=? 13)) || ((28 <=? code c) && (code c <=? 32)).

Fixpoint lstrip (s : list ascii) : list ascii :=
  match s with
  | c :: r => if isspace c then lstrip r else s
  | [] => []
  end.

Definition rstrip (s : list ascii) : list ascii := rev (lstrip (rev s)).

(** [str.strip()] *)
Definition strip (s : string) : string :=
  string_of_list_ascii (rstrip (lstrip (list_ascii_of_string s))).

Definition lower_char (c : ascii) : ascii :=
  if (65 <=? code c) && (code c <=? 90) then ascii_of_nat (nat_of_ascii c + 32) else c.

(** [str.lower()] *)
Definition lower (s : string) : string :=
  string_of_list_ascii (map lower_char (list_ascii_of_string s)).

Definition digit_val (c : ascii) : option Z :=
  if (48 <=? code c) && (code c <=? 57) then Some (code c - 48) else None.

(** The digit part of an integer literal: digits, with single
    underscores allowed between two digits. [prev] tells whether the
    previous character was a digit. *)
Fixpoint digits (prev : bool) (acc : Z) (s : list ascii) : option Z :=
  match s with
  | [] => if prev then Some acc else None
  | c :: r =>
      match digit_val c with
      | Some v => digits true (10 * acc + v) r
      | None =>
          if prev && Ascii.eqb c "_" then
            match r with
            | c' :: _ =>
                match digit_val c' with
                | Some _ => digits false acc r
                | None => None
                end
            | [] => None
            end
          else None
      end
  end.

(** [int(s)] in base ten: surrounding white space, an optional sign and
    the digits; [None] is the [ValueError]. *)
Definition int (s : string) : option Z :=
  match rstrip (lstrip (list_ascii_of_string s)) with
  | [] => None
  | c :: r =>
      if Ascii.eqb c "-" then Z.opp <$> digits false 0 r
      else if Ascii.eqb c "+" then digits false 0 r
      else digits false 0 (c :: r)
  end.

End Text.

Close Scope Z_scope.

(** ** Exceptions and results *)

Inductive exn :=
  | ValueError | EOFError | GitCommandError
  | FileNotFoundError | FileExistsError | IsADirectoryError
  | NotADirectoryError | PermissionError | SameFileError.

Inductive result (A : Type) :=
  | Ok (a : A)
  | Raise (e : exn).
Arguments Ok {A} a.
Arguments Raise {A} e.

(** ** The file system *)

(** A path: components relative to the working directory of the process,
    which is the repository root ([repo_path = os.getcwd()]). *)
Definition path : Type := list string.

(** A small JSON value type, enough for the manifest. *)
Inductive json :=
  | JString (s : string)
  | JArray (items : list json)
  | JObject (members : list (string * json)).

(** What a regular file holds: opaque bytes, the text that [json.dump]
    writes for a value, or a ZIP archive given by its members (entry name
    and content, in the order they were written). *)
Inductive content :=
  | Bytes (b : string)
  | JsonText (j : json)
  | ZipArchive (members : list (list string * content)).

Inductive node :=
  | File (c : content)
  | Dir (entries : list (string * node)).

Module FS.

(** Directory entries are an association list in listing order. *)
Fixpoint assoc (n : string) (es : list (string * node)) : option node :=
  match es with
  | [] => None
  | (m, c) :: r => if String.eqb n m then Some c else assoc n r
  end.

(** Replace the entry [n], or add it at the end. *)
Fixpoint set_entry (n : string) (c : node) (es : list (string * node))
  : list (string * node) :=
  match es with
  | [] => [(n, c)]
  | (m, d) :: r => if String.eqb n m then (m, c) :: r else (m, d) :: set_entry n c r
  end.

Definition del_entry (n : string) (es : list (string * node)) : list (string * node) :=
  List.filter (λ e, negb (String.eqb n e.1)) es.

(** Path resolution *)
Fixpoint lookup (t : node) (p : path) : option node :=
  match p with
  | [] => Some t
  | n :: q =>
      match t with
      | File _ => None
      | Dir es => match assoc n es with Some c => lookup c q | None => None end
      end
  end.

(** [os.path.exists], [os.path.isdir], [os.path.isfile] *)
Definition exists_ (t : node) (p : path) : bool :=
  match lookup t p with Some _ => true | None => false end.

Definition isdir (t : node) (p : path) : bool :=
  match lookup t p with Some (Dir _) => true | _ => false end.

Definition isfile (t : node) (p : path) : bool :=
  match lookup t p with Some (File _) => true | _ => false end.

(** [os.path.dirname] and [os.path.basename] *)
Definition dirname (p : path) : path := removelast p.
Definition basename (p : path) : string := List.last p EmptyString.

(** A fresh chain of directories [p] *)
Fixpoint fresh_dirs (p : path) : node :=
  match p with
  | [] => Dir []
  | n :: q => Dir [(n, fresh_dirs q)]
  end.

(** [os.makedirs(p, exist_ok=True)]: the missing directories of [p] are
    created; a regular file on the way is an error. *)
Fixpoint makedirs (t : node) (p : path) : result node :=
  match p with
  | [] => match t with Dir _ => Ok t | File _ => Raise FileExistsError end
  | n :: q =>
      match t with
      | File _ => Raise NotADirectoryError
      | Dir es =>
          match assoc n es with
          | Some c =>
              match makedirs c q with
              | Ok c' => Ok (Dir (set_entry n c' es))
              | Raise e => Raise e
              end
          | None => Ok (Dir (set_entry n (fresh_dirs q) es))
          end
      end
  end.

(** [open(p, 'w')], write, close: the file is created or truncated. *)
Fixpoint write_file (t : node) (p : path) (c : content) : result node :=
  match p with
  | [] => match t with Dir _ => Raise IsADirectoryError | File _ => Ok (File c) end
  | n :: q =>
      match t with
      | File _ => Raise NotADirectoryError
      | Dir es =>
          match assoc n es with
          | Some d =>
              match write_file d q c with
              | Ok d' => Ok (Dir (set_entry n d' es))
              | Raise e => Raise e
              end
          | None =>
              match q with
              | [] => Ok (Dir (set_entry n (File c) es))
              | _ :: _ => Raise FileNotFoundError
              end
          end
      end
  end.

(** Lines 56 and 57 of the script:
    [if not os.path.exists(dest_dir): os.makedirs(dest_dir, exist_ok=True)] *)
Definition ensure_dir (t : node) (dest_dir : path) : result node :=
  if exists_ t dest_dir then Ok t else makedirs t dest_dir.

(** [shutil.rmtree(p)]; the root itself cannot be removed. *)
Fixpoint rmtree (t : node) (p : path) : result node :=
  match p with
  | [] => Raise PermissionError
  | n :: q =>
      match t with
      | File _ => Raise NotADirectoryError
      | Dir es =>
          match assoc n es with
          | None => Raise FileNotFoundError
          | Some d =>
              match q with
              | [] =>
                  match d with
                  | Dir _ => Ok (Dir (del_entry n es))
                  | File _ => Raise NotADirectoryError
                  end
              | _ :: _ =>
                  match rmtree d q with
                  | Ok d' => Ok (Dir (set_entry n d' es))
                  | Raise e => Raise e
                  end
              end
          end
      end
  end.

(** [shutil.copy2(src, dst)]: a destination that is a directory stands
    for the file of the same base name inside it; the source is opened
    for reading, then the destination for writing. [unreadable] tells the
    files the process has no permission to read. *)
Definition copy2 (unreadable : path → bool) (t : node) (src dst : path) : result node :=
  let dst := if isdir t dst then dst ++ [basename src] else dst in
  match lookup t src with
  | None => Raise FileNotFoundError
  | Some (Dir _) => Raise IsADirectoryError
  | Some (File c) =>
      if bool_decide (src = dst) then Raise SameFileError
      else if unreadable src then Raise PermissionError
      else write_file t dst c
  end.

(** What [os.stat] tells of a path: nothing, a regular file with its
    content, or a directory *)
Inductive kind :=
  | KFile (c : content)
  | KDir.

Definition kind_of (t : node) : kind :=
  match t with File c => KFile c | Dir _ => KDir end.

Definition stat (t : node) (p : path) : option kind := kind_of <$> lookup t p.

(** [os.walk(top)], top down: for each directory its path, the names of
    its sub-directories and the names of its other entries; then the
    sub-directories in the same order. [t] is the node at [top]. *)
Fixpoint walk (top : path) (t : node) : list (path * list string * list string) :=
  match t with
  | File _ => []
  | Dir es =>
      (top,
       flat_map (λ '(n, c), match c with Dir _ => [n] | File _ => [] end) es,
       flat_map (λ '(n, c), match c with Dir _ => [] | File _ => [n] end) es)
      :: flat_map (λ '(n, c), match c with Dir _ => walk (top ++ [n]) c | File _ => [] end) es
  end.

Fixpoint common_prefix_len (a b : path) : nat :=
  match a, b with
  | x :: a', y :: b' => if String.eqb x y then S (common_prefix_len a' b') else 0
  | _, _ => 0
  end.

(** [os.path.relpath(p, start)] *)
Definition relpath (p start : path) : path :=
  let i := common_prefix_len start p in
  match repeat ".."%string (length start - i) ++ drop i p with
  | [] => ["."%string]
  | rel => rel
  end.

End FS.

(** ** The version-control backend (GitPython), an external collaborator *)

Record commit := Commit {
  hexsha : string;
  committed_date : Z;
  message : string;
  parents : list string  (* the hexsha of each parent, first parent first *)
}.

(** [iter_commits branch since until] is [repo.iter_commits(branch,
    since=.., until=..)]; [diff_name_only a b] is the list of lines of
    [repo.git.diff('--name-only', a, b)], each line a path. *)
Record repo := Repo {
  head_is_detached : bool;
  active_branch : string;
  iter_commits : string → string → string → result (list commit);
  diff_name_only : string → string → result (list path)
}.

(** ** Observable events: what is printed, what is asked of the operator
    and of the backend *)

Inductive prompt := AskStartDate | AskEndDate | AskCommitIndex.

Inductive msg :=
  | InvalidStartDate (s : string)
  | InvalidEndDate (s : string)
  | StartAfterEnd
  | ErrorCopying (file_path : path) (e : exn)
  | WarnMissing (file_path : path)
  | ZipCreated (zip_filename : path)
  | ErrorOpeningRepo (e : exn)
  | CurrentBranch (b : string)
  | DetachedHead
  | RetryStartDate
  | RetryEndDate
  | SelectedRange (s e : string)
  | NoCommitsFound
  | CommitListing (cs : list commit)
  | Instructions
  | Processing (c : commit) (index : Z)
  | RootCommitSkipped (c : commit)
  | NoChangedFiles (c : commit)
  | StagedCount (n : nat) (c : commit)
  | IndexOutOfRange
  | InvalidInput
  | NoFilesStaged
  | SelectedListing (sel : list (Z * commit))
  | Zipped.

Inductive event :=
  | Printed (m : msg)
  | Input (p : prompt)
  | IterCommits (branch since until : string)
  | GitDiff (a b : string).

(** ** A state-and-exception monad over the world *)

Record world := World { w_fs : node; w_out : list event }.

Definition M (A : Type) : Type := world → result A * world.

Definition ret {A} (a : A) : M A := λ w, (Ok a, w).

Definition bind {A B} (m : M A) (k : A → M B) : M B := λ w,
  match m w with
  | (Ok a, w') => k a w'
  | (Raise e, w') => (Raise e, w')
  end.

Definition raise {A} (e : exn) : M A := λ w, (Raise e, w).

(** [try: m  except <catches>: h], with the exception bound in [h] *)
Definition try_except {A} (m : M A) (catches : exn → bool) (h : exn → M A) : M A := λ w,
  match m w with
  | (Ok a, w') => (Ok a, w')
  | (Raise e, w') => if catches e then h e w' else (Raise e, w')
  end.

Declare Scope prog_scope.
Delimit Scope prog_scope with prog.
Notation "'do' x <- m ; k" := (bind m (λ x, k))
  (at level 10, x pattern, m at level 100, k at level 200) : prog_scope.
Notation "m ;;; k" := (bind m (λ _, k))
  (at level 100, k at level 200, right associativity) : prog_scope.
Local Open Scope prog_scope.

(** The world after one more event *)
Definition log (w : world) (e : event) : world :=
  World (w_fs w) (w_out w ++ [e]).

Definition emit (e : event) : M unit := λ w, (Ok tt, log w e).

Definition print (m : msg) : M unit := emit (Printed m).

(** Lift a file-system operation that returns the new tree or raises. *)
Definition fs_update (op : node → result node) : M unit := λ w,
  match op (w_fs w) with
  | Ok t => (Ok tt, World t (w_out w))
  | Raise e => (Raise e, w)
  end.

Definition fs_query {A} (q : node → A) : M A := λ w, (Ok (q (w_fs w)), w).

Definition lift {A} (r : result A) : M A := λ w, (r, w).

Definition any_exception (e : exn) : bool := true.
Definition is_ValueError (e : exn) : bool :=
  match e with ValueError => true | _ => false end.

(** ** Sorting, as [list.sort] and [sorted] do it: stable *)

(** [insert_by before x l] puts [x] into the sorted list [l], after the
    elements that must come strictly before it and in front of all the
    others, so that elements with equal keys keep their order. *)
Fixpoint insert_by {A} (before : A → A → bool) (x : A) (l : list A) : list A :=
  match l with
  | [] => [x]
  | y :: r => if before y x then y :: insert_by before x r else x :: y :: r
  end.

Definition stable_sort {A} (before : A → A → bool) (l : list A) : list A :=
  foldr (insert_by before) [] l.

(** [l.sort(key=key, reverse=True)] *)
Definition sort_key_reverse {A} (key : A → Z) (l : list A) : list A :=
  stable_sort (λ y x, (key x <? key y)%Z) l.

(** [sorted(l)] on integers *)
Definition sorted_ints (l : list Z) : list Z :=
  stable_sort (λ y x, (y <? x)%Z) l.

(** ** The functions of the script *)

Definition get_commits_between_dates
    (r : repo) (branch start_date_str end_date_str : string) : M (list commit) :=
  let start_date_obj := parse_date_input start_date_str in
  let end_date_obj := parse_date_input end_date_str in
  match start_date_obj with
  | None => print (InvalidStartDate start_date_str) ;;; ret []
  | Some start_dt =>
      match end_date_obj with
      | None => print (InvalidEndDate end_date_str) ;;; ret []
      | Some end_dt =>
          if datetime_gt start_dt end_dt then print StartAfterEnd ;;; ret []
          else
            let start_date := strftime_iso start_dt in
            let end_date := strftime_iso end_dt in
            emit (IterCommits branch start_date end_date) ;;;
            do commits <- lift (iter_commits r branch start_date end_date);
            ret (sort_key_reverse committed_date commits)
      end
  end.

Section Script.

(** The regular files the process may not read. *)
Variable unreadable : path → bool.

(** The body of the [for] loop of [copy_files_to_staging], for one
    [file_path]; it returns the updated [staged_files]. *)
Definition stage_file (repo_path staging_folder : path)
    (staged_files : gset path) (file_path : path) : M (gset path) :=
  let src := repo_path ++ file_path in
  do src_exists <- fs_query (λ t, FS.exists_ t src);
  if src_exists then
    let dest := staging_folder ++ file_path in
    let dest_dir := FS.dirname dest in
    fs_update (λ t, FS.ensure_dir t dest_dir) ;;;
    try_except
      (fs_update (λ t, FS.copy2 unreadable t src dest) ;;;
       ret (staged_files ∪ {[file_path]}))
      any_exception
      (λ e, print (ErrorCopying file_path e) ;;; ret staged_files)
  else
    print (WarnMissing file_path) ;;; ret staged_files.

Fixpoint copy_loop (repo_path staging_folder : path)
    (staged_files : gset path) (changed_files : list path) : M (gset path) :=
  match changed_files with
  | [] => ret staged_files
  | file_path :: rest =>
      do staged_files <- stage_file repo_path staging_folder staged_files file_path;
      copy_loop repo_path staging_folder staged_files rest
  end.

Definition copy_files_to_staging
    (changed_files : list path) (repo_path staging_folder : path) : M (gset path) :=
  copy_loop repo_path staging_folder ∅ changed_files.

(** A path as git and the manifest print it *)
Definition path_str (p : path) : string := String.concat "/" p.

Definition manifest_of (staged_files : gset path) : json :=
  JObject [("changed_files"%string,
            JArray (map (λ p, JString (path_str p)) (elements staged_files)))].

Definition create_manifest (staged_files : gset path) (staging_folder : path) : M path :=
  let manifest := manifest_of staged_files in
  let manifest_path := staging_folder ++ ["changes.json"%string] in
  fs_update (λ t, FS.write_file t manifest_path (JsonText manifest)) ;;;
  ret manifest_path.

(** The body of the inner loop of [zip_staging_folder], lines 86 to 88:
    the file [root/file] becomes a member named by its path relative to
    the staging folder. A file that cannot be read raises. *)
Definition zip_member (t : node) (staging_folder root : path) (file : string)
  : result (path * content) :=
  let abs_path := root ++ [file] in
  let rel_path := FS.relpath abs_path staging_folder in
  match FS.lookup t abs_path with
  | Some (File c) => Ok (rel_path, c)
  | Some (Dir _) => Raise IsADirectoryError
  | None => Raise FileNotFoundError
  end.

(** The two nested loops over [os.walk(staging_folder)], on the tree [t] *)
Definition zip_members (t : node) (staging_folder : path)
  : list (result (path * content)) :=
  match FS.lookup t staging_folder with
  | None => []
  | Some top =>
      flat_map (λ '(root, dirs, files), map (zip_member t staging_folder root) files)
        (FS.walk staging_folder top)
  end.

(** The members written before the first failure, and that failure *)
Fixpoint written {A} (l : list (result A)) : list A * option exn :=
  match l with
  | [] => ([], None)
  | Ok a :: r => let '(done, failure) := written r in (a :: done, failure)
  | Raise e :: _ => ([], Some e)
  end.

(** [zip_staging_folder]: the archive file is created when [ZipFile] is
    opened and the members are written during the walk; when the [with]
    block is left, normally or by an exception, the archive is closed
    with the members written so far. *)
Definition zip_staging_folder (staging_folder zip_filename : path) : M unit :=
  fs_update (λ t, FS.write_file t zip_filename (ZipArchive [])) ;;;
  do outcome <- fs_query (λ t, written (zip_members t staging_folder));
  fs_update (λ t, FS.write_file t zip_filename (ZipArchive outcome.1)) ;;;
  match outcome.2 with
  | Some e => raise e
  | None => print (ZipCreated zip_filename)
  end.

(** The state of the selection loop of [main] *)
Record selection := Selection {
  overall_changed_files : gset path;
  selected_commit_indices : list Z
}.

(** What one pass through the [while True] loop does with one line typed
    by the operator: [None] is [break], [Some st'] goes round again. *)
Definition select_step (r : repo) (commits : list commit)
    (repo_path staging_folder : path) (st : selection) (line : string)
  : M (option selection) :=
  let user_input := Text.lower (Text.strip line) in
  if String.eqb user_input "e" then ret None
  else
    try_except
      (do index <- lift (match Text.int user_input with
                         | Some i => Ok i
                         | None => Raise ValueError
                         end);
       if ((0 <=? index)%Z && (index <? Z.of_nat (length commits))%Z)%bool then
         let selected := selected_commit_indices st ++ [index] in
         match commits !! Z.to_nat index with
         | None => raise ValueError (* unreachable: the index is in range *)
         | Some commit =>
             print (Processing commit index) ;;;
             match parents commit with
             | [] =>
                 print (RootCommitSkipped commit) ;;;
                 ret (Some (Selection (overall_changed_files st) selected))
             | parent :: _ =>
                 emit (GitDiff parent (hexsha commit)) ;;;
                 do changed_files <- lift (diff_name_only r parent (hexsha commit));
                 match changed_files with
                 | [] =>
                     print (NoChangedFiles commit) ;;;
                     ret (Some (Selection (overall_changed_files st) selected))
                 | _ :: _ =>
                     do staged <- copy_files_to_staging changed_files repo_path staging_folder;
                     print (StagedCount (size staged) commit) ;;;
                     ret (Some (Selection (overall_changed_files st ∪ staged) selected))
                 end
             end
         end
       else
         print IndexOutOfRange ;;; ret (Some st))
      is_ValueError
      (λ _, print InvalidInput ;;; ret (Some st)).

(** The [while True] loop over the lines of standard input; it returns
    the final state and the lines not yet read. Reading past the end of
    the input is the [EOFError] of [input]. *)
Fixpoint selection_loop (r : repo) (commits : list commit)
    (repo_path staging_folder : path) (st : selection) (lines : list string)
  : M (selection * list string) :=
  match lines with
  | [] => emit (Input AskCommitIndex) ;;; raise EOFError
  | line :: rest =>
      emit (Input AskCommitIndex) ;;;
      do next <- select_step r commits repo_path staging_folder st line;
      match next with
      | None => ret (st, rest)
      | Some st' => selection_loop r commits repo_path staging_folder st' rest
      end
  end.

(** The two prompt loops for the dates *)
Fixpoint ask_date (p : prompt) (retry : msg) (lines : list string)
  : M (string * list string) :=
  match lines with
  | [] => emit (Input p) ;;; raise EOFError
  | line :: rest =>
      emit (Input p) ;;;
      let date_input := Text.strip line in
      match parse_date_input date_input with
      | Some _ => ret (date_input, rest)
      | None => print retry ;;; ask_date p retry rest
      end
  end.

Definition repo_path : path := [].
Definition staging_folder : path := repo_path ++ ["staging_folder"%string].
Definition zip_filename : path := ["staged_commits.zip"%string].

(** Lines 137 to 141: the staging folder is removed if it exists and
    created again. *)
Definition prepare_staging : M unit :=
  do there <- fs_query (λ t, FS.exists_ t staging_folder);
  (if there then fs_update (λ t, FS.rmtree t staging_folder) else ret tt) ;;;
  fs_update (λ t, FS.makedirs t staging_folder).

(** Lines 173 to 190: after the selection *)
Definition finish (commits : list commit) (st : selection) : M unit :=
  if bool_decide (overall_changed_files st = ∅) then print NoFilesStaged
  else
    print (SelectedListing
             (omap (λ idx, (λ c, (idx, c)) <$> commits !! Z.to_nat idx)
                   (sorted_ints (selected_commit_indices st)))) ;;;
    create_manifest (overall_changed_files st) staging_folder ;;;
    zip_staging_folder staging_folder zip_filename ;;;
    print Zipped.

(** [main]; [git] is the outcome of [Repo(repo_path)], [lines] is the
    standard input. *)
Definition main (git : result repo) (lines : list string) : M unit :=
  match git with
  | Raise e => print (ErrorOpeningRepo e)
  | Ok r =>
      if head_is_detached r then print DetachedHead
      else
        let current_branch := active_branch r in
        print (CurrentBranch current_branch) ;;;
        do (start_date_input, lines) <- ask_date AskStartDate RetryStartDate lines;
        do (end_date_input, lines) <- ask_date AskEndDate RetryEndDate lines;
        print (SelectedRange start_date_input end_date_input) ;;;
        do commits <- get_commits_between_dates r current_branch
                        start_date_input end_date_input;
        match commits with
        | [] => print NoCommitsFound
        | _ :: _ =>
            print (CommitListing commits) ;;;
            print Instructions ;;;
            prepare_staging ;;;
            do (st, _) <- selection_loop r commits repo_path staging_folder
                             (Selection ∅ []) lines;
            finish commits st
        end
  end.

End Script.

(** ** Notions used to state the properties *)

(** Chronological order of two calendar dates: [a] is strictly later
    than [b]. *)
Definition date_later (a b : datetime) : Prop :=
  (year b < year a)%Z
  ∨ (year a = year b
     ∧ ((month b < month a)%Z ∨ (month a = month b ∧ (day b < day a)%Z))).

(** A list of commits is newest first when no commit is followed by a
    newer one; strictly so when every commit is older than all those in
    front of it. *)
Definition newest_first (cs : list commit) : Prop :=
  StronglySorted (λ a b, (committed_date b ≤ committed_date a)%Z) cs.

Definition strictly_newest_first (cs : list commit) : Prop :=
  StronglySorted (λ a b, (committed_date b < committed_date a)%Z) cs.

(** The commits of a list that carry the timestamp [t], in list order *)
Definition with_timestamp (t : Z) (cs : list commit) : list commit :=
  List.filter (λ c, (committed_date c =? t)%Z) cs.

(** Two commits made in the same second, and backends that deliver them
    in one order or the other *)
Definition twin_a : commit := Commit "1111111" 1700000000 "first" ["0000000"%string].
Definition twin_b : commit := Commit "2222222" 1700000000 "second" ["1111111"%string].

Definition same_second_repo : repo :=
  Repo false "main" (λ _ _ _, Ok [twin_a; twin_b]) (λ _ _, Ok []).

Definition same_second_repo_swapped : repo :=
  Repo false "main" (λ _ _ _, Ok [twin_b; twin_a]) (λ _ _, Ok []).

(** A calendar date, as the [datetime] type admits it *)
Definition calendar_date (dt : datetime) : Prop :=
  (1 ≤ year dt ≤ 9999)%Z ∧ (1 ≤ month dt ≤ 12)%Z
  ∧ (1 ≤ day dt ≤ Strptime.days_in_month (year dt) (month dt))%Z.

(** The number a string of decimal digits denotes *)
Fixpoint digits_value (acc : Z) (s : list ascii) : option Z :=
  match s with
  | [] => Some acc
  | c :: r =>
      match Text.digit_val c with
      | Some v => digits_value (10 * acc + v) r
      | None => None
      end
  end.

Definition numeral (s : list ascii) (v : Z) : Prop :=
  s ≠ [] ∧ digits_value 0 s = Some v.

(** The day/month/year format: the day in one or two digits (a space may
    stand for the leading zero), the month in one or two digits, the year
    in four digits, separated by slashes, and nothing else. *)
Definition day_field (fd : list ascii) (d : Z) : Prop :=
  (numeral fd d ∧ length fd ≤ 2) ∨ (∃ c, fd = [" "%char; c] ∧ numeral [c] d).

Definition dmy_text (s : string) (d m y : Z) : Prop :=
  ∃ fd fm fy,
    list_ascii_of_string s = fd ++ "/"%char :: fm ++ "/"%char :: fy
    ∧ day_field fd d
    ∧ (numeral fm m ∧ length fm ≤ 2)
    ∧ (numeral fy y ∧ length fy = 4).

(** The characters a field of the format is made of *)
Definition field_char (c : ascii) : Prop :=
  Text.digit_val c ≠ None ∨ c = " "%char.

(** Names are unique within each directory of a tree. *)
Fixpoint wf (t : node) : bool :=
  match t with
  | File _ => true
  | Dir es => bool_decide (NoDup es.*1) && forallb (λ '(_, c), wf c) es
  end.

(** The regular files below a directory, each with its path relative to
    that directory and its content: first the files of the directory
    itself, then those of its sub-directories. *)
Fixpoint files_below (t : node) : list (path * content) :=
  match t with
  | File _ => []
  | Dir es =>
      flat_map (λ '(n, c), match c with File d => [([n], d)] | Dir _ => [] end) es
      ++ flat_map (λ '(n, c),
           match c with
           | Dir _ => map (λ '(p, d), (n :: p, d)) (files_below c)
           | File _ => []
           end) es
  end.

(** An occurrence of [p] in the list [cf] was copied: when the loop of
    [copy_files_to_staging], started in world [w] with the set [acc],
    reached it, the source existed, the destination directory was there
    or could be made, and [shutil.copy2] succeeded. *)
Definition copied (unreadable : path → bool) (rp sf : path)
    (w : world) (acc : gset path) (cf : list path) (p : path) : Prop :=
  ∃ l1 l2 s1 w1 t1 t2,
    cf = l1 ++ p :: l2
    ∧ copy_loop unreadable rp sf acc l1 w = (Ok s1, w1)
    ∧ FS.exists_ (w_fs w1) (rp ++ p) = true
    ∧ FS.ensure_dir (w_fs w1) (FS.dirname (sf ++ p)) = Ok t1
    ∧ FS.copy2 unreadable t1 (rp ++ p) (sf ++ p) = Ok t2.

(** A working tree with [a/b/c.txt] and [x.txt], and a staging folder
    [stage] in which [a] is a regular file *)
Definition blocked_tree : node :=
  Dir [("a", Dir [("b", Dir [("c.txt", File (Bytes "C"))])]);
       ("x.txt", File (Bytes "X"));
       ("stage", Dir [("a", File (Bytes "in the way"))])]%string.

(** Two facts about the tree that the selection loop maintains. The
    staging folder mirrors directories: where it has a directory, the
    tree has one at the same path from the root. And a set of paths
    lists the staged files: it holds exactly the paths at which the
    staging folder has a regular file. *)
Definition mirrors_dirs (sf : path) (t : node) : Prop :=
  ∀ q, FS.isdir t (sf ++ q) = true → FS.isdir t q = true.

Definition lists_staged (sf : path) (t : node) (s : gset path) : Prop :=
  ∀ p, p ∈ s ↔ FS.isfile t (sf ++ p) = true.

(** The scenario of the specification: a root commit, a commit that
    modifies [a.txt], and one that modifies [a.txt] and adds [b/c.txt],
    listed newest first; the working tree holds both files and a staging
    folder left by an earlier run. *)
Definition demo_commits : list commit :=
  [Commit "c3c3c3c" 300 "third" ["c2c2c2c"];
   Commit "c2c2c2c" 200 "second" ["c1c1c1c"];
   Commit "c1c1c1c" 100 "first" []]%string.

Definition demo_repo : repo :=
  Repo false "main" (λ _ _ _, Ok demo_commits)
    (λ _ b, if String.eqb b "c2c2c2c" then Ok [["a.txt"]]
            else if String.eqb b "c3c3c3c" then Ok [["a.txt"]; ["b"; "c.txt"]]
            else Ok [])%string.

Definition demo_tree : node :=
  Dir [("a.txt", File (Bytes "A"));
       ("b", Dir [("c.txt", File (Bytes "C"))]);
       ("staging_folder", Dir [("old.txt", File (Bytes "stale"))])]%string.

(** *** An abstract view of the selection loop

    What a line typed by the operator contributes to the accumulated
    set, told from the working tree [wt] alone: a path is staged when it
    is a regular file of the working tree that may be read. *)
Definition stageable (unreadable : path → bool) (wt : node) (p : path) : bool :=
  match FS.lookup wt p with
  | Some (File _) => negb (unreadable p)
  | _ => false
  end.

Definition staged_of (unreadable : path → bool) (wt : node) (cf : list path)
  : gset path :=
  list_to_set (List.filter (stageable unreadable wt) cf).

Inductive effect :=
  | Stop
  | Add (s : gset path)
  | Raises (e : exn).

Definition line_effect (unreadable : path → bool) (r : repo) (commits : list commit)
    (wt : node) (line : string) : effect :=
  let user_input := Text.lower (Text.strip line) in
  if String.eqb user_input "e" then Stop
  else
    match Text.int user_input with
    | None => Add ∅
    | Some index =>
        if ((0 <=? index)%Z && (index <? Z.of_nat (length commits))%Z)%bool then
          match commits !! Z.to_nat index with
          | None => Add ∅
          | Some commit =>
              match parents commit with
              | [] => Add ∅
              | parent :: _ =>
                  match diff_name_only r parent (hexsha commit) with
                  | Raise e => if is_ValueError e then Add ∅ else Raises e
                  | Ok cf => Add (staged_of unreadable wt cf)
                  end
              end
          end
        else Add ∅
    end.

Fixpoint pure_loop (eff : string → effect) (acc : gset path) (lines : list string)
  : result (gset path) :=
  match lines with
  | [] => Raise EOFError
  | x :: rest =>
      match eff x with
      | Stop => Ok acc
      | Add s => pure_loop eff (acc ∪ s) rest
      | Raises e => Raise e
      end
  end.

(** The accumulated set a run of the selection loop ends with, or the
    exception it ends with *)
Definition final_set (run : result (selection * list string) * world)
  : result (gset path) :=
  match run.1 with
  | Ok (st, _) => Ok (overall_changed_files st)
  | Raise e => Raise e
  end.

(** No path that the backend reports as changed, for a listed commit
    against its first parent, lies in the staging folder. *)
Definition clean_diffs (r : repo) (commits : list commit) : Prop :=
  ∀ c parent others cf p,
    c ∈ commits → parents c = parent :: others →
    diff_name_only r parent (hexsha c) = Ok cf →
    p ∈ cf → ¬ staging_folder `prefix_of` p.

(** The staging folder [sf] of the tree [t] mirrors the working tree
    [wt]: outside the staging folder [t] is [wt]; a directory or regular
    file in the staging folder stands at a path where [wt] has one. *)
Record staging_mirror (sf : path) (wt t : node) : Prop := StagingMirror {
  mirror_root : FS.stat t sf = Some FS.KDir;
  mirror_outside : ∀ q, ¬ sf `prefix_of` q → FS.stat t q = FS.stat wt q;
  mirror_dir : ∀ q, FS.stat t (sf ++ q) = Some FS.KDir → FS.stat wt q = Some FS.KDir;
  mirror_file : ∀ q c, FS.stat t (sf ++ q) = Some (FS.KFile c) →
                       ∃ c', FS.stat wt q = Some (FS.KFile c')
}.

(** A repository that tracks a file of an earlier staging folder: the
    commit changes [staging_folder/z] and [z]. *)
Definition shadow_commits : list commit :=
  [Commit "5555555" 500 "change z twice" ["4444444"]]%string.

Definition shadow_repo : repo :=
  Repo false "main" (λ _ _ _, Ok shadow_commits)
    (λ _ _, Ok [["staging_folder"; "z"]; ["z"]])%string.

Definition shadow_tree : node :=
  Dir [("z", File (Bytes "Z"));
       ("staging_folder", Dir [("z", File (Bytes "old"))])]%string.

(** *** Notions for the run as a whole *)

(** A line that ends the selection: the token [e] once stripped and
    lower-cased. *)
Definition ends_selection (line : string) : Prop :=
  Text.lower (Text.strip line) = "e"%string.

(** The index a line selects: the line is the text of an integer within
    the bounds of the commit list. *)
Definition chosen (commits : list commit) (line : string) : option Z :=
  match Text.int (Text.lower (Text.strip line)) with
  | Some index =>
      if ((0 <=? index)%Z && (index <? Z.of_nat (length commits))%Z)%bool
      then Some index else None
  | None => None
  end.

(** [str(i)] for an index [i]: its decimal text, as the listing of the
    commits shows it in front of each commit. *)
Definition decimal (i : nat) : string := NilZero.string_of_uint (Nat.to_uint i).

(** A computation respects a relation between worlds when every run of
    it, whether it returns or raises, takes a world to a related one. *)
Definition respects {A} (R : relation world) (m : M A) : Prop :=
  ∀ w res w', m w = (res, w') → R w w'.

(** The trace grows, by events in [P] only. *)
Definition emits_only (P : event → Prop) : relation world := λ w w',
  ∃ evs, w_out w' = w_out w ++ evs ∧ Forall P evs.

(** The file system is as it was unless a list of commits, not empty,
    has been printed. *)
Definition changes_only_after_listing : relation world := λ w w',
  ∃ evs, w_out w' = w_out w ++ evs
         ∧ (w_fs w' = w_fs w ∨ ∃ cs, cs ≠ [] ∧ Printed (CommitListing cs) ∈ evs).

(** A property of the tree holds after the run if it held before. *)
Definition keeps (I : node → Prop) : relation world := λ w w',
  I (w_fs w) → I (w_fs w').

(** Nothing changes at the paths outside [touched]. *)
Definition unchanged_outside (touched : path → Prop) : relation world := λ w w',
  ∀ q, ¬ touched q → FS.stat (w_fs w') q = FS.stat (w_fs w) q.

(** While the folder [sf] is a directory, it stays one and nothing
    changes outside it. *)
Definition confined_to (sf : path) : relation world := λ w w',
  FS.stat (w_fs w) sf = Some FS.KDir →
  FS.stat (w_fs w') sf = Some FS.KDir
  ∧ ∀ q, ¬ sf `prefix_of` q → FS.stat (w_fs w') q = FS.stat (w_fs w) q.

Definition is_Printed (e : event) : Prop :=
  match e with Printed _ => True | _ => False end.

(** Every regular file in the folder [sf] of the tree [t] has the
    content of the file that [t] has at the same path from the root. *)
Definition exact_copies (sf : path) (t : node) : Prop :=
  ∀ q c, FS.stat t (sf ++ q) = Some (FS.KFile c) → FS.stat t q = Some (FS.KFile c).

(** The folder [sf] is a faithful partial copy of the tree around it:
    its directories stand where the tree has directories, and its files
    are copies of the files at the same paths. *)
Definition faithful (sf : path) (t : node) : Prop :=
  mirrors_dirs sf t ∧ exact_copies sf t.

(** The paths that a run of [main] may write to: the staging folder and
    what is below it, and the archive. *)
Definition written_by_main (q : path) : Prop :=
  staging_folder `prefix_of` q ∨ q = zip_filename.


(** * Properties *)

(** ** The monad *)

Lemma bind_ok {A B} (m : M A) (k : A → M B) w a w' :
  m w = (Ok a, w') → bind m k w = k a w'.
Proof. intros H. unfold bind. by rewrite H. Qed.

Lemma bind_raise {A B} (m : M A) (k : A → M B) w e w' :
  m w = (Raise e, w') → bind m k w = (Raise e, w').
Proof. intros H. unfold bind. by rewrite H. Qed.

(** ** Text *)

Lemma lstrip_spaces pre s :
  forallb Text.isspace pre = true → Text.lstrip (pre ++ s) = Text.lstrip s.
Proof.
  induction pre as [|c pre IH]; simpl; [done|].
  intros [Hc Hpre]%andb_prop. rewrite Hc. auto.
Qed.

Lemma lstrip_nonspace c s :
  Text.isspace c = false → Text.lstrip (c :: s) = c :: s.
Proof. intros H. simpl. by rewrite H. Qed.

Lemma forallb_rev {A} (f : A → bool) l : forallb f (rev l) = forallb f l.
Proof.
  induction l as [|x l IH]; simpl; [done|].
  rewrite forallb_app, IH. simpl. rewrite andb_true_r. apply andb_comm.
Qed.

(** Stripping removes white space on both sides of a single visible
    character. *)
Lemma strip_padded pre c post :
  forallb Text.isspace pre = true → forallb Text.isspace post = true →
  Text.isspace c = false →
  Text.strip (string_of_list_ascii (pre ++ c :: post)) = String c EmptyString.
Proof.
  intros Hpre Hpost Hc. unfold Text.strip, Text.rstrip.
  rewrite list_ascii_of_string_of_list_ascii.
  rewrite lstrip_spaces, lstrip_nonspace by done.
  simpl rev. rewrite lstrip_spaces by (by rewrite forallb_rev).
  by rewrite lstrip_nonspace.
Qed.

(** ** The selection loop: the termination token *)

Section Selection_loop.

Variable unreadable : path → bool.
Variable r : repo.
Variable commits : list commit.
Variables repo_dir staging_dir : path.

Lemma select_step_token st line w :
  Text.lower (Text.strip line) = "e"%string →
  select_step unreadable r commits repo_dir staging_dir st line w = (Ok None, w).
Proof. intros H. unfold select_step. by rewrite H. Qed.

(** C9: the loop compares the stripped, lower-cased line with the token
    [e]: a line that is [e] or [E] between any white space ends the loop
    with the state unchanged, and nothing but the prompt is printed (in
    particular no "invalid input" diagnostic). *)
Theorem C9_termination_token_normalised st pre c post rest w :
  forallb Text.isspace pre = true →
  forallb Text.isspace post = true →
  c = "e"%char ∨ c = "E"%char →
  selection_loop unreadable r commits repo_dir staging_dir st
    (string_of_list_ascii (pre ++ c :: post) :: rest) w
  = (Ok (st, rest), World (w_fs w) (w_out w ++ [Input AskCommitIndex])).
Proof.
  intros Hpre Hpost Hc. simpl. unfold bind at 1. simpl.
  assert (Htok : Text.lower (Text.strip (string_of_list_ascii (pre ++ c :: post)))
                 = "e"%string).
  { rewrite strip_padded by (done || by destruct Hc as [-> | ->]).
    by destruct Hc as [-> | ->]. }
  by rewrite (bind_ok _ _ _ None _ (select_step_token _ _ _ Htok)).
Qed.

End Selection_loop.

Lemma C9_witness :
  selection_loop (λ _, false) (Repo false "main" (λ _ _ _, Ok []) (λ _ _, Ok []))
    [] [] ["staging_folder"%string] (Selection ∅ []) [" e "%string; "0"%string]
    (World (Dir []) [])
  = (Ok (Selection ∅ [], ["0"%string]), World (Dir []) [Input AskCommitIndex]).
Proof.
  apply (C9_termination_token_normalised (λ _, false) _ [] [] _ (Selection ∅ [])
           [" "%char] "e"%char [" "%char] ["0"%string] (World (Dir []) []));
    [reflexivity | reflexivity | by left].
Defined.

(** ** The selection loop: a root commit *)

Section Root_commit.

Variable unreadable : path → bool.
Variable r : repo.
Variable commits : list commit.
Variables repo_dir staging_dir : path.

Lemma int_not_token s i : Text.int s = Some i → String.eqb s "e" = false.
Proof.
  intros H. destruct (String.eqb_spec s "e") as [-> | ]; [|done].
  by vm_compute in H.
Qed.

(** C7: when the line typed selects a commit without parents, the step
    raises nothing, leaves the file system and the accumulated set of
    staged files as they were, prints the "no parent" diagnostic, and the
    loop goes on with the next line. *)
Theorem C7_root_commit_skipped st line index commit rest w :
  Text.int (Text.lower (Text.strip line)) = Some index →
  (0 ≤ index)%Z →
  commits !! Z.to_nat index = Some commit →
  parents commit = [] →
  selection_loop unreadable r commits repo_dir staging_dir st (line :: rest) w
  = selection_loop unreadable r commits repo_dir staging_dir
      (Selection (overall_changed_files st) (selected_commit_indices st ++ [index]))
      rest
      (World (w_fs w)
         (w_out w ++ [Input AskCommitIndex; Printed (Processing commit index);
                      Printed (RootCommitSkipped commit)])).
Proof.
  intros Hint Hpos Hlook Hroot. simpl. unfold bind at 1. simpl.
  assert (Hrange : ((0 <=? index)%Z && (index <? Z.of_nat (length commits))%Z) = true).
  { apply lookup_lt_Some in Hlook. apply andb_true_intro. split.
    - by apply Z.leb_le.
    - apply Z.ltb_lt. lia. }
  unfold select_step. rewrite (int_not_token _ _ Hint), Hint.
  unfold bind, try_except, lift, print, emit, ret, log. simpl.
  rewrite Hrange, Hlook, Hroot. simpl.
  by rewrite <- !app_assoc.
Qed.

End Root_commit.

Lemma C7_witness :
  let root := Commit "0a1b2c3" 100 "initial" [] in
  selection_loop (λ _, false) (Repo false "main" (λ _ _ _, Ok []) (λ _ _, Ok []))
    [root] [] ["staging_folder"%string] (Selection ∅ []) ["0"%string; "e"%string]
    (World (Dir []) [])
  = selection_loop (λ _, false) (Repo false "main" (λ _ _ _, Ok []) (λ _ _, Ok []))
      [root] [] ["staging_folder"%string] (Selection ∅ [0%Z]) ["e"%string]
      (World (Dir []) [Input AskCommitIndex; Printed (Processing root 0);
                       Printed (RootCommitSkipped root)]).
Proof.
  intros root.
  apply (C7_root_commit_skipped (λ _, false) _ [root] [] _ (Selection ∅ [])
           "0"%string 0%Z root ["e"%string] (World (Dir []) []));
    [reflexivity | lia | reflexivity | reflexivity].
Defined.

(** ** The commit range query: rejected date ranges *)

Lemma datetime_gt_later a b : date_later a b → datetime_gt a b = true.
Proof.
  unfold date_later, datetime_gt.
  intros [H | [Hy [H | [Hm H]]]].
  - apply orb_true_intro. left. by apply Z.ltb_lt.
  - rewrite Hy, Z.eqb_refl. simpl. rewrite orb_true_iff. right.
    rewrite orb_true_iff. left. by apply Z.ltb_lt.
  - rewrite Hy, Hm, !Z.eqb_refl. simpl. rewrite !orb_true_iff. right. right.
    by apply Z.ltb_lt.
Qed.

(** C5: if one of the two date strings does not parse, or both parse and
    the start date is strictly later than the end date, the query returns
    the empty list normally, and all it does is print one diagnostic: the
    backend is not asked for commits (no [IterCommits] event) and the
    file system is not touched. *)
Theorem C5_invalid_range_no_enumeration r branch start_s end_s w :
  parse_date_input start_s = None
  ∨ parse_date_input end_s = None
  ∨ (∃ ds de, parse_date_input start_s = Some ds
              ∧ parse_date_input end_s = Some de ∧ date_later ds de) →
  ∃ m, m ∈ [InvalidStartDate start_s; InvalidEndDate end_s; StartAfterEnd]
       ∧ get_commits_between_dates r branch start_s end_s w
         = (Ok [], World (w_fs w) (w_out w ++ [Printed m])).
Proof.
  intros H. unfold get_commits_between_dates.
  destruct (parse_date_input start_s) as [ds|] eqn:Hs.
  - destruct (parse_date_input end_s) as [de|] eqn:He.
    + destruct H as [H | [H | (ds' & de' & H1 & H2 & Hlater)]]; try done.
      simplify_eq. rewrite (datetime_gt_later _ _ Hlater).
      exists StartAfterEnd. split; [rewrite !elem_of_cons; auto | done].
    + exists (InvalidEndDate end_s). split; [rewrite !elem_of_cons; auto | done].
  - exists (InvalidStartDate start_s). split; [rewrite !elem_of_cons; auto | done].
Qed.

Lemma C5_witness :
  ∃ m, m ∈ [InvalidStartDate "10/03/2024"; InvalidEndDate "01/03/2024"; StartAfterEnd]
       ∧ get_commits_between_dates
           (Repo false "main" (λ _ _ _, Raise GitCommandError) (λ _ _, Ok []))
           "main" "10/03/2024" "01/03/2024" (World (Dir []) [])
         = (Ok [], World (Dir []) [Printed m]).
Proof.
  apply (C5_invalid_range_no_enumeration
           (Repo false "main" (λ _ _ _, Raise GitCommandError) (λ _ _, Ok []))
           "main" "10/03/2024" "01/03/2024" (World (Dir []) [])).
  right. right. exists (Datetime 2024 3 10), (Datetime 2024 3 1).
  split; [reflexivity|]. split; [reflexivity|].
  right. split; [reflexivity|]. right. split; [reflexivity|]. simpl. lia.
Defined.

(** ** The commit range query: ordering of the result *)

Section Sorting.

Context {A : Type} (key : A → Z).

Let before (y x : A) : bool := (key x <? key y)%Z.

Lemma insert_by_perm x l : Permutation (insert_by before x l) (x :: l).
Proof.
  induction l as [|y l IH]; simpl; [done|].
  destruct (before y x); [|done].
  rewrite IH. apply perm_swap.
Qed.

Lemma sort_key_reverse_perm l : Permutation (sort_key_reverse key l) l.
Proof.
  unfold sort_key_reverse, stable_sort.
  induction l as [|x l IH]; simpl; [done|].
  fold before. rewrite insert_by_perm. by constructor.
Qed.

Lemma insert_by_sorted x l :
  StronglySorted (λ a b, (key b ≤ key a)%Z) l →
  StronglySorted (λ a b, (key b ≤ key a)%Z) (insert_by before x l).
Proof.
  induction 1 as [|y l Hl IH Hy]; simpl.
  - repeat constructor.
  - unfold before at 1. destruct (Z.ltb_spec (key x) (key y)) as [Hlt | Hge].
    + constructor; [done|].
      eapply Permutation_Forall; [symmetry; apply insert_by_perm|].
      constructor; [lia | done].
    + constructor; [by constructor|].
      constructor; [done|].
      eapply Forall_impl; [exact Hy|]. simpl. intros. lia.
Qed.

Lemma sort_key_reverse_sorted l :
  StronglySorted (λ a b, (key b ≤ key a)%Z) (sort_key_reverse key l).
Proof.
  unfold sort_key_reverse, stable_sort.
  induction l as [|x l IH]; simpl; [constructor|].
  by apply insert_by_sorted.
Qed.

Lemma insert_by_filter t x l :
  List.filter (λ c, (key c =? t)%Z) (insert_by before x l)
  = List.filter (λ c, (key c =? t)%Z) (x :: l).
Proof.
  induction l as [|y l IH]; [done|].
  simpl insert_by. unfold before at 1.
  destruct (Z.ltb_spec (key x) (key y)) as [Hlt | Hge]; [|done].
  simpl in *. rewrite IH.
  destruct (Z.eqb_spec (key x) t), (Z.eqb_spec (key y) t); try done. lia.
Qed.

(** The sort is stable: commits with one timestamp keep their order. *)
Lemma sort_key_reverse_stable t l :
  List.filter (λ c, (key c =? t)%Z) (sort_key_reverse key l)
  = List.filter (λ c, (key c =? t)%Z) l.
Proof.
  unfold sort_key_reverse, stable_sort.
  induction l as [|x l IH]; [done|].
  simpl foldr. fold before in IH |- *. rewrite insert_by_filter. simpl.
  by rewrite IH.
Qed.

Lemma sorted_distinct_strict l :
  NoDup (map key l) →
  StronglySorted (λ a b, (key b ≤ key a)%Z) l →
  StronglySorted (λ a b, (key b < key a)%Z) l.
Proof.
  induction l as [|x l IH]; [constructor|].
  simpl. intros [Hx Hnd]%NoDup_cons [Hs Hall]%StronglySorted_inv.
  constructor; [by apply IH|].
  apply Forall_forall. intros y Hy.
  rewrite Forall_forall in Hall. specialize (Hall y Hy).
  assert (key y ≠ key x).
  { intros Heq. apply Hx. rewrite <- Heq.
    apply list_elem_of_In, in_map. by apply list_elem_of_In. }
  lia.
Qed.

End Sorting.

Lemma datetime_gt_inv a b : datetime_gt a b = true → date_later a b.
Proof.
  unfold date_later, datetime_gt.
  rewrite !orb_true_iff, !andb_true_iff, !orb_true_iff, !andb_true_iff.
  rewrite !Z.ltb_lt, !Z.eqb_eq. tauto.
Qed.

(** C4, as the code has it: for a valid range, whatever list the backend
    delivers, the query returns the same commits (a permutation) with no
    commit followed by a newer one; commits that share a timestamp stay
    in the order the backend gave them; and when all timestamps differ
    the result is strictly newest first. *)
Theorem C4_sorted_newest_first_stable r branch start_s end_s ds de cs w :
  parse_date_input start_s = Some ds →
  parse_date_input end_s = Some de →
  ¬ date_later ds de →
  iter_commits r branch (strftime_iso ds) (strftime_iso de) = Ok cs →
  ∃ res,
    get_commits_between_dates r branch start_s end_s w
    = (Ok res, World (w_fs w)
                 (w_out w ++ [IterCommits branch (strftime_iso ds) (strftime_iso de)]))
    ∧ Permutation res cs
    ∧ newest_first res
    ∧ (∀ t, with_timestamp t res = with_timestamp t cs)
    ∧ (NoDup (map committed_date cs) → strictly_newest_first res).
Proof.
  intros Hs He Hle Hcs.
  exists (sort_key_reverse committed_date cs).
  split; [|split; [|split; [|split]]].
  - unfold get_commits_between_dates. rewrite Hs, He.
    destruct (datetime_gt ds de) eqn:Hgt.
    { by apply datetime_gt_inv in Hgt. }
    unfold bind, emit, lift, ret. simpl. by rewrite Hcs.
  - apply sort_key_reverse_perm.
  - apply sort_key_reverse_sorted.
  - intros t. apply sort_key_reverse_stable.
  - intros Hnd. apply sorted_distinct_strict; [|apply sort_key_reverse_sorted].
    eapply NoDup_Permutation_proper; [|exact Hnd].
    apply Permutation_map, sort_key_reverse_perm.
Qed.

Lemma C4_witness :
  let a := Commit "aaaaaaa" 10 "older" ["0000000"%string] in
  let b := Commit "bbbbbbb" 20 "newer" ["aaaaaaa"%string] in
  let r := Repo false "main" (λ _ _ _, Ok [a; b]) (λ _ _, Ok []) in
  ∃ res,
    get_commits_between_dates r "main" "01/03/2024" "10/03/2024" (World (Dir []) [])
    = (Ok res, World (Dir []) [IterCommits "main" "2024-03-01" "2024-03-10"])
    ∧ Permutation res [a; b]
    ∧ newest_first res
    ∧ (∀ t, with_timestamp t res = with_timestamp t [a; b])
    ∧ (NoDup (map committed_date [a; b]) → strictly_newest_first res).
Proof.
  intros a b r.
  apply (C4_sorted_newest_first_stable r "main" "01/03/2024" "10/03/2024"
           (Datetime 2024 3 1) (Datetime 2024 3 10) [a; b] (World (Dir []) []));
    [reflexivity | reflexivity | | reflexivity].
  unfold date_later. simpl. lia.
Defined.

(** C4 as stated fails: two commits made in the same second come back
    next to each other, so the result is not strictly descending; and
    they come back in the order the backend delivered them, so the
    result does depend on that order. *)
Lemma C4_counterexample :
  ∃ w',
    get_commits_between_dates same_second_repo "main" "01/01/2023" "31/12/2023"
      (World (Dir []) []) = (Ok [twin_a; twin_b], w')
    ∧ get_commits_between_dates same_second_repo_swapped "main" "01/01/2023" "31/12/2023"
        (World (Dir []) []) = (Ok [twin_b; twin_a], w')
    ∧ ¬ strictly_newest_first [twin_a; twin_b]
    ∧ [twin_a; twin_b] ≠ [twin_b; twin_a].
Proof.
  exists (World (Dir []) [IterCommits "main" "2023-01-01" "2023-12-31"]).
  split; [reflexivity|]. split; [reflexivity|]. split; [|done].
  intros H. apply StronglySorted_inv in H as [_ H].
  apply Forall_inv in H. simpl in H. lia.
Qed.

(** ** Date parsing *)

Section Date_parsing.

Import Strptime.
Local Open Scope Z_scope.

Lemma digit_val_cases c v :
  Text.digit_val c = Some v →
  In (c, v) [("0"%char, 0); ("1"%char, 1); ("2"%char, 2); ("3"%char, 3);
             ("4"%char, 4); ("5"%char, 5); ("6"%char, 6); ("7"%char, 7);
             ("8"%char, 8); ("9"%char, 9)].
Proof.
  intros H.
  destruct c as [[] [] [] [] [] [] [] []]; vm_compute in H;
    try discriminate H; injection H as <-; simpl; auto 12.
Qed.

Lemma digit_val_class c :
  Text.digit_val c = if in_class "0" "9" c then Some (code c - 48) else None.
Proof. done. Qed.

Lemma numeral_1 c v : numeral [c] v ↔ Text.digit_val c = Some v.
Proof.
  unfold numeral. simpl. destruct (Text.digit_val c) as [v1|]; simpl.
  - replace (0 + v1) with v1 by lia. split; [by intros [_ H] | done].
  - split; [by intros [_ H] | done].
Qed.

Lemma numeral_2 c1 c2 v :
  numeral [c1; c2] v ↔
  ∃ v1 v2, Text.digit_val c1 = Some v1 ∧ Text.digit_val c2 = Some v2 ∧ v = 10 * v1 + v2.
Proof.
  unfold numeral. simpl.
  destruct (Text.digit_val c1) as [v1|]; simpl.
  2:{ split; [by intros [_ H] | by intros (? & ? & ? & _)]. }
  destruct (Text.digit_val c2) as [v2|]; simpl.
  2:{ split; [by intros [_ H] | by intros (? & ? & _ & ? & _)]. }
  replace (0 + v1) with v1 by lia. split.
  - intros [_ H]. exists v1, v2. by simplify_eq.
  - intros (? & ? & ? & ? & ->). by simplify_eq.
Qed.

Lemma numeral_short s v :
  numeral s v → (length s ≤ 2)%nat →
  (∃ c, s = [c] ∧ Text.digit_val c = Some v)
  ∨ (∃ c1 c2 v1 v2, s = [c1; c2] ∧ Text.digit_val c1 = Some v1
                    ∧ Text.digit_val c2 = Some v2 ∧ v = 10 * v1 + v2).
Proof.
  intros Hn Hlen. destruct s as [|c1 [|c2 [|c3 s]]]; simpl in Hlen; try lia.
  - by destruct Hn.
  - left. exists c1. split; [done|]. by apply numeral_1.
  - right. apply numeral_2 in Hn as (v1 & v2 & ? & ? & ?). by exists c1, c2, v1, v2.
Qed.

Ltac eval_classes :=
  repeat match goal with
         | |- context [in_class ?a ?b ?c] =>
             let v := eval vm_compute in (in_class a b c) in
             change (in_class a b c) with v
         end.

Ltac run_regex := repeat (cbn; eval_classes); rewrite ?app_nil_r.

Ltac digit_cases H :=
  apply digit_val_cases in H; simpl in H;
  repeat (destruct H as [H|H]); try (by destruct H);
  injection H as <- <-.

(** What [re_d] followed by the separator does on a day field *)
Lemma re_d_complete {B} (K : list ascii → list ascii → list B) fd d rest :
  day_field fd d → 1 ≤ d ≤ 31 →
  flat_map (λ '(a, r1), flat_map (λ '(_, r2), K a r2) (re_lit "/" r1))
           (re_d (fd ++ "/"%char :: rest))
  = K fd rest ∧ py_int fd = d.
Proof.
  intros [[Hn Hlen] | (c & -> & Hn)] Hd.
  - destruct (numeral_short _ _ Hn Hlen)
      as [(c & -> & Hc) | (c1 & c2 & v1 & v2 & -> & H1 & H2 & ->)].
    + digit_cases Hc; try lia; (split; [by run_regex | by vm_compute]).
    + digit_cases H1; digit_cases H2; try lia; (split; [by run_regex | by vm_compute]).
  - apply numeral_1 in Hn. digit_cases Hn; try lia; (split; [by run_regex | by vm_compute]).
Qed.

Lemma re_m_complete {B} (K : list ascii → list ascii → list B) fm m rest :
  numeral fm m → (length fm ≤ 2)%nat → 1 ≤ m ≤ 12 →
  flat_map (λ '(a, r1), flat_map (λ '(_, r2), K a r2) (re_lit "/" r1))
           (re_m (fm ++ "/"%char :: rest))
  = K fm rest ∧ py_int fm = m.
Proof.
  intros Hn Hlen Hd.
  destruct (numeral_short _ _ Hn Hlen)
    as [(c & -> & Hc) | (c1 & c2 & v1 & v2 & -> & H1 & H2 & ->)].
  - digit_cases Hc; try lia; (split; [by run_regex | by vm_compute]).
  - digit_cases H1; digit_cases H2; try lia; (split; [by run_regex | by vm_compute]).
Qed.

Lemma re_Y_complete fy y rest :
  numeral fy y → length fy = 4%nat →
  re_Y (fy ++ rest) = [(fy, rest)] ∧ py_int fy = y.
Proof.
  intros [_ Hv] Hlen.
  destruct fy as [|c1 [|c2 [|c3 [|c4 [|c5 fy]]]]]; try done.
  cbn in Hv. rewrite !digit_val_class in Hv.
  unfold re_Y, re_seq, re_digit, re_class, py_int. cbn.
  destruct (in_class "0" "9" c1); [cbn in *|done].
  destruct (in_class "0" "9" c2); [cbn in *|done].
  destruct (in_class "0" "9" c3); [cbn in *|done].
  destruct (in_class "0" "9" c4); [cbn in *|done].
  split; [done|]. simplify_eq. lia.
Qed.

(** A string in the day/month/year format parses to the date its fields
    denote, when that is a calendar date. *)
Lemma parse_date_complete s d m y :
  dmy_text s d m y → calendar_date (Datetime y m d) →
  parse_date_input s = Some (Datetime y m d).
Proof.
  intros (fd & fm & fy & Hs & Hd & [Hm Hml] & [Hy Hyl]) (Hyr & Hmr & Hdr).
  simpl in *.
  assert (Hd31 : 1 ≤ d ≤ 31).
  { split; [lia|]. etrans; [apply Hdr|]. unfold days_in_month.
    destruct (is_leap y); repeat case_match; lia. }
  unfold parse_date_input, strptime, re_match, format_regex. rewrite Hs.
  destruct (re_d_complete
    (λ d r2, flat_map (λ '(m, r3), flat_map (λ '(_, r4),
       map (λ '(y, r5), Groups d m y r5) (re_Y r4)) (re_lit "/" r3)) (re_m r2))
    fd d (fm ++ "/"%char :: fy) Hd Hd31) as [-> Hpd].
  destruct (re_m_complete
    (λ m r4, map (λ '(y, r5), Groups fd m y r5) (re_Y r4))
    fm m fy Hm Hml Hmr) as [-> Hpm].
  destruct (re_Y_complete fy y [] Hy Hyl) as [HY Hpy].
  rewrite app_nil_r in HY. rewrite HY. simpl.
  rewrite Hpd, Hpm, Hpy. unfold datetime_new.
  repeat (rewrite (proj2 (Z.leb_le _ _)) by lia). done.
Qed.

(** Conversely: what the matchers accept *)

Lemma in_re_class lo hi a r s :
  In (a, r) (re_class lo hi s) → ∃ c, s = c :: r ∧ a = [c] ∧ in_class lo hi c = true.
Proof.
  destruct s as [|c s]; simpl; [done|].
  destruct (in_class lo hi c) eqn:E; simpl; [|done].
  intros [H|[]]. simplify_eq. by exists c.
Qed.

Lemma in_re_seq (m1 m2 : matcher) a r s :
  In (a, r) (re_seq m1 m2 s) →
  ∃ a1 r1 a2, In (a1, r1) (m1 s) ∧ In (a2, r) (m2 r1) ∧ a = a1 ++ a2.
Proof.
  unfold re_seq. rewrite in_flat_map. intros ([a1 r1] & H1 & H2).
  apply in_map_iff in H2 as ([a2 r2] & Heq & H2). simplify_eq.
  by exists a1, r1, a2.
Qed.

Lemma in_re_alt (m1 m2 : matcher) x s :
  In x (re_alt m1 m2 s) → In x (m1 s) ∨ In x (m2 s).
Proof. unfold re_alt. apply in_app_or. Qed.

Lemma code_inj c c' : code c = code c' → c = c'.
Proof.
  unfold code. intros H%Nat2Z.inj.
  rewrite <- (ascii_nat_embedding c), <- (ascii_nat_embedding c'). by rewrite H.
Qed.

Lemma in_class_lit c x : in_class c c x = true → x = c.
Proof.
  unfold in_class. intros [H1%Z.leb_le H2%Z.leb_le]%andb_prop.
  apply code_inj. lia.
Qed.

Lemma in_class_sub lo hi lo' hi' c :
  code lo' ≤ code lo → code hi ≤ code hi' →
  in_class lo hi c = true → in_class lo' hi' c = true.
Proof.
  unfold in_class. intros ? ? [H1%Z.leb_le H2%Z.leb_le]%andb_prop.
  apply andb_true_intro. split; apply Z.leb_le; lia.
Qed.

Lemma in_class_digit lo hi c :
  code "0" ≤ code lo → code hi ≤ code "9" →
  in_class lo hi c = true → Text.digit_val c = Some (code c - 48).
Proof.
  intros Hlo Hhi H. rewrite digit_val_class.
  by rewrite (in_class_sub _ _ _ _ _ Hlo Hhi H).
Qed.

Lemma digits_value_py_int s acc v :
  digits_value acc s = Some v →
  fold_left (λ a c, if in_class "0" "9" c then 10 * a + (code c - 48) else a) s acc = v.
Proof.
  revert acc. induction s as [|c s IH]; simpl; intros acc H; [by simplify_eq|].
  rewrite digit_val_class in H. destruct (in_class "0" "9" c); [|done]. by apply IH.
Qed.

Lemma numeral_py_int s v : numeral s v → py_int s = v.
Proof. intros [_ H]. by apply digits_value_py_int. Qed.

Ltac regex_inv :=
  repeat match goal with
         | H : In _ (re_alt _ _ _) |- _ => apply in_re_alt in H as [H|H]
         | H : In _ (re_seq _ _ _) |- _ =>
             let a1 := fresh "a" in let r1 := fresh "r" in let a2 := fresh "a" in
             let H1 := fresh "H" in let H2 := fresh "H" in
             apply in_re_seq in H as (a1 & r1 & a2 & H1 & H2 & ->)
         | H : In _ (re_lit _ _) |- _ => unfold re_lit in H
         | H : In _ (re_digit _) |- _ => unfold re_digit in H
         | H : In _ (re_class _ _ _) |- _ =>
             let c := fresh "c" in let E := fresh "E" in
             apply in_re_class in H as (c & -> & -> & E)
         end.

Lemma numeral_self s v : numeral s v → numeral s (py_int s).
Proof. intros H. by rewrite (numeral_py_int _ _ H). Qed.

Lemma numeral_1_self c :
  in_class "0" "9" c = true → numeral [c] (py_int [c]).
Proof.
  intros E. apply (numeral_self _ (code c - 48)), numeral_1.
  by rewrite digit_val_class, E.
Qed.

Lemma numeral_2_self c1 c2 :
  in_class "0" "9" c1 = true → in_class "0" "9" c2 = true →
  numeral [c1; c2] (py_int [c1; c2]).
Proof.
  intros E1 E2. eapply numeral_self, numeral_2.
  exists (code c1 - 48), (code c2 - 48). by rewrite !digit_val_class, E1, E2.
Qed.

Ltac digit_of E :=
  apply in_class_sub with (lo' := "0"%char) (hi' := "9"%char) in E;
  [|by vm_compute|by vm_compute].

Ltac classes :=
  repeat match goal with
         | E : in_class ?lo ?hi ?c = true |- _ =>
             lazymatch lo with
             | "0"%char => lazymatch hi with "9"%char => fail | _ => idtac end
             | _ => idtac
             end;
             first [ digit_of E | apply in_class_lit in E; subst c ]
         end.

Lemma re_d_sound d r s :
  In (d, r) (re_d s) → s = d ++ r ∧ day_field d (py_int d).
Proof.
  unfold re_d. intros H. regex_inv; (split; [done|]); cbn [app]; classes.
  - left. split; [by apply numeral_2_self | simpl; lia].
  - left. split; [by apply numeral_2_self | simpl; lia].
  - left. split; [by apply numeral_2_self | simpl; lia].
  - left. split; [by apply numeral_1_self | simpl; lia].
  - right. eexists. split; [done|].
    match goal with
    | |- numeral [?c] _ => replace (py_int [" "%char; c]) with (py_int [c]) by done
    end.
    by apply numeral_1_self.
Qed.

Lemma re_m_sound m r s :
  In (m, r) (re_m s) → s = m ++ r ∧ numeral m (py_int m) ∧ (length m ≤ 2)%nat.
Proof.
  unfold re_m. intros H. regex_inv; (split; [done|]); cbn [app]; classes.
  - split; [by apply numeral_2_self | simpl; lia].
  - split; [by apply numeral_2_self | simpl; lia].
  - split; [by apply numeral_1_self | simpl; lia].
Qed.

Lemma re_Y_sound y r s :
  In (y, r) (re_Y s) → s = y ++ r ∧ numeral y (py_int y) ∧ length y = 4%nat.
Proof.
  unfold re_Y. intros H. regex_inv; (split; [done|]); cbn [app].
  split; [|done].
  eapply numeral_self. split; [done|]. simpl.
  rewrite !digit_val_class, E, E0, E1, E2. done.
Qed.

Lemma re_sep_sound a r s : In (a, r) (re_lit "/" s) → s = "/"%char :: r.
Proof. intros H. regex_inv. by apply in_class_lit in E as ->. Qed.

Lemma datetime_new_Some y m d dt :
  datetime_new y m d = Some dt → dt = Datetime y m d ∧ calendar_date dt.
Proof.
  unfold datetime_new. case_match eqn:E; [|done]. intros [= <-].
  rewrite !andb_true_iff, !Z.leb_le in E. split; [done|].
  unfold calendar_date. simpl. lia.
Qed.

(** Whatever parses is in the day/month/year format and denotes the
    calendar date returned. *)
Lemma parse_date_sound s dt :
  parse_date_input s = Some dt →
  calendar_date dt ∧ dmy_text s (day dt) (month dt) (year dt).
Proof.
  unfold parse_date_input, strptime, re_match.
  destruct (head _) as [[fd fm fy rest]|] eqn:Hhead; [|done].
  simpl. destruct rest; [|done].
  intros [-> Hcal]%datetime_new_Some. split; [done|]. simpl.
  apply head_Some_elem_of, list_elem_of_In in Hhead.
  unfold format_regex in Hhead.
  apply in_flat_map in Hhead as ([d r1] & Hd & Hhead).
  apply in_flat_map in Hhead as ([s1 r2] & Hs1 & Hhead).
  apply in_flat_map in Hhead as ([m r3] & Hm & Hhead).
  apply in_flat_map in Hhead as ([s2 r4] & Hs2 & Hhead).
  apply in_map_iff in Hhead as ([y r5] & [= -> -> -> ->] & Hy).
  apply re_d_sound in Hd as [Hs Hd]. apply re_sep_sound in Hs1 as ->.
  apply re_m_sound in Hm as [-> Hm]. apply re_sep_sound in Hs2 as ->.
  apply re_Y_sound in Hy as [-> Hy]. rewrite app_nil_r in Hs.
  by exists fd, fm, fy.
Qed.

(** The fixed-width decimal text of a number *)

Lemma digit_val_digit_char n : Text.digit_val (digit_char n) = Some (n mod 10).
Proof.
  pose proof (Z.mod_pos_bound n 10 ltac:(lia)) as Hb.
  unfold Text.digit_val, code, digit_char.
  rewrite nat_ascii_embedding by lia. rewrite Z2Nat.id by lia.
  rewrite (proj2 (Z.leb_le _ _)) by lia. rewrite (proj2 (Z.leb_le _ _)) by lia.
  simpl. f_equal. lia.
Qed.

Lemma numeral_pad2 n : 0 ≤ n ≤ 99 → numeral (pad2 n) n.
Proof.
  intros Hn. apply numeral_2. exists ((n / 10) mod 10), (n mod 10).
  rewrite !digit_val_digit_char. repeat split. Z.div_mod_to_equations. lia.
Qed.

Lemma numeral_pad4 n : 0 ≤ n ≤ 9999 → numeral (pad4 n) n.
Proof.
  intros Hn. split; [done|]. unfold pad4. simpl.
  rewrite !digit_val_digit_char. f_equal. Z.div_mod_to_equations. lia.
Qed.

Lemma days_in_month_le y m : days_in_month y m ≤ 31.
Proof. unfold days_in_month. destruct (is_leap y); repeat case_match; lia. Qed.

Lemma dmy_text_canonical dt :
  calendar_date dt → dmy_text (format_dmy dt) (day dt) (month dt) (year dt).
Proof.
  intros (Hy & Hm & Hd). pose proof (days_in_month_le (year dt) (month dt)).
  exists (pad2 (day dt)), (pad2 (month dt)), (pad4 (year dt)).
  unfold format_dmy, dmy_with. rewrite list_ascii_of_string_of_list_ascii.
  split; [done|]. split; [|split].
  - left. split; [apply numeral_pad2; lia | done].
  - split; [apply numeral_pad2; lia | done].
  - split; [apply numeral_pad4; lia | done].
Qed.

(** Round trip *)
Lemma parse_date_roundtrip dt :
  calendar_date dt → parse_date_input (format_dmy dt) = Some dt.
Proof.
  intros H. destruct dt as [y m d].
  by apply (parse_date_complete _ d m y), H; apply (dmy_text_canonical _ H).
Qed.

(** Rejection of what is not in the format *)

Lemma digits_value_chars acc s v :
  digits_value acc s = Some v → Forall (λ c, Text.digit_val c ≠ None) s.
Proof.
  revert acc. induction s as [|c s IH]; simpl; intros acc H; [constructor|].
  destruct (Text.digit_val c) eqn:E; [|done].
  constructor; [by rewrite E | by eapply IH].
Qed.

Lemma numeral_chars s v : numeral s v → Forall field_char s.
Proof.
  intros [_ H%digits_value_chars]. eapply Forall_impl; [exact H|].
  intros c Hc. by left.
Qed.

Lemma day_field_chars fd d : day_field fd d → Forall field_char fd.
Proof.
  intros [[H _] | (c & -> & H)]; [by eapply numeral_chars|].
  constructor; [by right | by eapply numeral_chars].
Qed.

Lemma field_char_not_slash c : field_char c → c ≠ "/"%char.
Proof. intros [H | ->]; [intros ->; by apply H | done]. Qed.

Lemma Forall_no_slash s : Forall field_char s → ¬ In "/"%char s.
Proof.
  intros H Hin. rewrite Forall_forall in H.
  by apply (field_char_not_slash _ (H _ (proj2 (list_elem_of_In _ _) Hin))).
Qed.

(** Text is cut at its first slash in one way only. *)
Lemma split_unique (a a' b b' : list ascii) :
  a ++ "/"%char :: b = a' ++ "/"%char :: b' →
  ¬ In "/"%char a → ¬ In "/"%char a' → a = a' ∧ b = b'.
Proof.
  revert a'. induction a as [|x a IH]; intros [|x' a']; simpl; intros Heq Ha Ha'.
  - by simplify_eq.
  - simplify_eq. tauto.
  - simplify_eq. tauto.
  - injection Heq as -> Heq. destruct (IH a' Heq) as [-> ->]; [tauto..|done].
Qed.

Lemma digit_char_field n : field_char (digit_char n).
Proof. left. by rewrite digit_val_digit_char. Qed.

Lemma pad2_chars n : Forall field_char (pad2 n).
Proof. repeat (apply List.Forall_cons; [apply digit_char_field|]). constructor. Qed.

Lemma pad4_chars n : Forall field_char (pad4 n).
Proof. repeat (apply List.Forall_cons; [apply digit_char_field|]). constructor. Qed.

Lemma parse_date_None s :
  (∀ dt, parse_date_input s ≠ Some dt) → parse_date_input s = None.
Proof. destruct (parse_date_input s) as [dt|]; [intros H; by destruct (H dt) | done]. Qed.

(** A string outside the format is rejected. *)
Lemma parse_date_reject s :
  ¬ (∃ d m y, dmy_text s d m y ∧ calendar_date (Datetime y m d)) →
  parse_date_input s = None.
Proof.
  intros H. apply parse_date_None. intros [y m d] Hp. apply H.
  apply parse_date_sound in Hp as [? ?]. by exists d, m, y.
Qed.

(** Another separator *)
Lemma parse_date_wrong_separator dt sep :
  sep ≠ "/"%char → parse_date_input (dmy_with sep dt) = None.
Proof.
  intros Hsep. apply parse_date_None. intros dt' Hp.
  apply parse_date_sound in Hp as [_ (fd & fm & fy & Hs & _)].
  unfold dmy_with in Hs. rewrite list_ascii_of_string_of_list_ascii in Hs.
  assert (Hin : In "/"%char (pad2 (day dt) ++ sep :: pad2 (month dt) ++ sep :: pad4 (year dt))).
  { rewrite Hs. apply in_or_app. right. by left. }
  apply in_app_or in Hin as [Hin | [Hin | Hin]];
    [by apply (Forall_no_slash _ (pad2_chars _)) in Hin | done |].
  apply in_app_or in Hin as [Hin | [Hin | Hin]];
    [by apply (Forall_no_slash _ (pad2_chars _)) in Hin | done |].
  by apply (Forall_no_slash _ (pad4_chars _)) in Hin.
Qed.

(** A character that is neither a digit, nor the separator, nor a space *)
Lemma parse_date_foreign_char s c :
  In c (list_ascii_of_string s) →
  Text.digit_val c = None → c ≠ "/"%char → c ≠ " "%char →
  parse_date_input s = None.
Proof.
  intros Hin Hnd Hns Hnsp. apply parse_date_None. intros dt' Hp.
  apply parse_date_sound in Hp as [_ (fd & fm & fy & Hs & Hd & [Hm _] & [Hy _])].
  rewrite Hs in Hin.
  assert (Hfc : ¬ field_char c) by (intros [? | ?]; done).
  apply day_field_chars in Hd. apply numeral_chars in Hm, Hy.
  rewrite Forall_forall in Hd, Hm, Hy.
  apply in_app_or in Hin as [Hin | [Hin | Hin]];
    [by apply Hfc, Hd, list_elem_of_In | done |].
  apply in_app_or in Hin as [Hin | [Hin | Hin]];
    [by apply Hfc, Hm, list_elem_of_In | done |].
  by apply Hfc, Hy, list_elem_of_In.
Qed.

(** The fields in the order year/month/day *)
Lemma parse_date_wrong_order_ymd dt :
  parse_date_input (format_ymd dt) = None.
Proof.
  apply parse_date_None. intros dt' Hp.
  apply parse_date_sound in Hp as [_ (fd & fm & fy & Hs & Hd & _)].
  unfold format_ymd in Hs. rewrite list_ascii_of_string_of_list_ascii in Hs.
  assert (Hns : ∀ n, digit_char n ≠ "/"%char)
    by (intros n; apply field_char_not_slash, digit_char_field).
  destruct Hd as [[Hn Hlen] | (c & -> & _)].
  - destruct fd as [|c1 [|c2 [|c3 fd]]]; simpl in Hlen; try lia.
    + by destruct Hn.
    + injection Hs as _ Hs _. by apply Hns in Hs.
    + injection Hs as _ _ Hs _. by apply Hns in Hs.
  - injection Hs as _ _ Hs _. by apply Hns in Hs.
Qed.

Lemma list_ascii_of_string_app s t :
  list_ascii_of_string (s +:+ t) = list_ascii_of_string s ++ list_ascii_of_string t.
Proof. induction s as [|c s IH]; simpl; [done|]. by rewrite IH. Qed.

(** No partial parse: text after a date makes the whole string fail. *)
Lemma parse_date_trailing s extra dt :
  parse_date_input s = Some dt → extra ≠ EmptyString →
  parse_date_input (s +:+ extra) = None.
Proof.
  intros Hp Hextra. apply parse_date_None. intros dt' Hp'.
  apply parse_date_sound in Hp as [_ (fd & fm & fy & Hs & Hd & [Hm _] & [Hy Hyl])].
  apply parse_date_sound in Hp' as [_ (fd' & fm' & fy' & Hs' & Hd' & [Hm' _] & [Hy' Hyl'])].
  rewrite list_ascii_of_string_app, Hs in Hs'. rewrite <- !app_assoc in Hs'. simpl in Hs'.
  rewrite <- !app_assoc in Hs'. simpl in Hs'.
  apply split_unique in Hs' as [_ Hs'];
    [|by eapply Forall_no_slash, day_field_chars..].
  apply split_unique in Hs' as [_ Hs'];
    [|by eapply Forall_no_slash, numeral_chars..].
  apply (f_equal length) in Hs'. rewrite length_app in Hs'.
  destruct extra; [done|]. simpl in Hs'. lia.
Qed.

(** The fields in the order month/day/year, when the day cannot be a
    month *)
Lemma parse_date_wrong_order_mdy dt :
  calendar_date dt → 12 < day dt →
  parse_date_input (format_mdy dt) = None.
Proof.
  intros (Hy & Hm & Hd) Hd12. pose proof (days_in_month_le (year dt) (month dt)).
  apply parse_date_None. intros dt' Hp.
  apply parse_date_sound in Hp as [(_ & Hm' & _) (fd & fm & fy & Hs & Hfd & [Hfm _] & _)].
  unfold format_mdy in Hs. rewrite list_ascii_of_string_of_list_ascii in Hs.
  apply split_unique in Hs as [_ Hs];
    [|by eapply Forall_no_slash, pad2_chars | by eapply Forall_no_slash, day_field_chars].
  apply split_unique in Hs as [Hs _];
    [|by eapply Forall_no_slash, pad2_chars | by eapply Forall_no_slash, numeral_chars].
  subst fm. apply numeral_py_int in Hfm.
  rewrite (numeral_py_int _ _ (numeral_pad2 (day dt) ltac:(lia))) in Hfm. lia.
Qed.

End Date_parsing.



(** ** The file system *)

Section File_system.

Import FS.

Lemma assoc_set_eq n c es : assoc n (set_entry n c es) = Some c.
Proof.
  induction es as [|[m d] es IH]; simpl.
  - by rewrite String.eqb_refl.
  - destruct (String.eqb n m) eqn:E; simpl; by rewrite ?E.
Qed.

Lemma assoc_set_ne n m c es : n ≠ m → assoc m (set_entry n c es) = assoc m es.
Proof.
  intros Hne.
  assert (Hmn : String.eqb m n = false) by (apply String.eqb_neq; congruence).
  induction es as [|[k d] es IH]; simpl.
  - by rewrite Hmn.
  - destruct (String.eqb n k) eqn:E; simpl; [|by rewrite IH].
    apply String.eqb_eq in E as <-. by rewrite Hmn.
Qed.

Lemma assoc_del_eq n es : assoc n (del_entry n es) = None.
Proof.
  induction es as [|[k d] es IH]; simpl; [done|].
  destruct (String.eqb n k) eqn:E; simpl; [done|]. by rewrite E.
Qed.

Lemma assoc_del_ne n m es : n ≠ m → assoc m (del_entry n es) = assoc m es.
Proof.
  intros Hne.
  assert (Hmn : String.eqb m n = false) by (apply String.eqb_neq; congruence).
  induction es as [|[k d] es IH]; simpl; [done|].
  destruct (String.eqb n k) eqn:E; simpl.
  - apply String.eqb_eq in E as <-. by rewrite Hmn.
  - by rewrite IH.
Qed.

Lemma stat_nil t : stat t [] = Some (kind_of t).
Proof. done. Qed.

Lemma stat_file_cons c n q : stat (File c) (n :: q) = None.
Proof. done. Qed.

Lemma stat_dir_cons es n q :
  stat (Dir es) (n :: q) = match assoc n es with Some c => stat c q | None => None end.
Proof. unfold stat. simpl. by destruct (assoc n es). Qed.

Lemma lookup_app t p q :
  lookup t (p ++ q) = match lookup t p with Some c => lookup c q | None => None end.
Proof.
  revert t. induction p as [|n p IH]; intros t; simpl; [done|].
  destruct t as [c|es]; [done|]. destruct (assoc n es); [apply IH | done].
Qed.

Lemma stat_app t p q :
  stat t (p ++ q) = match lookup t p with Some c => stat c q | None => None end.
Proof. unfold stat. rewrite lookup_app. by destruct (lookup t p). Qed.

Lemma exists_stat t p : exists_ t p = bool_decide (is_Some (stat t p)).
Proof.
  unfold exists_, stat. by destruct (lookup t p).
Qed.

Lemma isdir_stat t p : isdir t p = true ↔ stat t p = Some KDir.
Proof. unfold isdir, stat. by destruct (lookup t p) as [[]|]. Qed.

Lemma isfile_stat t p : isfile t p = true ↔ ∃ c, stat t p = Some (KFile c).
Proof.
  unfold isfile, stat. destruct (lookup t p) as [[]|]; simpl; split; try done.
  - by eexists.
  - by intros [? ?].
  - by intros [? ?].
Qed.

(** Below a path that resolves, every proper prefix is a directory. *)
Lemma stat_prefix_dir t p q :
  is_Some (stat t (p ++ q)) → q ≠ [] → stat t p = Some KDir.
Proof.
  rewrite stat_app. unfold stat at 2. destruct (lookup t p) as [[c|es]|]; simpl.
  - destruct q; [done|]. by intros [? ?].
  - done.
  - by intros [? ?].
Qed.

Lemma stat_below_None t p q : stat t p = None → stat t (p ++ q) = None.
Proof. rewrite stat_app. unfold stat. by destruct (lookup t p). Qed.

Lemma stat_below_file t p q c : stat t p = Some (KFile c) → q ≠ [] → stat t (p ++ q) = None.
Proof.
  rewrite stat_app. unfold stat at 1. destruct (lookup t p) as [[]|]; try done.
  by destruct q.
Qed.

Lemma stat_fresh_dirs d q :
  stat (fresh_dirs d) q = if bool_decide (q `prefix_of` d) then Some KDir else None.
Proof.
  revert q. induction d as [|n d IH]; intros [|m q]; cbn [fresh_dirs].
  - by rewrite bool_decide_eq_true_2 by done.
  - rewrite bool_decide_eq_false_2; [done|]. by intros ?%prefix_nil_inv.
  - rewrite bool_decide_eq_true_2; [done|]. apply prefix_nil.
  - rewrite stat_dir_cons. cbn [assoc]. destruct (String.eqb_spec m n) as [->|Hne].
    + rewrite IH. apply (f_equal (λ b : bool, if b then _ else _)).
      apply bool_decide_ext. split; [apply prefix_cons|apply prefix_cons_inv_2].
    + rewrite bool_decide_eq_false_2; [done|]. by intros ?%prefix_cons_inv_1.
Qed.

(** [makedirs] turns the prefixes of the path into directories, none of
    which was a regular file, and touches nothing else. *)
Lemma makedirs_stat t d t' :
  makedirs t d = Ok t' →
  ∀ q, if bool_decide (q `prefix_of` d)
       then stat t' q = Some KDir ∧ (stat t q = None ∨ stat t q = Some KDir)
       else stat t' q = stat t q.
Proof.
  revert t t'. induction d as [|n d IH]; intros t t' H q.
  - simpl in H. destruct t as [c|es]; [done|]. simplify_eq.
    case_bool_decide as Hq; [|done].
    apply prefix_nil_inv in Hq as ->. auto.
  - simpl in H. destruct t as [c|es]; [done|].
    destruct q as [|m q].
    { rewrite bool_decide_eq_true_2 by apply prefix_nil.
      destruct (assoc n es); [destruct (makedirs n0 d)|]; simplify_eq; auto. }
    rewrite (stat_dir_cons es).
    destruct (assoc n es) as [c|] eqn:Hn.
    + destruct (makedirs c d) as [c'|e] eqn:Hc; [|done]. simplify_eq.
      rewrite stat_dir_cons. destruct (decide (n = m)) as [->|Hne].
      * rewrite assoc_set_eq, Hn. specialize (IH _ _ Hc q).
        rewrite (bool_decide_ext (m :: q `prefix_of` m :: d) (q `prefix_of` d));
          [done|]. split; [apply prefix_cons_inv_2 | apply prefix_cons].
      * rewrite assoc_set_ne by done.
        rewrite bool_decide_eq_false_2; [done|]. by intros ?%prefix_cons_inv_1.
    + simplify_eq. rewrite stat_dir_cons. destruct (decide (n = m)) as [->|Hne].
      * rewrite assoc_set_eq, Hn, stat_fresh_dirs.
        rewrite (bool_decide_ext (m :: q `prefix_of` m :: d) (q `prefix_of` d));
          [|split; [apply prefix_cons_inv_2 | apply prefix_cons]].
        case_bool_decide; auto.
      * rewrite assoc_set_ne by done.
        rewrite bool_decide_eq_false_2; [done|]. by intros ?%prefix_cons_inv_1.
Qed.

(** [makedirs] succeeds unless a regular file is in the way. *)
Lemma makedirs_ok t d :
  (∀ q c, q `prefix_of` d → stat t q ≠ Some (KFile c)) →
  ∃ t', makedirs t d = Ok t'.
Proof.
  revert t. induction d as [|n d IH]; intros t H.
  - destruct t as [c|es]; simpl; [|by eexists].
    by destruct (H [] c).
  - destruct t as [c|es]; simpl.
    { destruct (H [] c); [apply prefix_nil | done]. }
    destruct (assoc n es) as [c|] eqn:Hn; [|by eexists].
    destruct (IH c) as [c' ->]; [|by eexists].
    intros q c0 Hq. specialize (H (n :: q) c0 (prefix_cons _ _ _ Hq)).
    by rewrite stat_dir_cons, Hn in H.
Qed.

(** [write_file] makes the path a regular file with the content written
    and touches nothing else. *)
Lemma write_file_stat t d c t' :
  write_file t d c = Ok t' →
  ∀ q, stat t' q = if bool_decide (q = d) then Some (KFile c) else stat t q.
Proof.
  revert t t'. induction d as [|n d IH]; intros t t' H q.
  - simpl in H. destruct t as [c0|es]; [|done]. simplify_eq.
    case_bool_decide as Hq; [by subst|]. by destruct q.
  - simpl in H. destruct t as [c0|es]; [done|].
    destruct q as [|m q].
    { rewrite bool_decide_eq_false_2 by done.
      destruct (assoc n es); [destruct (write_file n0 d c)|destruct d];
        by simplify_eq. }
    rewrite (stat_dir_cons es).
    destruct (assoc n es) as [x|] eqn:Hn.
    + destruct (write_file x d c) as [x'|e] eqn:Hx; [|done]. simplify_eq.
      rewrite stat_dir_cons. destruct (decide (n = m)) as [->|Hne].
      * rewrite assoc_set_eq, Hn, (IH _ _ Hx q).
        apply (f_equal (λ b : bool, if b then _ else _)).
        apply bool_decide_ext. split; [by intros -> | by intros [= ->]].
      * rewrite assoc_set_ne by done.
        rewrite bool_decide_eq_false_2; [done|]. by intros [= -> _].
    + destruct d; [|done]. simplify_eq.
      rewrite stat_dir_cons. destruct (decide (n = m)) as [->|Hne].
      * rewrite assoc_set_eq, Hn. destruct q; [by rewrite bool_decide_eq_true_2|].
        by rewrite bool_decide_eq_false_2.
      * rewrite assoc_set_ne by done.
        rewrite bool_decide_eq_false_2; [done|]. by intros [= -> _].
Qed.

(** [write_file] succeeds when the parent is a directory and the path
    itself is not one. *)
Lemma write_file_ok t d c :
  d ≠ [] → stat t (dirname d) = Some KDir → stat t d ≠ Some KDir →
  ∃ t', write_file t d c = Ok t'.
Proof.
  revert t. induction d as [|n d IH]; intros t Hne Hpar Htgt; [done|].
  destruct t as [c0|es].
  { destruct d; [done|]. cbn [dirname removelast] in Hpar.
    by rewrite stat_file_cons in Hpar. }
  simpl. destruct d as [|n' d].
  - rewrite stat_dir_cons in Htgt.
    destruct (assoc n es) as [[c1|es1]|]; [by eexists|done|by eexists].
  - assert (Hdn : dirname (n :: n' :: d) = n :: dirname (n' :: d)) by done.
    rewrite Hdn, stat_dir_cons in Hpar. rewrite stat_dir_cons in Htgt.
    destruct (assoc n es) as [x|]; [|done].
    destruct (IH x) as [x' Hx]; [done..|]. rewrite Hx. by eexists.
Qed.

(** [rmtree] removes the path and everything below it, nothing else. *)
Lemma rmtree_stat t d t' :
  rmtree t d = Ok t' →
  ∀ q, stat t' q = if bool_decide (d `prefix_of` q) then None else stat t q.
Proof.
  revert t t'. induction d as [|n d IH]; intros t t' H q; [done|].
  simpl in H. destruct t as [c0|es]; [done|].
  destruct (assoc n es) as [x|] eqn:Hn; [|done].
  destruct q as [|m q].
  { rewrite bool_decide_eq_false_2 by (by intros ?%prefix_nil_inv).
    destruct d; [destruct x|destruct (rmtree x (s :: d))]; by simplify_eq. }
  rewrite (stat_dir_cons es).
  destruct d as [|n' d].
  - destruct x as [c1|es1]; [done|]. simplify_eq. rewrite stat_dir_cons.
    destruct (decide (n = m)) as [->|Hne].
    + rewrite assoc_del_eq. rewrite bool_decide_eq_true_2; [done|].
      apply prefix_cons, prefix_nil.
    + rewrite assoc_del_ne by done.
      rewrite bool_decide_eq_false_2; [done|]. by intros ?%prefix_cons_inv_1.
  - destruct (rmtree x (n' :: d)) as [x'|e] eqn:Hx; [|done]. simplify_eq.
    rewrite stat_dir_cons. destruct (decide (n = m)) as [->|Hne].
    + rewrite assoc_set_eq, Hn, (IH _ _ Hx q).
      apply (f_equal (λ b : bool, if b then _ else _)).
      apply bool_decide_ext. split; [apply prefix_cons|apply prefix_cons_inv_2].
    + rewrite assoc_set_ne by done.
      rewrite bool_decide_eq_false_2; [done|]. by intros ?%prefix_cons_inv_1.
Qed.

End File_system.

(** ** The archiver *)

Section Archiver.

Import FS.

Lemma node_ind' (P : node → Prop) :
  (∀ c, P (File c)) →
  (∀ es, Forall (λ e, P e.2) es → P (Dir es)) →
  ∀ t, P t.
Proof.
  intros Hf Hd. fix IH 1. intros [c|es]; [apply Hf|].
  apply Hd. induction es as [|[n c] es IHes]; constructor; [apply IH | apply IHes].
Qed.

Lemma wf_dir es :
  wf (Dir es) = true ↔ NoDup es.*1 ∧ Forall (λ e, wf e.2 = true) es.
Proof.
  simpl. rewrite andb_true_iff, bool_decide_eq_true, forallb_forall, Forall_forall.
  split; intros [H1 H2]; (split; [done|]); intros [n c] Hin.
  - by apply (H2 (n, c)), list_elem_of_In.
  - by apply (H2 (n, c)), list_elem_of_In.
Qed.

Lemma assoc_In n c es : assoc n es = Some c → In (n, c) es.
Proof.
  induction es as [|[m d] es IH]; simpl; [done|].
  destruct (String.eqb_spec n m) as [->|]; [intros [= ->]; by left | right; auto].
Qed.

Lemma In_assoc n c es : NoDup es.*1 → In (n, c) es → assoc n es = Some c.
Proof.
  induction es as [|[m d] es IH]; simpl; [done|].
  intros [Hm Hnd]%NoDup_cons [[= -> ->]|Hin].
  - by rewrite String.eqb_refl.
  - destruct (String.eqb_spec n m) as [->|]; [|by apply IH].
    destruct Hm. apply list_elem_of_fmap. exists (m, c). split; [done|].
    by apply list_elem_of_In.
Qed.

Lemma common_prefix_len_app sf q : common_prefix_len sf (sf ++ q) = length sf.
Proof. induction sf as [|n sf IH]; simpl; [by destruct q|]. by rewrite String.eqb_refl, IH. Qed.

Lemma relpath_below sf q : q ≠ [] → relpath (sf ++ q) sf = q.
Proof.
  intros Hq. unfold relpath. rewrite common_prefix_len_app, Nat.sub_diag. simpl.
  rewrite drop_app_length. by destruct q.
Qed.

Lemma wf_lookup t p c : wf t = true → lookup t p = Some c → wf c = true.
Proof.
  revert t. induction p as [|n p IH]; intros t Hwf; simpl; [by intros [= <-]|].
  destruct t as [d|es]; [done|].
  destruct (assoc n es) as [x|] eqn:Hn; [|done].
  apply IH. apply wf_dir in Hwf as [_ Hall]. rewrite Forall_forall in Hall.
  by apply (Hall (n, x)), list_elem_of_In, assoc_In.
Qed.

(** The files below a directory are the paths that resolve to a regular
    file. *)
Lemma files_below_lookup t :
  wf t = true →
  ∀ p c, In (p, c) (files_below t) ↔ p ≠ [] ∧ lookup t p = Some (File c).
Proof.
  induction t as [d|es IH] using node_ind'; intros Hwf p c.
  { simpl. split; [done|]. intros [Hp H]. destruct p; [done|]. done. }
  apply wf_dir in Hwf as [Hnd Hwf].
  rewrite Forall_forall in IH, Hwf.
  cbn [files_below]. rewrite in_app_iff, !in_flat_map. split.
  - intros [([n x] & Hin & H) | ([n x] & Hin & H)].
    + destruct x as [d|]; [|done]. destruct H as [[= <- <-]|[]].
      split; [done|]. simpl. by rewrite (In_assoc _ _ _ Hnd Hin).
    + destruct x as [|es1]; [done|].
      apply in_map_iff in H as ([p' d] & [= <- <-] & H).
      apply list_elem_of_In in Hin as Hin'.
      apply (IH _ Hin' (Hwf _ Hin')) in H as [Hp' H].
      split; [done|]. simpl. by rewrite (In_assoc _ _ _ Hnd Hin).
  - intros [Hp H]. destruct p as [|n p]; [done|]. simpl in H.
    destruct (assoc n es) as [x|] eqn:Hn; [|done]. apply assoc_In in Hn.
    destruct p as [|m p].
    + left. exists (n, x). split; [done|]. simpl in H. simplify_eq. by left.
    + right. exists (n, x). split; [done|].
      destruct x as [|es1]; [done|].
      apply in_map_iff. exists (m :: p, c). split; [done|].
      apply list_elem_of_In in Hn as Hin'.
      by apply (IH _ Hin' (Hwf _ Hin')).
Qed.

Lemma fst_map_cons (n : string) (l : list (path * content)) :
  (map (λ '(p, d), (n :: p, d)) l).*1 = (n ::.) <$> l.*1.
Proof. induction l as [|[p d] l IH]; [done|]. cbn. f_equal. apply IH. Qed.

Lemma NoDup_flat_map_heads (f : string * node → list (path * content)) es :
  NoDup es.*1 →
  (∀ e, In e es → NoDup (f e).*1) →
  (∀ e p, In e es → In p (f e).*1 → head p = Some e.1) →
  NoDup (flat_map f es).*1.
Proof.
  induction es as [|e es IH]; simpl; intros Hnd Hf Hh; [constructor|].
  apply NoDup_cons in Hnd as [He Hnd]. rewrite fmap_app.
  apply NoDup_app. split; [by apply Hf; left|]. split.
  - intros p Hp Hp'. apply list_elem_of_In in Hp, Hp'.
    apply (Hh e) in Hp; [|by left].
    change (In p (map fst (flat_map f es))) in Hp'.
    apply in_map_iff in Hp' as ([p' c] & <- & Hp').
    apply in_flat_map in Hp' as (e' & He' & Hp').
    assert (Hhead : head p' = Some e'.1).
    { apply Hh; [by right|]. change (In p' (map fst (f e'))).
      apply in_map_iff. by exists (p', c). }
    simpl in Hp. rewrite Hhead in Hp. injection Hp as Heq.
    apply He. rewrite <- Heq. apply list_elem_of_fmap. exists e'.
    split; [done|]. by apply list_elem_of_In.
  - apply IH; [done|..]; intros; [apply Hf | apply Hh]; auto.
Qed.

(** No two of them have the same path. *)
Lemma files_below_NoDup t : wf t = true → NoDup (files_below t).*1.
Proof.
  induction t as [d|es IH] using node_ind'; intros Hwf; [constructor|].
  apply wf_dir in Hwf as [Hnd Hwf]. rewrite Forall_forall in IH, Hwf.
  cbn [files_below]. rewrite fmap_app. apply NoDup_app. split; [|split].
  - apply NoDup_flat_map_heads; [done|..].
    + intros [n [d|]] _; simpl; [apply NoDup_singleton | constructor].
    + intros [n [d|]] p _; simpl; [|done]. by intros [<-|[]].
  - intros p Hp Hp'. apply list_elem_of_In in Hp, Hp'.
    change (In p (map fst ?l)) with (In p (map fst l)) in Hp, Hp'.
    apply in_map_iff in Hp as ([p1 c1] & <- & Hp).
    apply in_map_iff in Hp' as ([p2 c2] & Heq & Hp'). simpl in Heq. subst p2.
    apply in_flat_map in Hp as ([n x] & _ & Hp).
    apply in_flat_map in Hp' as ([n' x'] & Hin & Hp').
    destruct x as [d|]; [|done]. destruct Hp as [[= <- <-]|[]].
    destruct x' as [|es1]; [done|].
    apply in_map_iff in Hp' as ([p' d'] & [= <- Hp'' <-] & Hp').
    symmetry in Hp''. subst p'.
    apply list_elem_of_In in Hin.
    by apply (files_below_lookup _ (Hwf _ Hin)) in Hp' as [? _].
  - apply NoDup_flat_map_heads; [done|..].
    + intros [n [|es1]] Hin; simpl; [constructor|]. apply list_elem_of_In in Hin.
      specialize (IH _ Hin (Hwf _ Hin)).
      rewrite fst_map_cons. apply NoDup_fmap_2; [|done]. by intros ?? [= ->].
    + intros [n [|es1]] p _; simpl; [done|].
      intros Hp. change (In p (map fst ?l)) with (In p (map fst l)) in Hp.
      apply in_map_iff in Hp as ([p1 c1] & <- & Hp).
      by apply in_map_iff in Hp as ([p' d'] & [= <- <-] & Hp).
Qed.

Lemma walk_members_here full sf q0 es es' :
  NoDup es.*1 → lookup full (sf ++ q0) = Some (Dir es) →
  (∀ e, In e es' → In e es) →
  map (zip_member full sf (sf ++ q0))
      (flat_map (λ '(n, c), match c with Dir _ => [] | File _ => [n] end) es')
  = map (λ '(p, d), Ok (q0 ++ p, d))
        (flat_map (λ '(n, c), match c with File d => [([n], d)] | Dir _ => [] end) es').
Proof.
  intros Hnd Hq0. induction es' as [|[n x] es' IHes]; intros Hsub; [done|].
  cbn [flat_map]. rewrite !map_app, IHes by (intros; apply Hsub; by right).
  f_equal. destruct x as [d|]; [|done]. cbn [map]. f_equal.
  unfold zip_member. rewrite <- app_assoc, relpath_below by (by destruct q0).
  rewrite app_assoc, lookup_app, Hq0. simpl.
  by rewrite (In_assoc n (File d) es Hnd (Hsub _ (or_introl eq_refl))).
Qed.

(** The loops over the walk write the files below the directory, each
    under its relative path. *)
Lemma walk_members full sf t :
  wf t = true →
  ∀ q0, lookup full (sf ++ q0) = Some t →
  flat_map (λ '(root, dirs, files), map (zip_member full sf root) files)
           (walk (sf ++ q0) t)
  = map (λ '(p, d), Ok (q0 ++ p, d)) (files_below t).
Proof.
  induction t as [d|es IH] using node_ind'; intros Hwf q0 Hq0; [done|].
  apply wf_dir in Hwf as [Hnd Hwf]. rewrite Forall_forall in IH, Hwf.
  cbn [walk files_below flat_map]. rewrite map_app. f_equal.
  { by apply (walk_members_here full sf q0 es es). }
  assert (Hsub : ∀ es', (∀ e, In e es' → In e es) →
    flat_map (λ '(root, dirs, files), map (zip_member full sf root) files)
      (flat_map (λ '(n, c), match c with
                            | Dir _ => walk ((sf ++ q0) ++ [n]) c
                            | File _ => []
                            end) es')
    = map (λ '(p, d), Ok (q0 ++ p, d))
        (flat_map (λ '(n, c), match c with
                              | Dir _ => map (λ '(p, d), (n :: p, d)) (files_below c)
                              | File _ => []
                              end) es')).
  { induction es' as [|[n x] es' IHes]; intros Hsub; [done|].
    cbn [flat_map]. rewrite flat_map_app, map_app, IHes by (intros; apply Hsub; by right).
    f_equal. destruct x as [|es1]; [done|].
    assert (Hin : (n, Dir es1) ∈ es) by (apply list_elem_of_In, Hsub; by left).
    rewrite <- app_assoc, (IH _ Hin (Hwf _ Hin)).
    + rewrite map_map. apply map_ext. intros [p d]. by rewrite <- app_assoc.
    + rewrite app_assoc, lookup_app, Hq0. simpl.
      by rewrite (In_assoc n (Dir es1) es Hnd (Hsub _ (or_introl eq_refl))). }
  by apply Hsub.
Qed.

Lemma written_Ok {A B} (g : A → B) l :
  written (map (λ x, Ok (g x)) l) = (map g l, None).
Proof. induction l as [|x l IH]; simpl; [done|]. by rewrite IH. Qed.

Lemma zip_members_files t sf top :
  lookup t sf = Some top → wf top = true →
  written (zip_members t sf) = (files_below top, None).
Proof.
  intros Hsf Hwf. unfold zip_members. rewrite Hsf.
  pose proof (walk_members t sf top Hwf []) as H. rewrite app_nil_r in H.
  rewrite H by done.
  rewrite (map_ext _ (λ x, Ok (id x))) by (by intros []).
  by rewrite written_Ok, map_id.
Qed.

(** Writing a file keeps names unique. *)

Lemma set_entry_names k n c es :
  k ∈ (set_entry n c es).*1 → k = n ∨ k ∈ es.*1.
Proof.
  induction es as [|[m d] es IH]; simpl.
  - intros ->%list_elem_of_singleton. by left.
  - destruct (String.eqb n m); simpl; [by right|].
    rewrite !elem_of_cons. intros [->|H]; [by right; left|].
    destruct (IH H); auto.
Qed.

Lemma wf_set_entry n c es :
  wf (Dir es) = true → wf c = true → wf (Dir (set_entry n c es)) = true.
Proof.
  rewrite !wf_dir. intros [Hnd Hall] Hc. induction es as [|[m d] es IH]; simpl.
  - split; [apply NoDup_singleton | by repeat constructor].
  - apply NoDup_cons in Hnd as [Hm Hnd]. apply Forall_cons in Hall as [Hd Hall].
    destruct (String.eqb_spec n m) as [->|Hne]; simpl.
    + split; [by apply NoDup_cons | by constructor].
    + destruct (IH Hnd Hall) as [Hnd' Hall']. split; [|by constructor].
      apply NoDup_cons. split; [|done].
      intros [->|H]%set_entry_names; done.
Qed.

Lemma wf_write_file t d c t1 :
  wf t = true → write_file t d c = Ok t1 → wf t1 = true.
Proof.
  revert t t1. induction d as [|n d IH]; intros t t1 Hwf H; simpl in H.
  - destruct t; by simplify_eq.
  - destruct t as [c0|es]; [done|].
    destruct (assoc n es) as [x|] eqn:Hn.
    + destruct (write_file x d c) as [x'|] eqn:Hx; [|done]. simplify_eq.
      apply wf_set_entry; [done|]. apply (IH x); [|done].
      by apply (wf_lookup (Dir es) [n]); [|simpl; rewrite Hn].
    + destruct d; [|done]. simplify_eq. by apply wf_set_entry.
Qed.

Lemma write_file_again t d c c' t1 :
  write_file t d c = Ok t1 → ∃ t2, write_file t1 d c' = Ok t2.
Proof.
  revert t t1. induction d as [|n d IH]; intros t t1 H; simpl in H.
  - destruct t; simplify_eq. by eexists.
  - destruct t as [c0|es]; [done|].
    destruct (assoc n es) as [x|] eqn:Hn.
    + destruct (write_file x d c) as [x'|] eqn:Hx; [|done]. simplify_eq.
      simpl. rewrite assoc_set_eq. destruct (IH _ _ Hx) as [x2 ->]. by eexists.
    + destruct d; [|done]. simplify_eq. simpl. rewrite assoc_set_eq. by eexists.
Qed.

Lemma stat_file_lookup t p c : stat t p = Some (KFile c) ↔ lookup t p = Some (File c).
Proof.
  unfold stat. destruct (lookup t p) as [[]|]; simpl; split; intros; by simplify_eq.
Qed.

End Archiver.



(** ** The staging copier *)

Section Staging_copier.

Variable unreadable : path → bool.
Variables rp sf : path.

(** One pass of the loop, case by case *)
Lemma stage_file_unfold staged p w :
  stage_file unreadable rp sf staged p w =
  if FS.exists_ (w_fs w) (rp ++ p) then
    match FS.ensure_dir (w_fs w) (FS.dirname (sf ++ p)) with
    | Raise e => (Raise e, w)
    | Ok t1 =>
        match FS.copy2 unreadable t1 (rp ++ p) (sf ++ p) with
        | Ok t2 => (Ok (staged ∪ {[p]}), World t2 (w_out w))
        | Raise e => (Ok staged, World t1 (w_out w ++ [Printed (ErrorCopying p e)]))
        end
    end
  else (Ok staged, World (w_fs w) (w_out w ++ [Printed (WarnMissing p)])).
Proof.
  unfold stage_file, bind, fs_query, fs_update, try_except, print, emit, ret. simpl.
  destruct (FS.exists_ (w_fs w) (rp ++ p)); [|done].
  destruct (FS.ensure_dir (w_fs w) (FS.dirname (sf ++ p))) as [t1|e]; [|done]. simpl.
  by destruct (FS.copy2 unreadable t1 (rp ++ p) (sf ++ p)).
Qed.

(** A file absent from the working tree: a warning, the set unchanged,
    and the loop goes on. *)
Lemma copy_loop_absent staged p rest w :
  FS.exists_ (w_fs w) (rp ++ p) = false →
  copy_loop unreadable rp sf staged (p :: rest) w
  = copy_loop unreadable rp sf staged rest
      (World (w_fs w) (w_out w ++ [Printed (WarnMissing p)])).
Proof.
  intros H. simpl. unfold bind at 1. by rewrite stage_file_unfold, H.
Qed.

(** A copy that raises: the error is printed, the set unchanged, and the
    loop goes on. *)
Lemma copy_loop_copy_error staged p rest w t1 e :
  FS.exists_ (w_fs w) (rp ++ p) = true →
  FS.ensure_dir (w_fs w) (FS.dirname (sf ++ p)) = Ok t1 →
  FS.copy2 unreadable t1 (rp ++ p) (sf ++ p) = Raise e →
  copy_loop unreadable rp sf staged (p :: rest) w
  = copy_loop unreadable rp sf staged rest
      (World t1 (w_out w ++ [Printed (ErrorCopying p e)])).
Proof.
  intros H1 H2 H3. simpl. unfold bind at 1.
  by rewrite stage_file_unfold, H1, H2, H3.
Qed.

(** The batch is cut short only by a failure to create a destination
    directory. *)
Lemma stage_file_raise staged p w e w' :
  stage_file unreadable rp sf staged p w = (Raise e, w') →
  w' = w ∧ FS.exists_ (w_fs w) (rp ++ p) = true
  ∧ FS.exists_ (w_fs w) (FS.dirname (sf ++ p)) = false
  ∧ FS.makedirs (w_fs w) (FS.dirname (sf ++ p)) = Raise e.
Proof.
  rewrite stage_file_unfold. destruct (FS.exists_ (w_fs w) (rp ++ p)); [|done].
  unfold FS.ensure_dir.
  destruct (FS.exists_ (w_fs w) (FS.dirname (sf ++ p))); simpl.
  - by destruct (FS.copy2 _ _ _ _).
  - destruct (FS.makedirs _ _) as [t1|e1]; [by destruct (FS.copy2 _ _ _ _)|].
    by intros [= -> <-].
Qed.

(** A path is in the returned set when it was in the set at the start or
    one of its occurrences in the list was copied. *)
Lemma copy_loop_staged cf acc w staged w' :
  copy_loop unreadable rp sf acc cf w = (Ok staged, w') →
  ∀ p, p ∈ staged ↔ p ∈ acc ∨ copied unreadable rp sf w acc cf p.
Proof.
  revert acc w. induction cf as [|x rest IH]; intros acc w H p.
  - simpl in H. injection H as <- <-. split; [by left|].
    intros [?|(l1 & ? & ? & ? & ? & ? & ? & _)]; [done|]. by destruct l1.
  - simpl in H. unfold bind in H.
    destruct (stage_file unreadable rp sf acc x w) as [[acc'|e] w1] eqn:Hx; [|done].
    assert (Hstep : ∀ l, copy_loop unreadable rp sf acc (x :: l) w
                         = copy_loop unreadable rp sf acc' l w1).
    { intros l. simpl. unfold bind. by rewrite Hx. }
    rewrite (IH _ _ H p). rewrite stage_file_unfold in Hx.
    split.
    + intros [Hacc' | (l1 & l2 & s1 & w2 & t1 & t2 & -> & Hl1 & Hrest)].
      * destruct (FS.exists_ (w_fs w) (rp ++ x)) eqn:Hex; [|left; by simplify_eq].
        destruct (FS.ensure_dir _ _) as [t1|] eqn:Hdir; [|done].
        destruct (FS.copy2 _ _ _ _) as [t2|] eqn:Hcp; [|left; by simplify_eq].
        simplify_eq. apply elem_of_union in Hacc' as [?|Hp%elem_of_singleton];
          [by left|]. subst p.
        right. by exists [], rest, acc, w, t1, t2.
      * right. exists (x :: l1), l2, s1, w2, t1, t2. by rewrite Hstep.
    + intros [Hacc | (l1 & l2 & s1 & w2 & t1 & t2 & Heq & Hl1 & Hex & Hdir & Hcp)].
      * left. destruct (FS.exists_ (w_fs w) (rp ++ x)); [|by simplify_eq].
        destruct (FS.ensure_dir _ _); [|done].
        destruct (FS.copy2 _ _ _ _); simplify_eq; set_solver.
      * destruct l1 as [|y l1]; simpl in Heq; simplify_eq.
        -- left. cbv [copy_loop ret] in Hl1. injection Hl1 as <- <-.
           rewrite Hex, Hdir, Hcp in Hx. simplify_eq. set_solver.
        -- right. exists l1, l2, s1, w2, t1, t2. by rewrite <- Hstep.
Qed.

(** The batch is cut short only when a destination directory cannot be
    made. *)
Lemma copy_loop_raise cf acc w e w' :
  copy_loop unreadable rp sf acc cf w = (Raise e, w') →
  ∃ l1 p l2 s1,
    cf = l1 ++ p :: l2
    ∧ copy_loop unreadable rp sf acc l1 w = (Ok s1, w')
    ∧ FS.exists_ (w_fs w') (rp ++ p) = true
    ∧ FS.exists_ (w_fs w') (FS.dirname (sf ++ p)) = false
    ∧ FS.makedirs (w_fs w') (FS.dirname (sf ++ p)) = Raise e.
Proof.
  revert acc w. induction cf as [|x rest IH]; intros acc w H; [done|].
  simpl in H. unfold bind in H.
  destruct (stage_file unreadable rp sf acc x w) as [[acc'|e1] w1] eqn:Hx.
  - destruct (IH _ _ H) as (l1 & p & l2 & s1 & -> & Hl1 & Hrest).
    exists (x :: l1), p, l2, s1. split; [done|]. split; [|done].
    simpl. unfold bind. by rewrite Hx.
  - injection H as -> ->. apply stage_file_raise in Hx as (-> & Hrest).
    by exists [], x, rest, acc.
Qed.

End Staging_copier.

(** C10: the set returned by [copy_files_to_staging] holds input paths
    only, and holds a path exactly when one of its occurrences in the
    input was copied: its source existed when the loop reached it and
    [shutil.copy2] succeeded. *)
Theorem C10_staged_set_is_copied_input unreadable cf rp sf w staged w' :
  copy_files_to_staging unreadable cf rp sf w = (Ok staged, w') →
  (∀ p, p ∈ staged → p ∈ cf)
  ∧ (∀ p, p ∈ staged ↔ copied unreadable rp sf w ∅ cf p).
Proof.
  intros H.
  assert (Hchar : ∀ p, p ∈ staged ↔ copied unreadable rp sf w ∅ cf p).
  { intros p. rewrite (copy_loop_staged _ _ _ _ _ _ _ _ H p). set_solver. }
  split; [|done]. intros p (l1 & l2 & _ & _ & _ & _ & -> & _)%Hchar.
  apply elem_of_app. right. by left.
Qed.

Lemma C10_witness :
  let tree := Dir [("x"%string, File (Bytes "X")); ("d"%string, Dir []);
                   ("staging_folder"%string, Dir [])] in
  let cf := [["x"%string]; ["gone"%string]; ["d"%string]] in
  ∃ staged w',
    copy_files_to_staging (λ _, false) cf [] ["staging_folder"%string] (World tree [])
    = (Ok staged, w')
    ∧ (∀ p, p ∈ staged → p ∈ cf)
    ∧ (∀ p, p ∈ staged ↔
            copied (λ _, false) [] ["staging_folder"%string] (World tree []) ∅ cf p).
Proof.
  intros tree cf. eexists _, _. split; [vm_compute; reflexivity|].
  eapply (C10_staged_set_is_copied_input (λ _, false) cf [] ["staging_folder"%string]
            (World tree [])).
  vm_compute. reflexivity.
Defined.

(** C6 does not hold of the code: the directory of the destination is
    made outside the [try] block, so a file whose destination directory
    cannot be made ends the batch with the exception; the files after it
    are not processed. Here the staging folder holds a regular file [a]
    where the working tree has a directory. *)
Lemma C6_directory_failure_aborts_batch :
  copy_files_to_staging (λ _, false)
    [["a"; "b"; "c.txt"]; ["x.txt"]]%string [] ["stage"%string]
    (World blocked_tree [])
  = (Raise NotADirectoryError, World blocked_tree []).
Proof. reflexivity. Qed.

(** ** The manifest *)

Section Manifest.

Import FS.

Variable unreadable : path → bool.
Variable sf : path.
Hypothesis sf_nonempty : sf ≠ [].

Lemma isfile_stat_eq t t' p : stat t' p = stat t p → isfile t' p = isfile t p.
Proof.
  unfold isfile, stat. by destruct (lookup t p) as [[]|], (lookup t' p) as [[]|].
Qed.

Lemma isdir_not_file t p : isdir t p = true → isfile t p = true → False.
Proof. unfold isdir, isfile. by destruct (lookup t p) as [[]|]. Qed.

Lemma dirname_app (a b : path) : b ≠ [] → dirname (a ++ b) = a ++ dirname b.
Proof. intros H. unfold dirname. by apply removelast_app. Qed.

Lemma dirname_length (a : path) : a ≠ [] → length (dirname a) < length a.
Proof.
  intros H. destruct (exists_last H) as (l & x & ->). unfold dirname.
  rewrite removelast_last, length_app. simpl. lia.
Qed.

Lemma dirname_proper (p : path) : p ≠ [] → ∃ x, p = dirname p ++ [x].
Proof.
  intros H. destruct (exists_last H) as (l & x & ->). exists x.
  unfold dirname. by rewrite removelast_last.
Qed.

(** Making the destination directory keeps both facts. *)
Lemma ensure_dir_inv t p t1 :
  exists_ t p = true →
  ensure_dir t (dirname (sf ++ p)) = Ok t1 →
  mirrors_dirs sf t →
  mirrors_dirs sf t1 ∧ (∀ q, isfile t1 q = isfile t q).
Proof.
  intros Hex Hdir Hmir. unfold ensure_dir in Hdir.
  destruct (exists_ t (dirname (sf ++ p))); [by simplify_eq|].
  pose proof (makedirs_stat _ _ _ Hdir) as Hstat.
  assert (Hfile : ∀ q, isfile t1 q = isfile t q).
  { intros q. specialize (Hstat q). case_bool_decide; [|by apply isfile_stat_eq].
    destruct Hstat as [H1 H2]. unfold isfile, stat in *.
    destruct (lookup t1 q) as [[]|], (lookup t q) as [[]|]; naive_solver. }
  assert (Hmono : ∀ q, isdir t q = true → isdir t1 q = true).
  { intros q Hq. apply isdir_stat. apply isdir_stat in Hq.
    specialize (Hstat q). case_bool_decide; [by destruct Hstat | congruence]. }
  split; [|done]. intros q Hq.
  pose proof (Hstat (sf ++ q)) as Hsq. case_bool_decide as Hpre.
  - destruct (decide (p = [])) as [->|Hp].
    { rewrite app_nil_r in Hpre. apply prefix_length in Hpre.
      pose proof (dirname_length sf sf_nonempty). rewrite length_app in Hpre. lia. }
    rewrite dirname_app in Hpre by done. apply prefix_app_inv in Hpre.
    destruct (dirname_proper p Hp) as [x Hx]. destruct Hpre as [k Hk].
    apply Hmono, isdir_stat. apply (stat_prefix_dir t q (k ++ [x])).
    + rewrite app_assoc, <- Hk, <- Hx. rewrite exists_stat in Hex.
      by apply bool_decide_eq_true in Hex.
    + by destruct k.
  - apply Hmono, Hmir, isdir_stat. rewrite <- Hsq. by apply isdir_stat.
Qed.

(** One pass of the copy loop keeps both facts. *)
Lemma stage_file_inv base acc p w acc' w' :
  stage_file unreadable [] sf acc p w = (Ok acc', w') →
  mirrors_dirs sf (w_fs w) → lists_staged sf (w_fs w) (base ∪ acc) →
  mirrors_dirs sf (w_fs w') ∧ lists_staged sf (w_fs w') (base ∪ acc').
Proof.
  rewrite stage_file_unfold. simpl. intros H Hmir Hlist.
  destruct (exists_ (w_fs w) p) eqn:Hex; [|by simplify_eq].
  destruct (ensure_dir (w_fs w) (dirname (sf ++ p))) as [t1|] eqn:Hdir; [|done].
  destruct (ensure_dir_inv _ _ _ Hex Hdir Hmir) as [Hmir1 Hfile1].
  assert (Hlist1 : lists_staged sf t1 (base ∪ acc)).
  { intros q. by rewrite Hfile1. }
  destruct (copy2 unreadable t1 p (sf ++ p)) as [t2|] eqn:Hcp; [|by simplify_eq].
  simplify_eq. simpl. unfold copy2 in Hcp.
  destruct (lookup t1 p) as [[c|]|] eqn:Hsrc; [|done..].
  assert (Hnd : isdir t1 (sf ++ p) = false).
  { destruct (isdir t1 (sf ++ p)) eqn:E; [|done]. apply Hmir1 in E.
    unfold isdir in E. by rewrite Hsrc in E. }
  rewrite Hnd in Hcp. case_bool_decide; [done|].
  destruct (unreadable p); [done|].
  pose proof (write_file_stat _ _ _ _ Hcp) as Hstat. split.
  - intros q Hq. apply isdir_stat in Hq. rewrite Hstat in Hq.
    case_bool_decide; [done|]. apply isdir_stat, Hmir1 in Hq as Hq'.
    apply isdir_stat. rewrite Hstat. case_bool_decide as Heq; [|by apply isdir_stat].
    subst q. by rewrite Hnd in Hq'.
  - intros q. destruct (decide (q = p)) as [->|Hne].
    + split; [|set_solver]. intros _. apply isfile_stat. exists c.
      rewrite Hstat. by rewrite bool_decide_eq_true_2.
    + rewrite (isfile_stat_eq t1 t2).
      * specialize (Hlist1 q). set_solver.
      * rewrite Hstat. rewrite bool_decide_eq_false_2; [done|].
        by intros ?%app_inv_head.
Qed.

Lemma copy_loop_inv base cf acc w acc' w' :
  copy_loop unreadable [] sf acc cf w = (Ok acc', w') →
  mirrors_dirs sf (w_fs w) → lists_staged sf (w_fs w) (base ∪ acc) →
  mirrors_dirs sf (w_fs w') ∧ lists_staged sf (w_fs w') (base ∪ acc').
Proof.
  revert acc w. induction cf as [|p cf IH]; intros acc w H Hmir Hlist.
  - simpl in H. by injection H as <- <-.
  - simpl in H. unfold bind in H.
    destruct (stage_file unreadable [] sf acc p w) as [[acc1|] w1] eqn:Hp; [|done].
    destruct (stage_file_inv base _ _ _ _ _ Hp Hmir Hlist) as [Hmir1 Hlist1].
    by apply (IH _ _ H).
Qed.

Lemma makedirs_raise_kind t d e :
  makedirs t d = Raise e → is_ValueError e = false.
Proof.
  revert t. induction d as [|n d IH]; intros t; simpl.
  - destruct t; [by intros [= <-] | done].
  - destruct t as [|es]; [by intros [= <-]|].
    destruct (assoc n es) as [c|]; [|done].
    destruct (makedirs c d) eqn:Hc; [done|]. intros [= <-]. by eapply IH.
Qed.

Lemma copy_loop_raise_kind rp cf acc w e w' :
  copy_loop unreadable rp sf acc cf w = (Raise e, w') → is_ValueError e = false.
Proof.
  intros (_ & p & _ & _ & _ & _ & _ & _ & H)%copy_loop_raise.
  by eapply makedirs_raise_kind.
Qed.

Variable r : repo.
Variable commits : list commit.

(** One pass of the selection loop, case by case *)
Lemma select_step_unfold rp st line w :
  select_step unreadable r commits rp sf st line w =
  let user_input := Text.lower (Text.strip line) in
  if String.eqb user_input "e" then (Ok None, w)
  else
    match Text.int user_input with
    | None => (Ok (Some st), log w (Printed InvalidInput))
    | Some index =>
        if ((0 <=? index)%Z && (index <? Z.of_nat (length commits))%Z)%bool then
          let selected := selected_commit_indices st ++ [index] in
          match commits !! Z.to_nat index with
          | None => (Ok (Some st), log w (Printed InvalidInput))
          | Some commit =>
              let w1 := log w (Printed (Processing commit index)) in
              match parents commit with
              | [] => (Ok (Some (Selection (overall_changed_files st) selected)),
                       log w1 (Printed (RootCommitSkipped commit)))
              | parent :: _ =>
                  let w2 := log w1 (GitDiff parent (hexsha commit)) in
                  match diff_name_only r parent (hexsha commit) with
                  | Raise e =>
                      if is_ValueError e then (Ok (Some st), log w2 (Printed InvalidInput))
                      else (Raise e, w2)
                  | Ok [] =>
                      (Ok (Some (Selection (overall_changed_files st) selected)),
                       log w2 (Printed (NoChangedFiles commit)))
                  | Ok (f :: fs) =>
                      match copy_files_to_staging unreadable (f :: fs) rp sf w2 with
                      | (Ok staged, w3) =>
                          (Ok (Some (Selection (overall_changed_files st ∪ staged) selected)),
                           log w3 (Printed (StagedCount (size staged) commit)))
                      | (Raise e, w3) =>
                          if is_ValueError e then (Ok (Some st), log w3 (Printed InvalidInput))
                          else (Raise e, w3)
                      end
                  end
              end
          end
        else (Ok (Some st), log w (Printed IndexOutOfRange))
    end.
Proof.
  unfold select_step. cbv zeta.
  destruct (String.eqb _ "e"); [done|].
  unfold try_except, bind, lift, print, emit, ret, raise.
  destruct (Text.int _) as [index|]; [|done].
  destruct (_ && _)%bool; [|done].
  destruct (commits !! Z.to_nat index) as [commit|]; [|done].
  destruct (parents commit) as [|parent ?]; [done|].
  destruct (diff_name_only r parent (hexsha commit)) as [[|f fs]|e]; [done| |done].
  by destruct (copy_files_to_staging unreadable (f :: fs) rp sf _) as [[staged|e] w3].
Qed.

(** One pass of the selection loop keeps both facts. *)
Lemma select_step_inv st line w next w' :
  select_step unreadable r commits [] sf st line w = (Ok next, w') →
  mirrors_dirs sf (w_fs w) → lists_staged sf (w_fs w) (overall_changed_files st) →
  mirrors_dirs sf (w_fs w')
  ∧ match next with
    | Some st' => lists_staged sf (w_fs w') (overall_changed_files st')
    | None => w' = w
    end.
Proof.
  rewrite select_step_unfold. cbv zeta. intros H Hmir Hlist.
  destruct (String.eqb _ "e"); [by simplify_eq|].
  destruct (Text.int _) as [index|]; [|by simplify_eq].
  destruct (_ && _)%bool; [|by simplify_eq].
  destruct (commits !! Z.to_nat index) as [commit|]; [|by simplify_eq].
  destruct (parents commit) as [|parent ?]; [by simplify_eq|].
  destruct (diff_name_only r parent (hexsha commit)) as [[|f fs]|e].
  - by simplify_eq.
  - destruct (copy_files_to_staging _ _ _ _ _) as [[staged|e] w3] eqn:Hcp.
    + simplify_eq. simpl.
      apply (copy_loop_inv (overall_changed_files st)) in Hcp; [done..|].
      by rewrite (right_id_L ∅ (∪)).
    + by rewrite (copy_loop_raise_kind _ _ _ _ _ _ Hcp) in H.
  - destruct (is_ValueError e); by simplify_eq.
Qed.

Lemma selection_loop_inv lines st w st' rest w' :
  selection_loop unreadable r commits [] sf st lines w = (Ok (st', rest), w') →
  mirrors_dirs sf (w_fs w) → lists_staged sf (w_fs w) (overall_changed_files st) →
  lists_staged sf (w_fs w') (overall_changed_files st').
Proof.
  revert st w. induction lines as [|line lines IH]; intros st w H Hmir Hlist; [done|].
  simpl in H. unfold bind at 1 in H. simpl in H. unfold bind in H.
  destruct (select_step _ _ _ _ _ _ _ _) as [[next|e] w1] eqn:Hstep; [|done].
  apply select_step_inv in Hstep as [Hmir1 Hnext]; [|done..].
  destruct next as [st1|].
  - by apply (IH _ _ H).
  - unfold ret in H. by simplify_eq.
Qed.

End Manifest.

(** The staging folder is empty after [prepare_staging], and nothing
    outside it has changed. *)
Lemma prepare_staging_stat w w0 :
  prepare_staging w = (Ok tt, w0) →
  w_out w0 = w_out w
  ∧ ∀ q, FS.stat (w_fs w0) q =
         if bool_decide (q `prefix_of` staging_folder) then Some FS.KDir
         else if bool_decide (staging_folder `prefix_of` q) then None
         else FS.stat (w_fs w) q.
Proof.
  unfold prepare_staging, bind, fs_query, fs_update, ret. cbn beta iota.
  destruct (FS.exists_ (w_fs w) staging_folder) eqn:Hex.
  - destruct (FS.rmtree (w_fs w) staging_folder) as [t1|] eqn:Hrm; [|done].
    cbn [w_fs w_out].
    destruct (FS.makedirs t1 staging_folder) as [t0|] eqn:Hmk; [|done].
    intros [= <-]. split; [done|]. intros q. cbn [w_fs].
    pose proof (makedirs_stat _ _ _ Hmk q) as Hq.
    case_bool_decide; [by destruct Hq|].
    by rewrite Hq, (rmtree_stat _ _ _ Hrm q).
  - destruct (FS.makedirs (w_fs w) staging_folder) as [t0|] eqn:Hmk; [|done].
    intros [= <-]. split; [done|]. intros q. cbn [w_fs].
    pose proof (makedirs_stat _ _ _ Hmk q) as Hq.
    case_bool_decide; [by destruct Hq|]. rewrite Hq.
    case_bool_decide as Hpre; [|done]. destruct Hpre as [k ->].
    apply stat_below_None. rewrite exists_stat in Hex.
    apply bool_decide_eq_false in Hex.
    destruct (FS.stat (w_fs w) staging_folder); [by destruct Hex | done].
Qed.

Lemma staging_folder_nonempty : staging_folder ≠ [].
Proof. done. Qed.

Lemma prepare_staging_inv w w0 :
  prepare_staging w = (Ok tt, w0) →
  mirrors_dirs staging_folder (w_fs w0) ∧ lists_staged staging_folder (w_fs w0) ∅.
Proof.
  intros [_ Hstat]%prepare_staging_stat.
  assert (Hbelow : ∀ q, q ≠ [] → FS.stat (w_fs w0) (staging_folder ++ q) = None).
  { intros q Hq. rewrite Hstat. rewrite bool_decide_eq_false_2.
    - rewrite bool_decide_eq_true_2; [done|]. by exists q.
    - intros Hpre%prefix_length. rewrite length_app in Hpre. simpl in Hpre.
      destruct q; [done|]. simpl in Hpre. lia. }
  split.
  - intros q Hq. apply isdir_stat in Hq. destruct q as [|n q].
    + apply isdir_stat. rewrite Hstat. by rewrite bool_decide_eq_true_2 by apply prefix_nil.
    + by rewrite Hbelow in Hq.
  - intros p. split; [set_solver|]. intros [c Hc]%isfile_stat.
    destruct p as [|n p]; [|by rewrite Hbelow in Hc].
    rewrite app_nil_r, Hstat in Hc. by rewrite bool_decide_eq_true_2 in Hc.
Qed.



(** ** Selecting a commit again *)

Section Reselection.

Import FS.

Variable unreadable : path → bool.
Variable sf : path.
Hypothesis sf_nonempty : sf ≠ [].
Variable wt : node.

Lemma stat_exists t p : exists_ t p = true ↔ is_Some (stat t p).
Proof. rewrite exists_stat. apply bool_decide_eq_true. Qed.

Lemma prefix_of_app_cases (q a b : path) :
  q `prefix_of` a ++ b → q `prefix_of` a ∨ ∃ q', q = a ++ q' ∧ q' `prefix_of` b.
Proof.
  revert q. induction a as [|x a IH]; intros q Hq; simpl in *.
  - right. by exists q.
  - destruct q as [|y q]; [left; apply prefix_nil|].
    apply prefix_cons_inv_1 in Hq as Hxy. subst y. apply prefix_cons_inv_2 in Hq.
    destruct (IH _ Hq) as [H | (q' & -> & H)].
    + left. by apply prefix_cons.
    + right. by exists q'.
Qed.

(** A proper prefix of the staging folder is a directory. *)
Lemma mirror_above t q :
  staging_mirror sf wt t → q `prefix_of` sf → stat t q = Some KDir.
Proof.
  intros Hm [k Hk]. destruct k as [|x k].
  - rewrite app_nil_r in Hk. subst q. apply Hm.
  - apply (stat_prefix_dir t q (x :: k)); [|done].
    by rewrite <- Hk, (mirror_root _ _ _ Hm).
Qed.

(** Making the destination directory of an existing path succeeds and
    keeps the mirror. *)
Lemma ensure_dir_mirror t p :
  staging_mirror sf wt t → ¬ sf `prefix_of` p → is_Some (stat wt p) →
  ∃ t1, ensure_dir t (dirname (sf ++ p)) = Ok t1
        ∧ staging_mirror sf wt t1
        ∧ stat t1 (dirname (sf ++ p)) = Some KDir.
Proof.
  intros Hm Hout Hex.
  assert (Hfree : ∀ q c, q `prefix_of` dirname (sf ++ p) → stat t q ≠ Some (KFile c)).
  { intros q c Hq. destruct (decide (p = [])) as [->|Hp].
    - rewrite app_nil_r in Hq.
      destruct (dirname_proper sf sf_nonempty) as [x Hx].
      rewrite (mirror_above t q Hm); [done|]. rewrite Hx. by apply prefix_app_r.
    - rewrite dirname_app in Hq by done.
      destruct (prefix_of_app_cases _ _ _ Hq) as [H | (q' & -> & [k Hk])].
      + by rewrite (mirror_above t q Hm H).
      + intros (c' & Hc')%(mirror_file _ _ _ Hm).
        destruct (dirname_proper p Hp) as [x Hx].
        rewrite (stat_prefix_dir wt q' (k ++ [x])) in Hc'; [done| |by destruct k].
        by rewrite app_assoc, <- Hk, <- Hx. }
  unfold ensure_dir. destruct (exists_ t (dirname (sf ++ p))) eqn:Hthere.
  - exists t. split; [done|]. split; [done|].
    apply stat_exists in Hthere as [[c|] Hk]; [|done].
    by destruct (Hfree (dirname (sf ++ p)) c).
  - destruct (makedirs_ok t (dirname (sf ++ p)) Hfree) as [t1 Hmk].
    exists t1. split; [done|].
    pose proof (makedirs_stat _ _ _ Hmk) as Hstat.
    assert (Hkeep : ∀ q, is_Some (stat t q) → stat t1 q = stat t q).
    { intros q [k Hk]. specialize (Hstat q). case_bool_decide; [|done].
      destruct Hstat as [-> [?|?]]; congruence. }
    split; [|by specialize (Hstat (dirname (sf ++ p)));
              rewrite bool_decide_eq_true_2 in Hstat by done; destruct Hstat].
    split.
    + rewrite Hkeep; [apply Hm|]. by rewrite (mirror_root _ _ _ Hm).
    + intros q Hq. rewrite <- (mirror_outside _ _ _ Hm q Hq).
      specialize (Hstat q). case_bool_decide as Hpre; [|done].
      apply Hkeep. destruct (decide (p = [])) as [->|Hp].
      * rewrite app_nil_r in Hpre.
        destruct (dirname_proper sf sf_nonempty) as [x Hx].
        rewrite (mirror_above t q Hm); [done|]. rewrite Hx. by apply prefix_app_r.
      * rewrite dirname_app in Hpre by done.
        destruct (prefix_of_app_cases _ _ _ Hpre) as [H | (q' & -> & _)].
        -- by rewrite (mirror_above t q Hm H).
        -- destruct Hq. by exists q'.
    + intros q Hq. specialize (Hstat (sf ++ q)). case_bool_decide as Hpre.
      * destruct (decide (p = [])) as [->|Hp].
        { rewrite app_nil_r in Hpre. apply prefix_length in Hpre.
          pose proof (dirname_length sf sf_nonempty). rewrite length_app in Hpre. lia. }
        rewrite dirname_app in Hpre by done. apply prefix_app_inv in Hpre as [k Hk].
        destruct (dirname_proper p Hp) as [x Hx].
        apply (stat_prefix_dir wt q (k ++ [x])); [|by destruct k].
        by rewrite app_assoc, <- Hk, <- Hx.
      * apply (mirror_dir _ _ _ Hm). congruence.
    + intros q c Hq. specialize (Hstat (sf ++ q)). case_bool_decide as Hpre.
      * destruct Hstat as [Hd _]. congruence.
      * apply (mirror_file _ _ _ Hm q c). congruence.
Qed.

(** Under the mirror, one pass of the copy loop stages the path exactly
    when the working tree has it as a readable regular file; it never
    raises, and the mirror is kept. *)
Lemma stage_file_mirror acc p w :
  staging_mirror sf wt (w_fs w) → ¬ sf `prefix_of` p →
  ∃ w', stage_file unreadable [] sf acc p w
        = (Ok (if stageable unreadable wt p then acc ∪ {[p]} else acc), w')
        ∧ staging_mirror sf wt (w_fs w').
Proof.
  intros Hm Hout. rewrite stage_file_unfold. cbn [app].
  pose proof (mirror_outside _ _ _ Hm p Hout) as Hsrc.
  destruct (exists_ (w_fs w) p) eqn:Hex.
  2:{ exists (log w (Printed (WarnMissing p))). split; [|done]. unfold stageable.
      apply not_true_iff_false in Hex. rewrite stat_exists, Hsrc in Hex.
      unfold stat in Hex. destruct (lookup wt p); [destruct Hex; by eexists|done]. }
  apply stat_exists in Hex. rewrite Hsrc in Hex.
  destruct (ensure_dir_mirror (w_fs w) p Hm Hout Hex) as (t1 & -> & Hm1 & Hpar).
  pose proof (mirror_outside _ _ _ Hm1 p Hout) as Hsrc1.
  unfold copy2, stageable. unfold stat in Hsrc1, Hex.
  destruct (lookup wt p) as [[c|es]|] eqn:Hwt; [| |by destruct Hex as [? ?]].
  2:{ destruct (lookup t1 p) as [[|]|]; try done.
      by exists (World t1 (w_out w ++ [Printed (ErrorCopying p IsADirectoryError)])). }
  destruct (lookup t1 p) as [[c1|]|] eqn:Ht1; try done.
  assert (Hp : p ≠ []).
  { intros ->. pose proof (mirror_root _ _ _ Hm1) as Hroot.
    rewrite <- (app_nil_l sf), stat_app, Ht1 in Hroot. by destruct sf. }
  assert (Hnd : isdir t1 (sf ++ p) = false).
  { destruct (isdir t1 (sf ++ p)) eqn:E; [|done].
    apply isdir_stat, (mirror_dir _ _ _ Hm1) in E. unfold stat in E. by rewrite Hwt in E. }
  rewrite Hnd. rewrite bool_decide_eq_false_2.
  2:{ intros Heq%(f_equal length). rewrite length_app in Heq.
      destruct sf; [done|]. simpl in Heq. lia. }
  destruct (unreadable p); simpl;
    [by exists (World t1 (w_out w ++ [Printed (ErrorCopying p PermissionError)]))|].
  destruct (write_file_ok t1 (sf ++ p) c1) as [t2 Hw].
  { by destruct sf. }
  { done. }
  { intros H%isdir_stat. by rewrite Hnd in H. }
  rewrite Hw. exists (World t2 (w_out w)). split; [done|]. cbn [w_fs].
  pose proof (write_file_stat _ _ _ _ Hw) as Hstat. split.
  - rewrite Hstat. rewrite bool_decide_eq_false_2; [apply Hm1|].
    intros Heq. apply Hp. apply (app_inv_head sf). by rewrite app_nil_r.
  - intros q Hq. rewrite Hstat. rewrite bool_decide_eq_false_2; [by apply Hm1|].
    intros ->. apply Hq. by exists p.
  - intros q. rewrite Hstat. case_bool_decide; [done|]. apply Hm1.
  - intros q c'. rewrite Hstat. case_bool_decide as Heq; [|apply Hm1].
    apply app_inv_head in Heq as ->. intros _. exists c. unfold stat. by rewrite Hwt.
Qed.

Lemma staged_of_cons p cf :
  staged_of unreadable wt (p :: cf)
  = (if stageable unreadable wt p then {[p]} else ∅) ∪ staged_of unreadable wt cf.
Proof.
  unfold staged_of. simpl. destruct (stageable unreadable wt p); simpl; set_solver.
Qed.

Lemma copy_loop_mirror cf acc w :
  staging_mirror sf wt (w_fs w) →
  (∀ p, p ∈ cf → ¬ sf `prefix_of` p) →
  ∃ w', copy_loop unreadable [] sf acc cf w
        = (Ok (acc ∪ staged_of unreadable wt cf), w')
        ∧ staging_mirror sf wt (w_fs w').
Proof.
  revert acc w. induction cf as [|p cf IH]; intros acc w Hm Hclean.
  - exists w. split; [|done]. simpl. unfold ret, staged_of. simpl.
    by rewrite (right_id_L ∅ (∪)).
  - destruct (stage_file_mirror acc p w Hm) as (w1 & Hp & Hm1).
    { apply Hclean. by left. }
    assert (Hrest : ∀ q, q ∈ cf → ¬ sf `prefix_of` q).
    { intros q Hq. apply Hclean. by right. }
    match type of Hp with
    | _ = (Ok ?a, _) => destruct (IH a w1 Hm1 Hrest) as (w' & Hcf & Hm')
    end.
    exists w'. split; [|done]. cbn [copy_loop]. unfold bind. rewrite Hp.
    cbn beta iota. rewrite Hcf. rewrite staged_of_cons. do 2 f_equal.
    destruct (stageable unreadable wt p); set_solver.
Qed.

Variable r : repo.
Variable commits : list commit.
Hypothesis clean :
  ∀ c parent others cf p,
    c ∈ commits → parents c = parent :: others →
    diff_name_only r parent (hexsha c) = Ok cf →
    p ∈ cf → ¬ sf `prefix_of` p.

(** One pass of the selection loop does what the abstract view says. *)
Lemma select_step_mirror st line w :
  staging_mirror sf wt (w_fs w) →
  ∃ res w',
    select_step unreadable r commits [] sf st line w = (res, w')
    ∧ staging_mirror sf wt (w_fs w')
    ∧ match line_effect unreadable r commits wt line, res with
      | Stop, Ok None => True
      | Add s, Ok (Some st') =>
          overall_changed_files st' = overall_changed_files st ∪ s
      | Raises e, Raise e' => e = e'
      | _, _ => False
      end.
Proof.
  intros Hm. rewrite select_step_unfold. unfold line_effect. cbv zeta.
  destruct (String.eqb _ "e"); [by eexists _, _|].
  destruct (Text.int _) as [index|];
    [|eexists _, _; split; [done|]; split; [done|]; cbn; set_solver].
  destruct (_ && _)%bool;
    [|eexists _, _; split; [done|]; split; [done|]; cbn; set_solver].
  destruct (commits !! Z.to_nat index) as [commit|] eqn:Hc;
    [|eexists _, _; split; [done|]; split; [done|]; cbn; set_solver].
  destruct (parents commit) as [|parent others] eqn:Hpar;
    [eexists _, _; split; [done|]; split; [done|]; cbn; set_solver|].
  destruct (diff_name_only r parent (hexsha commit)) as [cf|e] eqn:Hdiff.
  2:{ destruct (is_ValueError e); eexists _, _; split; try done; split; try done.
      cbn. set_solver. }
  destruct cf as [|f fs].
  { eexists _, _. split; [done|]. split; [done|]. cbn. unfold staged_of. simpl.
    set_solver. }
  unfold copy_files_to_staging.
  destruct (copy_loop_mirror (f :: fs) ∅
              (log (log w (Printed (Processing commit index)))
                   (GitDiff parent (hexsha commit)))) as (w3 & -> & Hm3); [done| |].
  { intros p Hp. eapply clean; [|done..]. by eapply list_elem_of_lookup_2. }
  eexists _, _. split; [done|]. split; [done|]. cbn. by rewrite (left_id_L ∅ (∪)).
Qed.

(** The loop ends with the set the abstract view computes. *)
Lemma selection_loop_pure lines st w :
  staging_mirror sf wt (w_fs w) →
  final_set (selection_loop unreadable r commits [] sf st lines w)
  = pure_loop (line_effect unreadable r commits wt) (overall_changed_files st) lines.
Proof.
  revert st w. induction lines as [|line lines IH]; intros st w Hm; [done|].
  cbn [selection_loop pure_loop]. unfold bind at 1. cbn [emit].
  destruct (select_step_mirror st line (log w (Input AskCommitIndex)) Hm)
    as (res & w' & Hstep & Hm' & Hres).
  unfold bind. rewrite Hstep.
  destruct (line_effect unreadable r commits wt line) as [|s|e], res as [[st'|]|e'];
    try done.
  - rewrite <- Hres. by apply IH.
  - by subst.
Qed.

End Reselection.

(** In the abstract view a repeated line changes nothing. *)
Lemma pure_loop_absorb eff x s l2 l3 acc :
  eff x = Add s → s ⊆ acc →
  pure_loop eff acc (l2 ++ x :: l3) = pure_loop eff acc (l2 ++ l3).
Proof.
  intros Hx. revert acc. induction l2 as [|y l2 IH]; intros acc Hs; simpl.
  - rewrite Hx. by assert (acc ∪ s = acc) as -> by set_solver.
  - destruct (eff y); [done| |done]. apply IH. set_solver.
Qed.

Lemma pure_loop_repeat eff x l1 l2 l3 acc :
  pure_loop eff acc (l1 ++ x :: l2 ++ x :: l3)
  = pure_loop eff acc (l1 ++ x :: l2 ++ l3).
Proof.
  revert acc. induction l1 as [|y l1 IH]; intros acc; simpl.
  - destruct (eff x) as [|s|e] eqn:Hx; [done| |done].
    apply (pure_loop_absorb eff x s); [done|set_solver].
  - destruct (eff y); [done| |done]. apply IH.
Qed.

Lemma prepare_staging_mirror w w0 :
  prepare_staging w = (Ok tt, w0) →
  staging_mirror staging_folder (w_fs w0) (w_fs w0).
Proof.
  intros [_ Hstat]%prepare_staging_stat.
  assert (Hbelow : ∀ q, q ≠ [] → FS.stat (w_fs w0) (staging_folder ++ q) = None).
  { intros q Hq. rewrite Hstat. rewrite bool_decide_eq_false_2.
    - rewrite bool_decide_eq_true_2; [done|]. by exists q.
    - intros Hpre%prefix_length. rewrite length_app in Hpre. simpl in Hpre.
      destruct q; [done|]. simpl in Hpre. lia. }
  split.
  - rewrite Hstat. by rewrite bool_decide_eq_true_2.
  - done.
  - intros [|n q] Hq; [|by rewrite Hbelow in Hq].
    rewrite Hstat. by rewrite bool_decide_eq_true_2 by apply prefix_nil.
  - intros [|n q] c Hq; [|by rewrite Hbelow in Hq].
    rewrite app_nil_r, Hstat in Hq. by rewrite bool_decide_eq_true_2 in Hq.
Qed.

(** C8, as the code has it: when no changed path of a listed commit lies
    in the staging folder, typing a line a second time, at any later
    point of the selection, leaves the final accumulated set as it is
    without the repetition (and the run ends the same way). *)
Theorem C8_reselection_idempotent_outside_staging
    unreadable r commits w w0 l1 l2 l3 x :
  prepare_staging w = (Ok tt, w0) →
  clean_diffs r commits →
  final_set (selection_loop unreadable r commits repo_path staging_folder
               (Selection ∅ []) (l1 ++ x :: l2 ++ x :: l3) w0)
  = final_set (selection_loop unreadable r commits repo_path staging_folder
                 (Selection ∅ []) (l1 ++ x :: l2 ++ l3) w0).
Proof.
  intros Hprep%prepare_staging_mirror Hclean.
  rewrite !(selection_loop_pure unreadable staging_folder staging_folder_nonempty
              (w_fs w0) r commits Hclean) by done.
  apply pure_loop_repeat.
Qed.

Lemma demo_clean : clean_diffs demo_repo demo_commits.
Proof.
  intros c parent others cf p _ _ Hdiff Hp [k Hk]. simpl in Hdiff.
  destruct (String.eqb (hexsha c) "c2c2c2c"); [|destruct (String.eqb (hexsha c) "c3c3c3c")];
    injection Hdiff as <-; set_unfold; naive_solver.
Qed.

Lemma C8_witness :
  ∃ w0,
    prepare_staging (World demo_tree []) = (Ok tt, w0)
    ∧ final_set (selection_loop (λ _, false) demo_repo demo_commits repo_path
                   staging_folder (Selection ∅ []) ["0"; "1"; "0"; "e"]%string w0)
      = final_set (selection_loop (λ _, false) demo_repo demo_commits repo_path
                     staging_folder (Selection ∅ []) ["0"; "1"; "e"]%string w0).
Proof.
  eexists. split; [vm_compute; reflexivity|].
  apply (C8_reselection_idempotent_outside_staging (λ _, false) demo_repo demo_commits
           (World demo_tree []) _ [] ["1"%string] ["e"%string] "0"%string);
    [vm_compute; reflexivity | exact demo_clean].
Defined.

(** C8 as stated fails: the staging folder is inside the working tree.
    The commit changed [staging_folder/z] and [z]. The first selection
    finds no [staging_folder/z] (the folder was just emptied) and stages
    [z] only; the second finds the copy of [z] made by the first at
    [staging_folder/z] and stages it as well. *)
Lemma C8_counterexample :
  ∃ w0,
    prepare_staging (World shadow_tree []) = (Ok tt, w0)
    ∧ final_set (selection_loop (λ _, false) shadow_repo shadow_commits repo_path
                   staging_folder (Selection ∅ []) ["0"; "e"]%string w0)
      = Ok {[ ["z"%string] ]}
    ∧ final_set (selection_loop (λ _, false) shadow_repo shadow_commits repo_path
                   staging_folder (Selection ∅ []) ["0"; "0"; "e"]%string w0)
      = Ok {[ ["z"%string]; ["staging_folder"; "z"]%string ]}
    ∧ final_set (selection_loop (λ _, false) shadow_repo shadow_commits repo_path
                   staging_folder (Selection ∅ []) ["0"; "0"; "e"]%string w0)
      ≠ final_set (selection_loop (λ _, false) shadow_repo shadow_commits repo_path
                     staging_folder (Selection ∅ []) ["0"; "e"]%string w0).
Proof.
  eexists. split; [vm_compute; reflexivity|].
  assert (H1 : final_set (selection_loop (λ _, false) shadow_repo shadow_commits repo_path
                   staging_folder (Selection ∅ []) ["0"; "e"]%string
                   (prepare_staging (World shadow_tree [])).2)
               = Ok {[ ["z"%string] ]}) by (vm_compute; reflexivity).
  assert (H2 : final_set (selection_loop (λ _, false) shadow_repo shadow_commits repo_path
                   staging_folder (Selection ∅ []) ["0"; "0"; "e"]%string
                   (prepare_staging (World shadow_tree [])).2)
               = Ok {[ ["z"%string]; ["staging_folder"; "z"]%string ]})
    by (vm_compute; reflexivity).
  split; [exact H1|]. split; [exact H2|].
  intros Hsame. pose proof (eq_trans (eq_sym H2) (eq_trans Hsame H1)) as Heq.
  apply (f_equal (λ res, match res with Ok s => s | Raise _ => ∅ end)) in Heq.
  cbv beta iota in Heq.
  assert (Hin : ["staging_folder"; "z"]%string ∈ ({[ ["z"%string] ]} : gset path)).
  { rewrite <- Heq. apply elem_of_union. right. by apply elem_of_singleton. }
  by apply elem_of_singleton in Hin.
Qed.

(** ** Relations that every run respects *)

Section Respects.

Context {R : relation world} `{!PreOrder R}.

Lemma respects_ret {A} (a : A) : respects R (ret a).
Proof. intros w res w' [= <- <-]. reflexivity. Qed.

Lemma respects_raise {A} e : respects R (raise e : M A).
Proof. intros w res w' [= <- <-]. reflexivity. Qed.

Lemma respects_lift {A} (r : result A) : respects R (lift r).
Proof. intros w res w' [= <- <-]. reflexivity. Qed.

Lemma respects_fs_query {A} (q : node → A) : respects R (fs_query q).
Proof. intros w res w' [= <- <-]. reflexivity. Qed.

Lemma respects_bind {A B} (m : M A) (k : A → M B) :
  respects R m → (∀ a, respects R (k a)) → respects R (bind m k).
Proof.
  intros Hm Hk w res w'. unfold bind.
  destruct (m w) as [[a|e] w1] eqn:E.
  - intros H. transitivity w1; [by eapply Hm | by eapply Hk].
  - intros [= <- <-]. by eapply Hm.
Qed.

Lemma respects_try_except {A} (m : M A) catches h :
  respects R m → (∀ e, respects R (h e)) → respects R (try_except m catches h).
Proof.
  intros Hm Hh w res w'. unfold try_except.
  destruct (m w) as [[a|e] w1] eqn:E.
  - intros [= <- <-]. by eapply Hm.
  - destruct (catches e).
    + intros H. transitivity w1; [by eapply Hm | by eapply Hh].
    + intros [= <- <-]. by eapply Hm.
Qed.

Lemma respects_emit e : (∀ w, R w (log w e)) → respects R (emit e).
Proof. intros H w res w' [= <- <-]. apply H. Qed.

Lemma respects_fs_update op :
  (∀ w t, op (w_fs w) = Ok t → R w (World t (w_out w))) → respects R (fs_update op).
Proof.
  intros H w res w'. unfold fs_update.
  destruct (op (w_fs w)) eqn:E; intros [= <- <-]; [by apply H | reflexivity].
Qed.

End Respects.

Global Instance emits_only_preorder P : PreOrder (emits_only P).
Proof.
  split.
  - intros w. exists []. by rewrite app_nil_r.
  - intros w1 w2 w3 (e1 & H1 & F1) (e2 & H2 & F2). exists (e1 ++ e2).
    split; [by rewrite H2, H1, app_assoc | by apply Forall_app].
Qed.

Global Instance unchanged_outside_preorder T : PreOrder (unchanged_outside T).
Proof.
  split; [done|]. intros w1 w2 w3 H1 H2 q Hq. by rewrite (H2 q Hq), (H1 q Hq).
Qed.

Global Instance confined_to_preorder sf : PreOrder (confined_to sf).
Proof.
  split; [done|]. intros w1 w2 w3 H1 H2 Hsf.
  destruct (H1 Hsf) as [Hsf1 F1]. destruct (H2 Hsf1) as [Hsf2 F2].
  split; [done|]. intros q Hq. by rewrite (F2 q Hq), (F1 q Hq).
Qed.

Lemma emits_only_log P w e : P e → emits_only P w (log w e).
Proof. intros H. exists [e]. split; [done|]. by constructor. Qed.

Lemma emits_only_fs P w t : emits_only P w (World t (w_out w)).
Proof. exists []. by rewrite app_nil_r. Qed.

(** Proving that a computation respects a relation: by its structure *)
Create HintDb respects.

Ltac respects_tac :=
  repeat first
    [ progress intros
    | solve [auto with respects nocore]
    | apply respects_ret | apply respects_raise | apply respects_lift
    | apply respects_fs_query | apply respects_bind | apply respects_try_except
    | apply respects_emit | apply respects_fs_update
    | match goal with |- respects _ (match ?x with _ => _ end) => destruct x end ].

Lemma confined_to_log sf w e : confined_to sf w (log w e).
Proof. by intros H. Qed.

Lemma unchanged_outside_log T w e : unchanged_outside T w (log w e).
Proof. by intros q Hq. Qed.

(** ** The two date prompts *)

Section Date_prompt.

Variables (p : prompt) (retry : msg).

Lemma ask_date_rejects line rest w :
  parse_date_input (Text.strip line) = None →
  ask_date p retry (line :: rest) w
  = ask_date p retry rest (World (w_fs w) (w_out w ++ [Input p; Printed retry])).
Proof.
  intros H. cbn [ask_date]. rewrite H.
  unfold bind, emit, print, emit, log. cbn. by rewrite <- app_assoc.
Qed.

Lemma ask_date_skips bad rest w :
  Forall (λ l, parse_date_input (Text.strip l) = None) bad →
  ask_date p retry (bad ++ rest) w
  = ask_date p retry rest
      (World (w_fs w) (w_out w ++ flat_map (λ _, [Input p; Printed retry]) bad)).
Proof.
  intros Hbad. revert w. induction Hbad as [|l bad Hl _ IH]; intros w.
  - simpl. rewrite app_nil_r. by destruct w.
  - cbn [app flat_map]. rewrite ask_date_rejects by done. rewrite IH. cbn.
    by rewrite <- app_assoc.
Qed.

(** X1: each of the two date prompts of [main] asks again, with
    the retry message, for every line whose stripped text does not parse
    as a date; it returns the stripped text of the first line that does,
    leaving the lines after it unread, and does not touch the file
    system. When the input ends before such a line, [input] raises
    [EOFError] at the next prompt. *)
Theorem X1_date_prompt_repeats_until_valid bad w :
  Forall (λ l, parse_date_input (Text.strip l) = None) bad →
  (∀ line rest, parse_date_input (Text.strip line) ≠ None →
     ask_date p retry (bad ++ line :: rest) w
     = (Ok (Text.strip line, rest),
        World (w_fs w)
          (w_out w ++ flat_map (λ _, [Input p; Printed retry]) bad ++ [Input p])))
  ∧ ask_date p retry bad w
    = (Raise EOFError,
       World (w_fs w)
         (w_out w ++ flat_map (λ _, [Input p; Printed retry]) bad ++ [Input p])).
Proof.
  intros Hbad. split.
  - intros line rest Hline. rewrite ask_date_skips by done.
    cbn [ask_date]. destruct (parse_date_input (Text.strip line)); [|done].
    unfold bind, emit, ret, log. cbn. by rewrite <- app_assoc.
  - rewrite <- (app_nil_r bad) at 1. rewrite ask_date_skips by done.
    cbn. unfold bind, emit, raise, log. cbn. by rewrite <- app_assoc.
Qed.

End Date_prompt.

Lemma X1_witness :
  ask_date AskStartDate RetryStartDate ["2024-03-01"; " 01/03/2024 "; "e"]%string
    (World (Dir []) [])
  = (Ok ("01/03/2024"%string, ["e"%string]),
     World (Dir []) [Input AskStartDate; Printed RetryStartDate; Input AskStartDate])
  ∧ ask_date AskStartDate RetryStartDate ["2024-03-01"%string] (World (Dir []) [])
    = (Raise EOFError,
       World (Dir []) [Input AskStartDate; Printed RetryStartDate; Input AskStartDate]).
Proof.
  destruct (X1_date_prompt_repeats_until_valid AskStartDate RetryStartDate
              ["2024-03-01"%string] (World (Dir []) [])) as [Hfirst Heof].
  { by repeat constructor. }
  split; [|exact Heof].
  apply (Hfirst " 01/03/2024 "%string ["e"%string]). by vm_compute.
Defined.

(** ** The selection loop, line by line *)

Section Selection_lines.

Variable unreadable : path → bool.
Variable r : repo.
Variable commits : list commit.
Variables rp sf : path.

Lemma ends_selection_eqb line :
  ¬ ends_selection line → String.eqb (Text.lower (Text.strip line)) "e" = false.
Proof. intros H. by apply String.eqb_neq. Qed.

Lemma in_range_lookup index :
  ((0 <=? index)%Z && (index <? Z.of_nat (length commits))%Z)%bool = true →
  is_Some (commits !! Z.to_nat index).
Proof.
  intros [H1%Z.leb_le H2%Z.ltb_lt]%andb_prop. apply lookup_lt_is_Some. lia.
Qed.

(** One more pass of the loop *)
Lemma selection_loop_step st line rest w :
  selection_loop unreadable r commits rp sf st (line :: rest) w
  = match select_step unreadable r commits rp sf st line (log w (Input AskCommitIndex)) with
    | (Ok None, w') => (Ok (st, rest), w')
    | (Ok (Some st'), w') => selection_loop unreadable r commits rp sf st' rest w'
    | (Raise e, w') => (Raise e, w')
    end.
Proof.
  cbn [selection_loop]. unfold bind at 1. cbn [emit]. unfold bind.
  by destruct (select_step _ _ _ _ _ _ _ _) as [[[st'|]|e] w'].
Qed.

(** X2: a line that is neither the termination token nor the text of an
    index within the bounds of the commit list (not an integer at all, a
    negative integer, or one from the number of commits upwards) changes
    nothing: one diagnostic is printed, "index out of range" for an
    integer and "invalid input" otherwise, no commit is processed, the
    file system and the state of the selection stay as they are, and the
    loop reads the next line. *)
Theorem X2_rejected_line_changes_nothing st line rest w :
  ¬ ends_selection line →
  chosen commits line = None →
  selection_loop unreadable r commits rp sf st (line :: rest) w
  = selection_loop unreadable r commits rp sf st rest
      (World (w_fs w)
         (w_out w ++ [Input AskCommitIndex;
                      Printed (match Text.int (Text.lower (Text.strip line)) with
                               | Some _ => IndexOutOfRange
                               | None => InvalidInput
                               end)])).
Proof.
  intros Htok Hch. rewrite selection_loop_step, select_step_unfold. cbv zeta.
  rewrite (ends_selection_eqb _ Htok). unfold chosen in Hch.
  destruct (Text.int _) as [index|].
  - destruct (_ && _)%bool; [done|]. unfold log. cbn. by rewrite <- app_assoc.
  - unfold log. cbn. by rewrite <- app_assoc.
Qed.

(** What a pass that returns tells *)
Lemma select_step_next st line w next w' :
  select_step unreadable r commits rp sf st line w = (Ok next, w') →
  match next with
  | None => ends_selection line ∧ w' = w
  | Some st' =>
      ¬ ends_selection line
      ∧ ∃ more staged,
          selected_commit_indices st' = selected_commit_indices st ++ more
          ∧ overall_changed_files st' = overall_changed_files st ∪ staged
          ∧ (more = [] ∨ more = option_list (chosen commits line))
          ∧ ((∀ a b, diff_name_only r a b ≠ Raise ValueError) →
             more = option_list (chosen commits line))
          ∧ ∀ p, p ∈ staged →
              ∃ i c parent others cf,
                more = [i] ∧ (0 ≤ i)%Z ∧ commits !! Z.to_nat i = Some c
                ∧ parents c = parent :: others
                ∧ diff_name_only r parent (hexsha c) = Ok cf ∧ p ∈ cf
  end.
Proof.
  rewrite select_step_unfold. cbv zeta. unfold ends_selection, chosen.
  destruct (String.eqb_spec (Text.lower (Text.strip line)) "e") as [Heq|Hne].
  { intros [= <- <-]. done. }
  destruct (Text.int _) as [index|] eqn:Hint.
  2:{ intros [= <- <-]. split; [done|]. exists [], ∅.
      rewrite app_nil_r, (right_id_L ∅ (∪)). set_solver. }
  destruct (_ && _)%bool eqn:Hrange.
  2:{ intros [= <- <-]. split; [done|]. exists [], ∅.
      rewrite app_nil_r, (right_id_L ∅ (∪)). set_solver. }
  destruct (in_range_lookup _ Hrange) as [commit Hc]. rewrite Hc.
  apply andb_prop in Hrange as [Hpos%Z.leb_le _].
  destruct (parents commit) as [|parent others] eqn:Hpar.
  { intros [= <- <-]. split; [done|]. exists [index], ∅. cbn.
    rewrite (right_id_L ∅ (∪)). set_solver. }
  destruct (diff_name_only r parent (hexsha commit)) as [[|f fs]|e] eqn:Hdiff.
  - intros [= <- <-]. split; [done|]. exists [index], ∅. cbn.
    rewrite (right_id_L ∅ (∪)). set_solver.
  - destruct (copy_files_to_staging _ _ _ _ _) as [[staged|e] w3] eqn:Hcp.
    + intros [= <- <-]. split; [done|]. exists [index], staged. cbn.
      split; [done|]. split; [done|]. split; [by right|]. split; [done|].
      intros p Hp. exists index, commit, parent, others, (f :: fs).
      repeat (split; [done|]).
      apply (copy_loop_staged _ _ _ _ _ _ _ _ Hcp) in Hp
        as [Hp | (l1 & l2 & _ & _ & _ & _ & -> & _)]; [set_solver|].
      apply elem_of_app. right. by left.
    + by rewrite (copy_loop_raise_kind _ _ _ _ _ _ _ _ Hcp).
  - destruct e; try done. intros [= <- <-]. split; [done|]. exists [], ∅.
    rewrite app_nil_r, (right_id_L ∅ (∪)). split; [done|]. split; [done|].
    split; [by left|]. split; [|set_solver].
    intros Hno. by destruct (Hno parent (hexsha commit)).
Qed.

(** The indices recorded when the loop returns *)
Lemma selection_loop_recorded lines st w st' rest w' :
  (∀ a b, diff_name_only r a b ≠ Raise ValueError) →
  selection_loop unreadable r commits rp sf st lines w = (Ok (st', rest), w') →
  ∃ before tok,
    lines = before ++ tok :: rest
    ∧ selected_commit_indices st'
      = selected_commit_indices st ++ omap (chosen commits) before.
Proof.
  intros Hval. revert st w. induction lines as [|line lines IH]; intros st w; [done|].
  rewrite selection_loop_step.
  destruct (select_step _ _ _ _ _ _ _ _) as [[[st1|]|e] w1] eqn:Hstep; [| |done].
  - intros H. apply select_step_next in Hstep as (_ & more & _ & Hsel & _ & _ & Hmore & _).
    destruct (IH _ _ H) as (before & tok & -> & Hrec).
    exists (line :: before), tok. split; [done|].
    rewrite Hrec, Hsel, (Hmore Hval), <- app_assoc. f_equal.
    cbn. by destruct (chosen commits line).
  - intros [= <- <- <-]. exists [], line. split; [done|]. cbn. by rewrite app_nil_r.
Qed.

(** X3: the selection loop returns only at a line that is the termination
    token: the lines it has read before are not the token, the lines
    after it are left unread, and the accumulated set has only grown.
    When the backend does not raise [ValueError], the indices recorded
    are, in the order typed, those of the lines read that are the text of
    an index within bounds, root commits and repetitions included. *)
Theorem X3_selection_returns_at_first_token lines st w st' rest w' :
  selection_loop unreadable r commits rp sf st lines w = (Ok (st', rest), w') →
  ∃ before line,
    lines = before ++ line :: rest
    ∧ ends_selection line
    ∧ Forall (λ l, ¬ ends_selection l) before
    ∧ overall_changed_files st ⊆ overall_changed_files st'
    ∧ ((∀ a b, diff_name_only r a b ≠ Raise ValueError) →
       selected_commit_indices st'
       = selected_commit_indices st ++ omap (chosen commits) before).
Proof.
  revert st w. induction lines as [|line lines IH]; intros st w; [done|].
  rewrite selection_loop_step.
  destruct (select_step _ _ _ _ _ _ _ _) as [[[st1|]|e] w1] eqn:Hstep; [| |done].
  - intros H. apply select_step_next in Hstep
      as (Hno & more & staged & Hsel & Hall & _ & Hmore & _).
    destruct (IH _ _ H) as (before & tok & -> & Htok & Hbefore & Hsub & Hrec).
    exists (line :: before), tok. split; [done|]. split; [done|].
    split; [by constructor|]. split; [set_solver|].
    intros Hval. rewrite (Hrec Hval), Hsel, (Hmore Hval), <- app_assoc. f_equal.
    cbn. by destruct (chosen commits line).
  - intros [= <- <- <-]. apply select_step_next in Hstep as [Htok _].
    exists [], line. split; [done|]. split; [done|]. split; [constructor|].
    split; [done|]. intros _. cbn. by rewrite app_nil_r.
Qed.

(** Every index recorded is one that a line within bounds selected. *)
Lemma selection_loop_in_range lines st w st' rest w' :
  selection_loop unreadable r commits rp sf st lines w = (Ok (st', rest), w') →
  Forall (λ i, is_Some (commits !! Z.to_nat i)) (selected_commit_indices st) →
  Forall (λ i, is_Some (commits !! Z.to_nat i)) (selected_commit_indices st').
Proof.
  revert st w. induction lines as [|line lines IH]; intros st w; [done|].
  rewrite selection_loop_step.
  destruct (select_step _ _ _ _ _ _ _ _) as [[[st1|]|e] w1] eqn:Hstep; [| |done].
  - intros H Hst. apply (IH _ _ H).
    apply select_step_next in Hstep as (_ & more & staged & -> & _ & Hmore & _).
    apply Forall_app. split; [done|]. unfold chosen in Hmore.
    destruct Hmore as [-> | ->]; [constructor|].
    destruct (Text.int _) as [index|]; [|constructor].
    destruct (_ && _)%bool eqn:Hrange; [|constructor].
    repeat constructor. by apply in_range_lookup.
  - by intros [= <- <- <-].
Qed.

(** X4: a path is in the accumulated set only if it was there before
    the loop or the backend reported it as changed between a commit of
    the list, selected by a recorded index, and the first parent of that
    commit. *)
Theorem X4_staged_paths_were_reported lines st w st' rest w' :
  selection_loop unreadable r commits rp sf st lines w = (Ok (st', rest), w') →
  ∀ p, p ∈ overall_changed_files st' →
    p ∈ overall_changed_files st
    ∨ ∃ i c parent others cf,
        i ∈ selected_commit_indices st' ∧ (0 ≤ i)%Z
        ∧ commits !! Z.to_nat i = Some c
        ∧ parents c = parent :: others
        ∧ diff_name_only r parent (hexsha c) = Ok cf ∧ p ∈ cf.
Proof.
  revert st w. induction lines as [|line lines IH]; intros st w; [done|].
  rewrite selection_loop_step.
  destruct (select_step _ _ _ _ _ _ _ _) as [[[st1|]|e] w1] eqn:Hstep; [| |done].
  - intros H p Hp.
    assert (Hgrow : ∃ before, selected_commit_indices st'
                              = selected_commit_indices st1 ++ before).
    { clear Hp. revert H. generalize st1 w1. clear.
      induction lines as [|l lines IH]; intros st w; [done|].
      rewrite selection_loop_step.
      destruct (select_step _ _ _ _ _ _ _ _) as [[[st1|]|e] w1] eqn:Hstep; [| |done].
      - intros H. destruct (IH _ _ H) as [before ->].
        apply select_step_next in Hstep as (_ & more & _ & -> & _).
        exists (more ++ before). by rewrite app_assoc.
      - intros [= <- <- <-]. exists []. by rewrite app_nil_r. }
    destruct Hgrow as [later Hlater].
    destruct (IH _ _ H p Hp) as [Hp1 | Hp1]; [|by right].
    apply select_step_next in Hstep as (_ & more & staged & Hsel & Hall & _ & _ & Hst).
    rewrite Hall in Hp1. apply elem_of_union in Hp1 as [?|Hp1]; [by left|].
    right. destruct (Hst p Hp1) as (i & c & parent & others & cf & -> & Hrest).
    exists i, c, parent, others, cf. split; [|done].
    rewrite Hlater, Hsel. set_solver.
  - intros [= <- <- <-]. by left.
Qed.

End Selection_lines.
Lemma X2_witness :
  selection_loop (λ _, false) demo_repo demo_commits repo_path staging_folder
    (Selection ∅ []) ["-1"; "e"]%string (World demo_tree [])
  = selection_loop (λ _, false) demo_repo demo_commits repo_path staging_folder
      (Selection ∅ []) ["e"]%string
      (World demo_tree [Input AskCommitIndex; Printed IndexOutOfRange]).
Proof.
  apply (X2_rejected_line_changes_nothing (λ _, false) demo_repo demo_commits
           repo_path staging_folder (Selection ∅ []) "-1"%string ["e"%string]
           (World demo_tree [])); [by vm_compute | reflexivity].
Defined.

Lemma X3_witness :
  ∃ st' w',
    selection_loop (λ _, false) demo_repo demo_commits repo_path staging_folder
      (Selection ∅ []) ["2"; "7"; "x"; "1"; "2"; " E "; "0"]%string (World demo_tree [])
    = (Ok (st', ["0"%string]), w')
    ∧ ∃ before line,
        ["2"; "7"; "x"; "1"; "2"; " E "; "0"]%string = before ++ line :: ["0"%string]
        ∧ ends_selection line
        ∧ Forall (λ l, ¬ ends_selection l) before
        ∧ overall_changed_files (Selection ∅ []) ⊆ overall_changed_files st'
        ∧ ((∀ a b, diff_name_only demo_repo a b ≠ Raise ValueError) →
           selected_commit_indices st'
           = selected_commit_indices (Selection ∅ []) ++ omap (chosen demo_commits) before).
Proof.
  eexists _, _. split; [vm_compute; reflexivity|].
  eapply (X3_selection_returns_at_first_token (λ _, false) demo_repo demo_commits
            repo_path staging_folder
            ["2"; "7"; "x"; "1"; "2"; " E "; "0"]%string (Selection ∅ [])
            (World demo_tree [])).
  vm_compute. reflexivity.
Defined.

Lemma X4_witness :
  ∃ st' w',
    selection_loop (λ _, false) demo_repo demo_commits repo_path staging_folder
      (Selection ∅ []) ["1"; "e"]%string (World demo_tree [])
    = (Ok (st', []), w')
    ∧ ∀ p, p ∈ overall_changed_files st' →
        p ∈ overall_changed_files (Selection ∅ [])
        ∨ ∃ i c parent others cf,
            i ∈ selected_commit_indices st' ∧ (0 ≤ i)%Z
            ∧ demo_commits !! Z.to_nat i = Some c
            ∧ parents c = parent :: others
            ∧ diff_name_only demo_repo parent (hexsha c) = Ok cf ∧ p ∈ cf.
Proof.
  eexists _, _. split; [vm_compute; reflexivity|].
  eapply (X4_staged_paths_were_reported (λ _, false) demo_repo demo_commits
            repo_path staging_folder ["1"; "e"]%string (Selection ∅ [])
            (World demo_tree [])).
  vm_compute. reflexivity.
Defined.

(** ** The staging folder at the start of the selection *)

Lemma prepare_staging_runs w :
  FS.stat (w_fs w) [] = Some FS.KDir →
  match FS.stat (w_fs w) staging_folder with
  | Some (FS.KFile _) => prepare_staging w = (Raise NotADirectoryError, w)
  | _ => ∃ t0, prepare_staging w = (Ok tt, World t0 (w_out w))
               ∧ FS.lookup t0 staging_folder = Some (Dir [])
  end.
Proof.
  destruct w as [[c|es] out]; [done|]. intros _.
  change staging_folder with ["staging_folder"%string].
  unfold prepare_staging, bind, fs_query, fs_update, ret, FS.exists_, FS.stat.
  change staging_folder with ["staging_folder"%string].
  cbn [w_fs w_out FS.lookup].
  destruct (FS.assoc "staging_folder" es) as [[c|es1]|] eqn:E;
    cbn [w_fs w_out FS.rmtree FS.makedirs FS.fresh_dirs fmap option_fmap option_map FS.kind_of];
    rewrite ?E; cbn [w_fs w_out FS.makedirs FS.fresh_dirs].
  - done.
  - rewrite assoc_del_eq.
    eexists. split; [done|]. cbn [FS.lookup]. by rewrite assoc_set_eq.
  - eexists. split; [done|]. cbn [FS.lookup]. by rewrite assoc_set_eq.
Qed.

(** X5: [main] starts the selection with an empty staging folder. When
    [staging_folder] is absent or a directory, lines 138 to 141 leave it
    an empty directory, whatever an earlier run had left in it, print
    nothing and change nothing outside it; when it is a regular file,
    [shutil.rmtree] raises [NotADirectoryError] and nothing is changed. *)
Theorem X5_staging_folder_starts_empty w :
  FS.stat (w_fs w) [] = Some FS.KDir →
  match FS.stat (w_fs w) staging_folder with
  | Some (FS.KFile _) => prepare_staging w = (Raise NotADirectoryError, w)
  | _ => ∃ t0, prepare_staging w = (Ok tt, World t0 (w_out w))
               ∧ FS.lookup t0 staging_folder = Some (Dir [])
               ∧ ∀ q, ¬ staging_folder `prefix_of` q → FS.stat t0 q = FS.stat (w_fs w) q
  end.
Proof.
  intros Hroot. pose proof (prepare_staging_runs w Hroot) as Hrun.
  assert (Hframe : ∀ t0, prepare_staging w = (Ok tt, World t0 (w_out w)) →
            ∀ q, ¬ staging_folder `prefix_of` q → FS.stat t0 q = FS.stat (w_fs w) q).
  { intros t0 [_ Hstat]%prepare_staging_stat q Hq. cbn [w_fs] in Hstat.
    rewrite Hstat. rewrite (bool_decide_eq_false_2 (staging_folder `prefix_of` q)) by done.
    case_bool_decide as Hpre; [|done].
    destruct q as [|y q]; [done|]. destruct Hq.
    destruct Hpre as [k Hk]. injection Hk as <- Hk.
    destruct q; [by exists [] | done]. }
  destruct (FS.stat (w_fs w) staging_folder) as [[c|]|]; [done| |];
    destruct Hrun as (t0 & Hrun & Hlook); exists t0; auto.
Qed.

Lemma X5_witness :
  ∃ t0, prepare_staging (World demo_tree []) = (Ok tt, World t0 [])
        ∧ FS.lookup t0 staging_folder = Some (Dir [])
        ∧ ∀ q, ¬ staging_folder `prefix_of` q → FS.stat t0 q = FS.stat demo_tree q.
Proof.
  apply (X5_staging_folder_starts_empty (World demo_tree [])). reflexivity.
Defined.

(** ** What a run writes to *)

Section Frames.

Import FS.

Variable unreadable : path → bool.
Variables rp sf : path.

Lemma stat_prefix_of_dir t p q :
  q `prefix_of` p → stat t p = Some KDir → stat t q = Some KDir.
Proof.
  intros [k ->] H. destruct k as [|x k]; [by rewrite app_nil_r in H|].
  apply (stat_prefix_dir t q (x :: k)); [by rewrite H | done].
Qed.

Lemma dirname_prefix (p : path) : dirname p `prefix_of` p.
Proof.
  destruct (decide (p = [])) as [->|Hp]; [done|].
  destruct (dirname_proper p Hp) as [x Hx]. by exists [x].
Qed.

Lemma ensure_dir_confined t p t1 :
  stat t sf = Some KDir → ensure_dir t (dirname (sf ++ p)) = Ok t1 →
  stat t1 sf = Some KDir ∧ ∀ q, ¬ sf `prefix_of` q → stat t1 q = stat t q.
Proof.
  intros Hsf Hmk. unfold ensure_dir in Hmk.
  destruct (exists_ t (dirname (sf ++ p))); [by simplify_eq|].
  pose proof (makedirs_stat _ _ _ Hmk) as Hstat.
  assert (Hcase : ∀ q, q `prefix_of` dirname (sf ++ p) →
                       q `prefix_of` sf ∨ sf `prefix_of` q).
  { intros q Hq. destruct (decide (p = [])) as [->|Hp].
    - rewrite app_nil_r in Hq. left. etrans; [done | apply dirname_prefix].
    - rewrite dirname_app in Hq by done.
      destruct (prefix_of_app_cases _ _ _ Hq) as [?|(q' & -> & _)];
        [by left | right; by exists q']. }
  split.
  - specialize (Hstat sf). case_bool_decide; [by destruct Hstat | congruence].
  - intros q Hq. specialize (Hstat q). case_bool_decide as Hpre; [|done].
    destruct Hstat as [-> _]. destruct (Hcase q Hpre) as [H|H]; [|done].
    symmetry. by eapply stat_prefix_of_dir.
Qed.

Lemma copy2_confined t src p t2 :
  stat t sf = Some KDir → copy2 unreadable t src (sf ++ p) = Ok t2 →
  stat t2 sf = Some KDir ∧ ∀ q, ¬ sf `prefix_of` q → stat t2 q = stat t q.
Proof.
  unfold copy2. intros Hsf H.
  destruct (lookup t src) as [[c|]|]; [|done..].
  case_bool_decide; [done|]. destruct (unreadable src); [done|].
  pose proof (write_file_stat _ _ _ _ H) as Hstat.
  assert (Hdst : ∃ k, (if isdir t (sf ++ p) then (sf ++ p) ++ [basename src] else sf ++ p)
                      = sf ++ k ∧ k ≠ []).
  { destruct (isdir t (sf ++ p)) eqn:E.
    - exists (p ++ [basename src]). rewrite app_assoc. split; [done|]. by destruct p.
    - exists p. split; [done|]. intros ->. rewrite app_nil_r in E.
      apply isdir_stat in Hsf. congruence. }
  destruct Hdst as (k & Hk & Hne). rewrite Hk in Hstat. split.
  - rewrite Hstat. rewrite bool_decide_eq_false_2; [done|].
    intros Heq. apply Hne. apply (app_inv_head sf). by rewrite app_nil_r.
  - intros q Hq. rewrite Hstat. rewrite bool_decide_eq_false_2; [done|].
    intros ->. apply Hq. by exists k.
Qed.

Lemma stage_file_confined acc p :
  respects (confined_to sf) (stage_file unreadable rp sf acc p).
Proof.
  unfold stage_file. respects_tac; try apply confined_to_log.
  - intros Hsf. by eapply ensure_dir_confined.
  - intros Hsf. by eapply copy2_confined.
Qed.

Lemma copy_loop_confined cf acc :
  respects (confined_to sf) (copy_loop unreadable rp sf acc cf).
Proof.
  revert acc. induction cf as [|p cf IH]; intros acc; cbn [copy_loop].
  - apply respects_ret.
  - apply respects_bind; [apply stage_file_confined | done].
Qed.

Lemma copy_files_confined cf :
  respects (confined_to sf) (copy_files_to_staging unreadable cf rp sf).
Proof. apply copy_loop_confined. Qed.

#[local] Hint Resolve confined_to_log copy_files_confined : respects.

(** X6: when the staging folder is a directory, [copy_files_to_staging]
    writes inside it only: whatever the list of paths and however the
    call ends, the staging folder is still a directory and every path
    that is not inside it is what it was before, in kind and content. *)
Theorem X6_copier_writes_inside_staging_only cf w res w' :
  stat (w_fs w) sf = Some KDir →
  copy_files_to_staging unreadable cf rp sf w = (res, w') →
  stat (w_fs w') sf = Some KDir
  ∧ ∀ q, ¬ sf `prefix_of` q → stat (w_fs w') q = stat (w_fs w) q.
Proof.
  intros Hsf Hrun. by apply (copy_loop_confined cf ∅ w res w' Hrun).
Qed.

Variable r : repo.
Variable commits : list commit.

Lemma select_step_confined st line :
  respects (confined_to sf) (select_step unreadable r commits rp sf st line).
Proof.
  unfold select_step. respects_tac.
Qed.

#[local] Hint Resolve select_step_confined : respects.

Lemma selection_loop_confined lines st :
  respects (confined_to sf) (selection_loop unreadable r commits rp sf st lines).
Proof.
  revert st. induction lines as [|line lines IH]; intros st; cbn [selection_loop].
  - respects_tac.
  - respects_tac.
Qed.

End Frames.
Lemma X6_witness :
  let run := copy_files_to_staging (λ _, false)
               [["a.txt"]; ["gone"]; ["b"; "c.txt"]]%string
               repo_path staging_folder (World demo_tree []) in
  FS.stat (w_fs run.2) staging_folder = Some FS.KDir
  ∧ ∀ q, ¬ staging_folder `prefix_of` q → FS.stat (w_fs run.2) q = FS.stat demo_tree q.
Proof.
  intros run.
  apply (X6_copier_writes_inside_staging_only (λ _, false) repo_path staging_folder
           [["a.txt"]; ["gone"]; ["b"; "c.txt"]]%string (World demo_tree []) run.1 run.2);
    [reflexivity | apply surjective_pairing].
Defined.

(** ** What a run prints, and what it leaves alone *)

Section Traces.

Variable P : event → Prop.
Hypothesis P_printed : ∀ m, P (Printed m).

Lemma emits_only_print w m : emits_only P w (log w (Printed m)).
Proof. apply emits_only_log, P_printed. Qed.

#[local] Hint Resolve emits_only_print emits_only_fs : respects.

Variable unreadable : path → bool.

Lemma stage_file_emits rp sf acc p :
  respects (emits_only P) (stage_file unreadable rp sf acc p).
Proof. unfold stage_file. respects_tac. Qed.

Lemma copy_files_emits cf rp sf :
  respects (emits_only P) (copy_files_to_staging unreadable cf rp sf).
Proof.
  unfold copy_files_to_staging. generalize (∅ : gset path).
  induction cf as [|p cf IH]; intros acc; cbn [copy_loop].
  - apply respects_ret.
  - apply respects_bind; [apply stage_file_emits | done].
Qed.

Lemma prepare_staging_emits : respects (emits_only P) prepare_staging.
Proof. unfold prepare_staging. respects_tac. Qed.

Lemma create_manifest_emits s sf : respects (emits_only P) (create_manifest s sf).
Proof. unfold create_manifest. respects_tac. Qed.

Lemma zip_staging_folder_emits sf zn : respects (emits_only P) (zip_staging_folder sf zn).
Proof. unfold zip_staging_folder. respects_tac. Qed.

#[local] Hint Resolve create_manifest_emits zip_staging_folder_emits : respects.

Lemma finish_emits commits st : respects (emits_only P) (finish commits st).
Proof. unfold finish. respects_tac. Qed.

End Traces.

Section Prompts.

Context {R : relation world} `{!PreOrder R}.
Hypothesis R_log : ∀ w e, R w (log w e).

#[local] Hint Resolve R_log : respects.

Lemma ask_date_respects p retry lines : respects R (ask_date p retry lines).
Proof. induction lines as [|line lines IH]; cbn [ask_date]; respects_tac. Qed.

Lemma get_commits_respects r branch s e :
  respects R (get_commits_between_dates r branch s e).
Proof. unfold get_commits_between_dates. respects_tac. Qed.

End Prompts.

(** ** The run of [main] *)

Lemma emits_any_log w e : emits_only (λ _, True) w (log w e).
Proof. by apply emits_only_log. Qed.

Lemma above_staging_folder q :
  q `prefix_of` staging_folder → ¬ staging_folder `prefix_of` q → q = [].
Proof.
  intros [k Hk] Hq. destruct q as [|y q]; [done|]. destruct Hq.
  injection Hk as <- Hk. destruct q; [by exists [] | done].
Qed.

Section Whole_run.

Variable unreadable : path → bool.
Variable r : repo.
Variable commits : list commit.

#[local] Hint Resolve emits_any_log emits_only_fs : respects.

Lemma select_step_emits rp sf st line :
  respects (emits_only (λ _, True)) (select_step unreadable r commits rp sf st line).
Proof.
  assert (H : ∀ cf, respects (emits_only (λ _, True))
                      (copy_files_to_staging unreadable cf rp sf))
    by (intros; by apply copy_files_emits).
  unfold select_step. respects_tac.
Qed.

#[local] Hint Resolve select_step_emits : respects.

Lemma selection_loop_emits rp sf lines st :
  respects (emits_only (λ _, True)) (selection_loop unreadable r commits rp sf st lines).
Proof.
  revert st. induction lines as [|line lines IH]; intros st; cbn [selection_loop];
    respects_tac.
Qed.

(** Lines 133 to 190 *)
Lemma selection_phase_emits lines :
  respects (emits_only (λ _, True))
    (print Instructions ;;;
     prepare_staging ;;;
     do (st, _) <- selection_loop unreadable r commits repo_path staging_folder
                     (Selection ∅ []) lines;
     finish commits st).
Proof.
  assert (H1 : respects (emits_only (λ _, True)) prepare_staging)
    by (by apply prepare_staging_emits).
  assert (H2 : ∀ st, respects (emits_only (λ _, True)) (finish commits st))
    by (intros; by apply finish_emits).
  assert (H3 := selection_loop_emits repo_path staging_folder lines).
  respects_tac.
Qed.

Lemma unchanged_outside_sub (T : path → Prop) sf w w' :
  (∀ q, sf `prefix_of` q → T q) →
  FS.stat (w_fs w) sf = Some FS.KDir → confined_to sf w w' →
  unchanged_outside T w w'.
Proof.
  intros Hsub Hsf Hc q Hq. destruct (Hc Hsf) as [_ Hout]. apply Hout. auto.
Qed.

Lemma prepare_staging_outside : respects (unchanged_outside written_by_main) prepare_staging.
Proof.
  unfold prepare_staging. respects_tac.
  - intros q Hq. cbn [w_fs]. rewrite (rmtree_stat _ _ _ H q).
    rewrite bool_decide_eq_false_2; [done|]. intros ?. apply Hq. by left.
  - intros q Hq. cbn [w_fs]. pose proof (makedirs_stat _ _ _ H q) as Hs.
    case_bool_decide as Hpre; [|done].
    assert (q = []) as ->
      by (apply above_staging_folder; [done|]; intros ?; apply Hq; by left).
    by destruct Hs as [-> [?| ->]].
Qed.

Lemma write_file_outside (T : path → Prop) d c w t :
  T d → FS.write_file (w_fs w) d c = Ok t →
  unchanged_outside T w (World t (w_out w)).
Proof.
  intros Hd H q Hq. cbn [w_fs]. rewrite (write_file_stat _ _ _ _ H).
  rewrite bool_decide_eq_false_2; [done|]. by intros ->.
Qed.

Lemma finish_outside st : respects (unchanged_outside written_by_main) (finish commits st).
Proof.
  unfold finish, create_manifest, zip_staging_folder.
  respects_tac; try apply unchanged_outside_log;
    (eapply write_file_outside; [|done]); [left; by eexists | by right | by right].
Qed.

Lemma selection_phase_outside lines :
  respects (unchanged_outside written_by_main)
    (print Instructions ;;;
     prepare_staging ;;;
     do (st, _) <- selection_loop unreadable r commits repo_path staging_folder
                     (Selection ∅ []) lines;
     finish commits st).
Proof.
  apply respects_bind; [apply respects_emit; intros; apply unchanged_outside_log|].
  intros _.
  intros w res w'. unfold bind.
  destruct (prepare_staging w) as [[[]|e] w0] eqn:Hp.
  2:{ intros [= <- <-]. by eapply prepare_staging_outside. }
  destruct (selection_loop _ _ _ _ _ _ _ w0) as [[[st rest]|e] w1] eqn:Hl.
  - intros Hf. transitivity w0; [by eapply prepare_staging_outside|].
    transitivity w1; [|by eapply finish_outside].
    apply (unchanged_outside_sub _ staging_folder); [by left| |].
    + apply prepare_staging_stat in Hp as [_ ->]. by rewrite bool_decide_eq_true_2.
    + by eapply selection_loop_confined.
  - intros [= <- <-]. transitivity w0; [by eapply prepare_staging_outside|].
    apply (unchanged_outside_sub _ staging_folder); [by left| |].
    + apply prepare_staging_stat in Hp as [_ ->]. by rewrite bool_decide_eq_true_2.
    + by eapply selection_loop_confined.
Qed.

End Whole_run.

#[local] Hint Resolve unchanged_outside_log selection_phase_outside : respects.

Lemma main_outside unreadable git lines :
  respects (unchanged_outside written_by_main) (main unreadable git lines).
Proof.
  assert (H1 := @ask_date_respects _ _ (unchanged_outside_log written_by_main)).
  assert (H2 := @get_commits_respects _ _ (unchanged_outside_log written_by_main)).
  unfold main. respects_tac.
Qed.

(** X7: whatever the backend, the lines typed and the way the run ends,
    [main] writes nowhere but in [staging_folder] and to
    [staged_commits.zip]: every other path of the working tree is what it
    was before the run, in kind and content. *)
Theorem X7_main_writes_staging_and_archive_only unreadable git lines w res w' :
  main unreadable git lines w = (res, w') →
  ∀ q, ¬ staging_folder `prefix_of` q → q ≠ zip_filename →
       FS.stat (w_fs w') q = FS.stat (w_fs w) q.
Proof.
  intros Hrun q Hq Hz. apply (main_outside unreadable git lines w res w' Hrun).
  by intros [?|?].
Qed.

Lemma X7_witness :
  ∃ res w',
    main (λ _, false) (Ok demo_repo) ["01/01/2024"; "31/12/2024"; "1"; "0"; "e"]%string
      (World demo_tree [])
    = (res, w')
    ∧ ∀ q, ¬ staging_folder `prefix_of` q → q ≠ zip_filename →
           FS.stat (w_fs w') q = FS.stat demo_tree q.
Proof.
  eexists _, _. split; [vm_compute; reflexivity|].
  eapply (X7_main_writes_staging_and_archive_only (λ _, false) (Ok demo_repo)
            ["01/01/2024"; "31/12/2024"; "1"; "0"; "e"]%string (World demo_tree [])).
  vm_compute. reflexivity.
Defined.

Global Instance changes_only_after_listing_preorder : PreOrder changes_only_after_listing.
Proof.
  split.
  - intros w. exists []. rewrite app_nil_r. auto.
  - intros w1 w2 w3 (e1 & H1 & F1) (e2 & H2 & F2). exists (e1 ++ e2).
    split; [by rewrite H2, H1, app_assoc|].
    destruct F1 as [F1 | (cs & ? & ?)]; [|right; exists cs; set_solver].
    destruct F2 as [F2 | (cs & ? & ?)]; [left; congruence|right; exists cs; set_solver].
Qed.

Lemma changes_only_after_listing_log w e : changes_only_after_listing w (log w e).
Proof. exists [e]. auto. Qed.

Lemma listing_branch unreadable r c cs lines :
  respects changes_only_after_listing
    (print (CommitListing (c :: cs)) ;;;
     print Instructions ;;;
     prepare_staging ;;;
     do (st, _) <- selection_loop unreadable r (c :: cs) repo_path staging_folder
                     (Selection ∅ []) lines;
     finish (c :: cs) st).
Proof.
  intros w res w'. unfold bind at 1. cbn [print emit].
  intros (evs & Hout & _)%selection_phase_emits.
  exists (Printed (CommitListing (c :: cs)) :: evs). split.
  - rewrite Hout. cbn. by rewrite <- app_assoc.
  - right. exists (c :: cs). split; [done | by left].
Qed.

(** X8: [main] touches the file system only after it has found commits.
    If a run changes anything, it has printed a list of commits that is
    not empty; so when the repository cannot be opened, HEAD is detached,
    the input ends during the date prompts, the range is rejected or
    holds no commit, or the backend fails, the staging folder and the
    archive of an earlier run are left as they were. *)
Theorem X8_nothing_written_before_commits_are_listed unreadable git lines w res w' :
  main unreadable git lines w = (res, w') →
  ∃ evs, w_out w' = w_out w ++ evs
         ∧ (w_fs w' = w_fs w ∨ ∃ cs, cs ≠ [] ∧ Printed (CommitListing cs) ∈ evs).
Proof.
  revert w res w'. change (respects changes_only_after_listing (main unreadable git lines)).
  assert (H1 := @ask_date_respects _ _ changes_only_after_listing_log).
  assert (H2 := @get_commits_respects _ _ changes_only_after_listing_log).
  assert (H3 := changes_only_after_listing_log).
  assert (H4 := listing_branch unreadable).
  unfold main. respects_tac.
Qed.

(** X9: a start date later than the end date is not asked for again.
    When the first line typed at each date prompt parses and the start is
    later than the end, [main] echoes the range, prints "start date must
    be earlier" and then "no commits found", and returns: the backend is
    not queried, no index is asked for, the file system is untouched. *)
Theorem X9_inverted_range_ends_the_run unreadable r start_line end_line rest ds de w :
  head_is_detached r = false →
  parse_date_input (Text.strip start_line) = Some ds →
  parse_date_input (Text.strip end_line) = Some de →
  date_later ds de →
  main unreadable (Ok r) (start_line :: end_line :: rest) w
  = (Ok tt,
     World (w_fs w)
       (w_out w ++ [Printed (CurrentBranch (active_branch r));
                    Input AskStartDate; Input AskEndDate;
                    Printed (SelectedRange (Text.strip start_line) (Text.strip end_line));
                    Printed StartAfterEnd; Printed NoCommitsFound])).
Proof.
  intros Hhead Hs He Hlater. unfold main. rewrite Hhead.
  unfold bind at 1. cbn [print emit].
  unfold bind at 1. cbn [ask_date]. rewrite Hs. unfold bind at 1. cbn [emit ret].
  unfold bind at 1. cbn [ask_date]. rewrite He. unfold bind at 1. cbn [emit ret].
  unfold bind at 1. cbn [print emit].
  unfold bind at 1. unfold get_commits_between_dates. rewrite Hs, He.
  rewrite (datetime_gt_later _ _ Hlater).
  unfold bind, print, emit, ret, log. cbn. by rewrite <- !app_assoc.
Qed.

Lemma X9_witness :
  main (λ _, false) (Ok demo_repo) [" 10/03/2024"; "01/03/2024 "; "0"]%string
    (World demo_tree [])
  = (Ok tt,
     World demo_tree
       [Printed (CurrentBranch "main"); Input AskStartDate; Input AskEndDate;
        Printed (SelectedRange "10/03/2024" "01/03/2024");
        Printed StartAfterEnd; Printed NoCommitsFound]).
Proof.
  apply (X9_inverted_range_ends_the_run (λ _, false) demo_repo
           " 10/03/2024"%string "01/03/2024 "%string ["0"%string]
           (Datetime 2024 3 10) (Datetime 2024 3 1) (World demo_tree []));
    [reflexivity | reflexivity | reflexivity |].
  right. split; [reflexivity|]. right. split; [reflexivity|]. simpl. lia.
Defined.

(** ** Merge commits *)

Section First_parent.

Variable unreadable : path → bool.
Variable r : repo.
Variable commits : list commit.
Variables rp sf : path.

(** X10: a commit with several parents is compared with its first
    parent only. Selecting a commit that has parents asks the backend
    for one diff, between the first parent and the commit, right after
    the "processing" message; whatever the outcome, everything else the
    step does is print, and no other diff is requested. *)
Theorem X10_diff_against_first_parent_only st line index commit parent others w res w' :
  Text.int (Text.lower (Text.strip line)) = Some index →
  (0 ≤ index)%Z →
  commits !! Z.to_nat index = Some commit →
  parents commit = parent :: others →
  select_step unreadable r commits rp sf st line w = (res, w') →
  ∃ evs, w_out w' = w_out w ++ Printed (Processing commit index)
                              :: GitDiff parent (hexsha commit) :: evs
         ∧ Forall is_Printed evs.
Proof.
  intros Hint Hpos Hlook Hpar.
  assert (Hrange : ((0 <=? index)%Z && (index <? Z.of_nat (length commits))%Z) = true).
  { apply lookup_lt_Some in Hlook. apply andb_true_intro. split.
    - by apply Z.leb_le.
    - apply Z.ltb_lt. lia. }
  rewrite select_step_unfold. cbv zeta.
  rewrite (int_not_token _ _ Hint), Hint, Hrange, Hlook, Hpar.
  assert (Hone : ∀ w0 m, w_out w0 = w_out w ++ [Printed (Processing commit index);
                                               GitDiff parent (hexsha commit)] →
            ∃ evs, w_out (log w0 (Printed m))
                   = w_out w ++ Printed (Processing commit index)
                                :: GitDiff parent (hexsha commit) :: evs
                   ∧ Forall is_Printed evs).
  { intros w0 m Hw0. exists [Printed m]. cbn. rewrite Hw0, <- app_assoc.
    split; [done | by repeat constructor]. }
  assert (Hw2 : w_out (log (log w (Printed (Processing commit index)))
                          (GitDiff parent (hexsha commit)))
                = w_out w ++ [Printed (Processing commit index);
                              GitDiff parent (hexsha commit)]).
  { cbn. by rewrite <- app_assoc. }
  destruct (diff_name_only r parent (hexsha commit)) as [[|f fs]|e].
  - intros [= <- <-]. by apply Hone.
  - destruct (copy_files_to_staging _ _ _ _ _) as [[staged|e] w3] eqn:Hcp.
    all: apply (copy_files_emits is_Printed) in Hcp as (evs & Hout & Hall); [|done].
    all: rewrite Hw2, <- app_assoc in Hout.
    + intros [= <- <-]. exists (evs ++ [Printed (StagedCount (size staged) commit)]).
      cbn. rewrite Hout, <- app_assoc. split; [done|].
      apply Forall_app. split; [done | by repeat constructor].
    + destruct (is_ValueError e); intros [= <- <-].
      * exists (evs ++ [Printed InvalidInput]).
        cbn. rewrite Hout, <- app_assoc. split; [done|].
        apply Forall_app. split; [done | by repeat constructor].
      * by exists evs.
  - destruct (is_ValueError e); intros [= <- <-]; [by apply Hone|].
    exists []. by rewrite Hw2.
Qed.

End First_parent.

Lemma X8_witness :
  ∃ res w',
    main (λ _, false) (Ok (Repo false "main" (λ _ _ _, Ok []) (λ _ _, Ok [])))
      ["01/01/2024"; "31/12/2024"; "0"]%string (World demo_tree [])
    = (res, w')
    ∧ ∃ evs, w_out w' = [] ++ evs
             ∧ (w_fs w' = demo_tree ∨ ∃ cs, cs ≠ [] ∧ Printed (CommitListing cs) ∈ evs).
Proof.
  eexists _, _. split; [vm_compute; reflexivity|].
  eapply (X8_nothing_written_before_commits_are_listed (λ _, false)
            (Ok (Repo false "main" (λ _ _ _, Ok []) (λ _ _, Ok [])))
            ["01/01/2024"; "31/12/2024"; "0"]%string (World demo_tree [])).
  vm_compute. reflexivity.
Defined.

Lemma X10_witness :
  let merge := Commit "abcdef0" 50 "merge" ["1111111"; "2222222"]%string in
  let r := Repo false "main" (λ _ _ _, Ok [merge])
             (λ a _, if String.eqb a "1111111" then Ok [["a.txt"%string]]
                     else Raise GitCommandError) in
  ∃ res w',
    select_step (λ _, false) r [merge] repo_path staging_folder (Selection ∅ [])
      "0" (World demo_tree [])
    = (res, w')
    ∧ ∃ evs, w_out w' = [] ++ Printed (Processing merge 0)
                              :: GitDiff "1111111" "abcdef0" :: evs
             ∧ Forall is_Printed evs.
Proof.
  intros merge r. eexists _, _. split; [vm_compute; reflexivity|].
  eapply (X10_diff_against_first_parent_only (λ _, false) r [merge] repo_path
            staging_folder (Selection ∅ []) "0"%string 0%Z merge "1111111"%string
            ["2222222"%string] (World demo_tree []));
    [reflexivity | lia | reflexivity | reflexivity | vm_compute; reflexivity].
Defined.

(** ** Properties of the tree that every run keeps *)

Global Instance keeps_preorder I : PreOrder (keeps I).
Proof. split; [by intros w H|]. intros w1 w2 w3 H1 H2 H. by apply H2, H1. Qed.

Lemma keeps_log I w e : keeps I w (log w e).
Proof. by intros H. Qed.

Section Well_formed.

Import FS.

Lemma wf_fresh_dirs d : wf (fresh_dirs d) = true.
Proof.
  induction d as [|n d IH]; [done|]. cbn [fresh_dirs]. apply wf_dir.
  split; [apply NoDup_singleton | by repeat constructor].
Qed.

Lemma wf_makedirs t d t1 : wf t = true → makedirs t d = Ok t1 → wf t1 = true.
Proof.
  revert t t1. induction d as [|n d IH]; intros t t1 Hwf H; simpl in H.
  - destruct t; by simplify_eq.
  - destruct t as [c0|es]; [done|].
    destruct (assoc n es) as [x|] eqn:Hn.
    + destruct (makedirs x d) as [x'|] eqn:Hx; [|done]. simplify_eq.
      apply wf_set_entry; [done|]. apply (IH x); [|done].
      by apply (wf_lookup (Dir es) [n]); [|simpl; rewrite Hn].
    + simplify_eq. apply wf_set_entry; [done | apply wf_fresh_dirs].
Qed.

Lemma wf_del_entry n es : wf (Dir es) = true → wf (Dir (del_entry n es)) = true.
Proof.
  rewrite !wf_dir. intros [Hnd Hall]. unfold del_entry.
  induction es as [|[m d] es IH]; [done|].
  apply NoDup_cons in Hnd as [Hm Hnd]. apply Forall_cons in Hall as [Hd Hall].
  destruct (IH Hnd Hall) as [Hnd' Hall']. cbn [List.filter fst].
  destruct (negb (String.eqb n m)); [|done].
  split; [|by constructor]. cbn. apply NoDup_cons. split; [|done].
  intros Hin. apply Hm. apply list_elem_of_fmap in Hin as ([m' d'] & -> & Hin).
  apply list_elem_of_In, filter_In in Hin as [Hin _].
  apply list_elem_of_fmap. exists (m', d'). split; [done|]. by apply list_elem_of_In.
Qed.

Lemma wf_rmtree t d t1 : wf t = true → rmtree t d = Ok t1 → wf t1 = true.
Proof.
  revert t t1. induction d as [|n d IH]; intros t t1 Hwf H; simpl in H; [done|].
  destruct t as [c0|es]; [done|].
  destruct (assoc n es) as [x|] eqn:Hn; [|done].
  destruct d as [|n' d].
  - destruct x; [done|]. simplify_eq. by apply wf_del_entry.
  - destruct (rmtree x (n' :: d)) as [x'|] eqn:Hx; [|done]. simplify_eq.
    apply wf_set_entry; [done|]. apply (IH x); [|done].
    by apply (wf_lookup (Dir es) [n]); [|simpl; rewrite Hn].
Qed.

Lemma wf_copy2 unreadable t src dst t1 :
  wf t = true → copy2 unreadable t src dst = Ok t1 → wf t1 = true.
Proof.
  unfold copy2. intros Hwf H. destruct (lookup t src) as [[c|]|]; [|done..].
  case_bool_decide; [done|]. destruct (unreadable src); [done|].
  by eapply wf_write_file.
Qed.

Lemma wf_ensure_dir t d t1 : wf t = true → ensure_dir t d = Ok t1 → wf t1 = true.
Proof.
  unfold ensure_dir. destruct (exists_ t d); [by intros ? [= <-]|]. apply wf_makedirs.
Qed.

End Well_formed.

Section Keeps_in_loops.

Variable I : node → Prop.
Variable unreadable : path → bool.
Variables rp sf : path.

(** One pass of the copy loop *)
Hypothesis I_stage : ∀ acc p, respects (keeps I) (stage_file unreadable rp sf acc p).

#[local] Hint Resolve keeps_log : respects.

Lemma copy_files_keeps cf :
  respects (keeps I) (copy_files_to_staging unreadable cf rp sf).
Proof.
  unfold copy_files_to_staging. generalize (∅ : gset path).
  induction cf as [|p cf IH]; intros acc; cbn [copy_loop].
  - apply respects_ret.
  - apply respects_bind; [apply I_stage | done].
Qed.

#[local] Hint Resolve copy_files_keeps : respects.

Lemma select_step_keeps r commits st line :
  respects (keeps I) (select_step unreadable r commits rp sf st line).
Proof. unfold select_step. respects_tac. Qed.

#[local] Hint Resolve select_step_keeps : respects.

Lemma selection_loop_keeps r commits lines st :
  respects (keeps I) (selection_loop unreadable r commits rp sf st lines).
Proof.
  revert st. induction lines as [|line lines IH]; intros st; cbn [selection_loop];
    respects_tac.
Qed.

End Keeps_in_loops.

(** Names stay unique within each directory. *)
Section Keeps_well_formed.

#[local] Hint Resolve keeps_log : respects.
#[local] Hint Extern 1 (keeps _ _ (World _ _)) =>
  (intros ?; cbn [w_fs] in *;
   first [ eapply wf_makedirs; eassumption | eapply wf_rmtree; eassumption
         | eapply wf_write_file; eassumption | eapply wf_ensure_dir; eassumption
         | eapply wf_copy2; eassumption ]) : respects.

Lemma stage_file_wf unreadable rp sf acc p :
  respects (keeps (λ t, wf t = true)) (stage_file unreadable rp sf acc p).
Proof. unfold stage_file. respects_tac. Qed.

Lemma prepare_staging_wf : respects (keeps (λ t, wf t = true)) prepare_staging.
Proof. unfold prepare_staging. respects_tac. Qed.

Lemma create_manifest_wf s sf : respects (keeps (λ t, wf t = true)) (create_manifest s sf).
Proof. unfold create_manifest. respects_tac. Qed.

End Keeps_well_formed.

(** ** The staging folder holds copies *)

Section Copies.

Import FS.

Variable unreadable : path → bool.
Variable sf : path.
Hypothesis sf_nonempty : sf ≠ [].

Lemma ensure_dir_files t d t1 :
  ensure_dir t d = Ok t1 →
  ∀ q c, stat t1 q = Some (KFile c) ↔ stat t q = Some (KFile c).
Proof.
  unfold ensure_dir. destruct (exists_ t d); [by intros [= <-]|].
  intros Hmk q c. pose proof (makedirs_stat _ _ _ Hmk q) as H.
  case_bool_decide; [|by rewrite H]. by destruct H as [-> [-> | ->]].
Qed.

(** One pass of the copy loop keeps the staging folder faithful. *)
Lemma stage_file_faithful acc p :
  respects (keeps (faithful sf)) (stage_file unreadable [] sf acc p).
Proof.
  intros w res w'. rewrite stage_file_unfold. cbn [app]. intros H [Hmir Hcp].
  destruct (exists_ (w_fs w) p) eqn:Hex; [|by simplify_eq].
  destruct (ensure_dir (w_fs w) (dirname (sf ++ p))) as [t1|] eqn:Hdir; [|by simplify_eq].
  destruct (ensure_dir_inv unreadable sf sf_nonempty _ _ _ Hex Hdir Hmir) as [Hmir1 _].
  pose proof (ensure_dir_files _ _ _ Hdir) as Hfiles.
  assert (Hcp1 : exact_copies sf t1).
  { intros q c Hq. apply Hfiles. apply Hcp. by apply Hfiles. }
  destruct (copy2 unreadable t1 p (sf ++ p)) as [t2|] eqn:Hcopy; [|by simplify_eq].
  simplify_eq. cbn [w_fs]. unfold copy2 in Hcopy.
  destruct (lookup t1 p) as [[c|]|] eqn:Hsrc; [|done..].
  assert (Hnd : isdir t1 (sf ++ p) = false).
  { destruct (isdir t1 (sf ++ p)) eqn:E; [|done]. apply Hmir1 in E.
    unfold isdir in E. by rewrite Hsrc in E. }
  rewrite Hnd in Hcopy. case_bool_decide as Hself; [done|].
  destruct (unreadable p); [done|].
  pose proof (write_file_stat _ _ _ _ Hcopy) as Hstat.
  assert (Hp : stat t1 p = Some (KFile c)) by (by apply stat_file_lookup).
  split.
  - intros q Hq. apply isdir_stat in Hq. rewrite Hstat in Hq.
    case_bool_decide; [done|]. apply isdir_stat, Hmir1 in Hq as Hq'.
    apply isdir_stat. rewrite Hstat. case_bool_decide as Heq; [|by apply isdir_stat].
    subst q. by rewrite Hnd in Hq'.
  - intros q c' Hq. rewrite Hstat in Hq. rewrite Hstat.
    case_bool_decide as E1.
    + apply app_inv_head in E1 as ->. injection Hq as <-.
      by rewrite bool_decide_eq_false_2.
    + apply Hcp1 in Hq. case_bool_decide as E2; [|done]. subst q.
      apply Hcp1 in Hq. congruence.
Qed.

Lemma prepare_staging_faithful w w0 :
  prepare_staging w = (Ok tt, w0) → faithful staging_folder (w_fs w0).
Proof.
  intros Hp. split; [by apply prepare_staging_inv in Hp as [? _]|].
  apply prepare_staging_stat in Hp as [_ Hstat]. intros q c. rewrite Hstat.
  case_bool_decide; [done|]. by rewrite bool_decide_eq_true_2 by (by exists q).
Qed.

End Copies.



(** ** The copier within a run *)

Section Copier_in_a_run.

Import FS.

Variable unreadable : path → bool.
Variable sf : path.
Hypothesis sf_nonempty : sf ≠ [].

(** Where the staging folder is a faithful partial copy, the directory
    of a destination can always be made. *)
Lemma ensure_dir_returns t p :
  faithful sf t → stat t sf = Some KDir → exists_ t p = true →
  ∃ t1, ensure_dir t (dirname (sf ++ p)) = Ok t1.
Proof.
  intros [_ Hcopies] Hsf Hex. unfold ensure_dir.
  destruct (exists_ t (dirname (sf ++ p))); [by eexists|].
  apply makedirs_ok. intros q c Hq Hfile.
  assert (Habove : ∀ q', q' `prefix_of` sf → stat t q' ≠ Some (KFile c)).
  { intros q' Hq'. by rewrite (stat_prefix_of_dir t sf q' Hq' Hsf). }
  destruct (decide (p = [])) as [->|Hp].
  - rewrite app_nil_r in Hq. apply (Habove q); [|done].
    etrans; [done | apply dirname_prefix].
  - rewrite dirname_app in Hq by done.
    destruct (prefix_of_app_cases _ _ _ Hq) as [H | (q' & -> & [k Hk])].
    + by apply (Habove q).
    + apply Hcopies in Hfile. destruct (dirname_proper p Hp) as [x Hx].
      apply stat_exists in Hex.
      rewrite (stat_prefix_dir t q' (k ++ [x])) in Hfile; [done| |by destruct k].
      by rewrite app_assoc, <- Hk, <- Hx.
Qed.

Lemma stage_file_returns acc p w :
  faithful sf (w_fs w) → stat (w_fs w) sf = Some KDir →
  ∃ acc' w', stage_file unreadable [] sf acc p w = (Ok acc', w').
Proof.
  intros Hf Hsf. rewrite stage_file_unfold. cbn [app].
  destruct (exists_ (w_fs w) p) eqn:Hex; [|by eexists _, _].
  destruct (ensure_dir_returns _ _ Hf Hsf Hex) as [t1 ->].
  destruct (copy2 unreadable t1 p (sf ++ p)); by eexists _, _.
Qed.

Lemma copy_loop_returns cf acc w :
  faithful sf (w_fs w) → stat (w_fs w) sf = Some KDir →
  ∃ acc' w', copy_loop unreadable [] sf acc cf w = (Ok acc', w').
Proof.
  revert acc w. induction cf as [|p cf IH]; intros acc w Hf Hsf; [by eexists _, _|].
  cbn [copy_loop]. unfold bind.
  destruct (stage_file_returns acc p w Hf Hsf) as (acc1 & w1 & Hp). rewrite Hp.
  apply IH.
  - by eapply (stage_file_faithful unreadable sf sf_nonempty).
  - by eapply (stage_file_confined unreadable [] sf).
Qed.

Variable r : repo.
Variable commits : list commit.

Lemma select_step_raises st line w e w' :
  faithful sf (w_fs w) → stat (w_fs w) sf = Some KDir →
  select_step unreadable r commits [] sf st line w = (Raise e, w') →
  ∃ parent c, diff_name_only r parent c = Raise e.
Proof.
  intros Hf Hsf. rewrite select_step_unfold. cbv zeta.
  destruct (String.eqb _ "e"); [done|].
  destruct (Text.int _) as [index|]; [|done].
  destruct (_ && _)%bool; [|done].
  destruct (commits !! Z.to_nat index) as [commit|]; [|done].
  destruct (parents commit) as [|parent others]; [done|].
  destruct (diff_name_only r parent (hexsha commit)) as [[|f fs]|e'] eqn:Hdiff; [done| |].
  - unfold copy_files_to_staging.
    destruct (copy_loop_returns (f :: fs) ∅
                (log (log w (Printed (Processing commit index)))
                     (GitDiff parent (hexsha commit))) Hf Hsf) as (staged & w3 & Hcp).
    by rewrite Hcp.
  - destruct (is_ValueError e'); [done|]. intros [= <- <-]. by eexists _, _.
Qed.

Lemma selection_loop_raises lines st w e w' :
  faithful sf (w_fs w) → stat (w_fs w) sf = Some KDir →
  selection_loop unreadable r commits [] sf st lines w = (Raise e, w') →
  (e = EOFError ∧ Forall (λ l, ¬ ends_selection l) lines)
  ∨ ∃ parent c, diff_name_only r parent c = Raise e.
Proof.
  revert st w. induction lines as [|line lines IH]; intros st w Hf Hsf.
  { intros [= <- <-]. left. by split. }
  rewrite selection_loop_step.
  destruct (select_step _ _ _ _ _ _ _ _) as [[[st1|]|e1] w1] eqn:Hstep; [| done |].
  - intros H.
    assert (Hf1 : faithful sf (w_fs w1)).
    { by eapply (select_step_keeps (faithful sf) unreadable [] sf
                   (stage_file_faithful unreadable sf sf_nonempty) _ _ _ _ _ _ _ Hstep). }
    assert (Hsf1 : stat (w_fs w1) sf = Some KDir).
    { by eapply (select_step_confined unreadable [] sf _ _ _ _ _ _ _ Hstep). }
    destruct (IH _ _ Hf1 Hsf1 H) as [[-> Hall] | Hbackend]; [left|by right].
    split; [done|]. constructor; [|done].
    by apply select_step_next in Hstep as [? _].
  - intros [= <- <-]. right.
    eapply select_step_raises; cycle 2; [exact Hstep | exact Hf | exact Hsf].
Qed.

End Copier_in_a_run.



(** ** The archive of a run *)

Section Archive_of_run.

Import FS.

Lemma zip_members_of t sf :
  wf t = true →
  ∃ members,
    written (zip_members t sf) = (members, None) ∧ NoDup members.*1
    ∧ ∀ p c, In (p, c) members ↔ p ≠ [] ∧ lookup t (sf ++ p) = Some (File c).
Proof.
  intros Hwf. destruct (lookup t sf) as [top|] eqn:Hsf.
  - exists (files_below top).
    assert (Htop : wf top = true) by (by eapply wf_lookup).
    split; [by apply zip_members_files|]. split; [by apply files_below_NoDup|].
    intros p c. rewrite lookup_app, Hsf. by apply files_below_lookup.
  - exists []. unfold zip_members. rewrite Hsf. split; [done|].
    split; [constructor|]. intros p c. rewrite lookup_app, Hsf. simpl.
    split; [done | by intros [_ ?]].
Qed.

(** When the archiver returns, the archive holds the files that were
    below the staging folder once the archive file had been created. *)
Lemma zip_staging_folder_returns sf zn w w' :
  wf (w_fs w) = true →
  zip_staging_folder sf zn w = (Ok tt, w') →
  ∃ t1 members,
    write_file (w_fs w) zn (ZipArchive []) = Ok t1
    ∧ lookup (w_fs w') zn = Some (File (ZipArchive members))
    ∧ NoDup members.*1
    ∧ ∀ p c, In (p, c) members ↔ p ≠ [] ∧ lookup t1 (sf ++ p) = Some (File c).
Proof.
  intros Hwf. unfold zip_staging_folder, bind, fs_update, fs_query. cbn [w_fs w_out].
  destruct (write_file (w_fs w) zn (ZipArchive [])) as [t1|] eqn:Hcreate; [|done].
  cbn [w_fs w_out].
  destruct (zip_members_of t1 sf) as (members & Hw & Hnd & Hin).
  { by eapply wf_write_file. }
  rewrite Hw. cbn [fst snd].
  destruct (write_file t1 zn (ZipArchive members)) as [t2|] eqn:Hclose; [|done].
  intros [= <-]. exists t1, members. split; [done|]. split; [|done].
  cbn [w_fs]. apply stat_file_lookup. rewrite (write_file_stat _ _ _ _ Hclose).
  by rewrite bool_decide_eq_true_2.
Qed.

End Archive_of_run.



(** ** Edge cases of the archiver and of the manifest writer *)

Section Edge_cases.

Import FS.

Lemma write_file_same t d c t1 :
  write_file t d c = Ok t1 → write_file t1 d c = Ok t1.
Proof.
  revert t t1. induction d as [|n d IH]; intros t t1 H; simpl in H.
  - destruct t; by simplify_eq.
  - destruct t as [c0|es]; [done|].
    assert (Hset : ∀ x, set_entry n x (set_entry n x es) = set_entry n x es).
    { intros x. clear. induction es as [|[m y] es IHes]; simpl.
      - by rewrite String.eqb_refl.
      - destruct (String.eqb n m) eqn:E; simpl; rewrite E; [done | by rewrite IHes]. }
    destruct (assoc n es) as [x|] eqn:Hn.
    + destruct (write_file x d c) as [x'|] eqn:Hx; [|done]. simplify_eq.
      simpl. rewrite assoc_set_eq, (IH _ _ Hx). by rewrite Hset.
    + destruct d; [|done]. simplify_eq. simpl. rewrite assoc_set_eq. by rewrite Hset.
Qed.

(** X14: [os.walk] yields nothing for a path that is not a directory.
    When the staging folder does not exist, or is a regular file, and
    the archive file can be created, the archiver raises nothing: it
    leaves an archive without members and prints the success message. *)
Theorem X14_archive_of_missing_folder_is_empty sf zn w t1 :
  isdir (w_fs w) sf = false →
  write_file (w_fs w) zn (ZipArchive []) = Ok t1 →
  zip_staging_folder sf zn w
  = (Ok tt, World t1 (w_out w ++ [Printed (ZipCreated zn)]))
  ∧ lookup t1 zn = Some (File (ZipArchive [])).
Proof.
  intros Hsf Hcreate. pose proof (write_file_stat _ _ _ _ Hcreate) as Hstat.
  assert (Hnone : zip_members t1 sf = []).
  { unfold zip_members. destruct (lookup t1 sf) as [[c|es]|] eqn:Hl; [done| |done].
    destruct (decide (sf = zn)) as [->|Hne].
    - specialize (Hstat zn). rewrite bool_decide_eq_true_2 in Hstat by done.
      unfold stat in Hstat. by rewrite Hl in Hstat.
    - specialize (Hstat sf). rewrite bool_decide_eq_false_2 in Hstat by done.
      apply not_true_iff_false in Hsf. destruct Hsf. apply isdir_stat.
      rewrite <- Hstat. unfold stat. by rewrite Hl. }
  split.
  - unfold zip_staging_folder, bind, fs_update, fs_query, print, emit. cbn [w_fs w_out].
    rewrite Hcreate. cbn [w_fs w_out]. rewrite Hnone. cbn [written fst snd].
    match goal with
    | |- context [write_file t1 zn ?c] =>
        change (write_file t1 zn c) with (write_file t1 zn (ZipArchive []))
    end.
    by rewrite (write_file_same _ _ _ _ Hcreate).
  - apply stat_file_lookup. rewrite Hstat. by rewrite bool_decide_eq_true_2.
Qed.

(** A file can be written only where its parent is a directory and it is
    not one itself. *)
Lemma write_file_Ok_inv t d c t1 :
  write_file t d c = Ok t1 → d ≠ [] →
  stat t (dirname d) = Some KDir ∧ stat t d ≠ Some KDir.
Proof.
  revert t t1. induction d as [|n d IH]; intros t t1 H Hne; [done|].
  simpl in H. destruct t as [c0|es]; [done|].
  destruct d as [|n' d].
  - cbn [dirname removelast]. split; [done|]. rewrite stat_dir_cons.
    destruct (assoc n es) as [[|]|]; done.
  - assert (Hdn : dirname (n :: n' :: d) = n :: dirname (n' :: d)) by done.
    rewrite Hdn, !stat_dir_cons.
    destruct (assoc n es) as [x|]; [|done].
    destruct (write_file x (n' :: d) c) as [x'|] eqn:Hx; [|done].
    by apply (IH _ _ Hx).
Qed.

(** X15: [create_manifest] writes one file and makes no directory. It
    returns exactly when the staging folder is a directory and
    [changes.json] in it is not one: then the path returned is
    [staging_folder/changes.json], that file holds the manifest of the
    set, whatever it held before, and every other path is as it was.
    Otherwise [open] raises and nothing is changed. *)
Theorem X15_manifest_needs_the_folder_and_replaces_the_file s sf w :
  if isdir (w_fs w) sf && negb (isdir (w_fs w) (sf ++ ["changes.json"%string]))
  then ∃ t1, create_manifest s sf w
             = (Ok (sf ++ ["changes.json"%string]), World t1 (w_out w))
             ∧ ∀ q, stat t1 q
                    = if bool_decide (q = sf ++ ["changes.json"%string])
                      then Some (KFile (JsonText (manifest_of s)))
                      else stat (w_fs w) q
  else ∃ e, create_manifest s sf w = (Raise e, w).
Proof.
  unfold create_manifest, bind, fs_update, ret.
  assert (Hdir : dirname (sf ++ ["changes.json"%string]) = sf).
  { unfold dirname. by rewrite removelast_last. }
  destruct (isdir (w_fs w) sf && negb (isdir (w_fs w) (sf ++ ["changes.json"%string])))
    eqn:Hok.
  - apply andb_prop in Hok as [Hsf%isdir_stat Hfile%negb_true_iff].
    destruct (write_file_ok (w_fs w) (sf ++ ["changes.json"%string])
                (JsonText (manifest_of s))) as [t1 Hw].
    { by destruct sf. }
    { by rewrite Hdir. }
    { intros H%isdir_stat. congruence. }
    rewrite Hw. exists t1. split; [done|]. by apply write_file_stat.
  - destruct (write_file (w_fs w) _ _) as [t1|e] eqn:Hw; [|by exists e].
    apply write_file_Ok_inv in Hw as [Hsf Hfile]; [|by destruct sf].
    rewrite Hdir in Hsf. apply isdir_stat in Hsf. rewrite Hsf in Hok.
    destruct (isdir (w_fs w) (sf ++ ["changes.json"%string])) eqn:E; [|done].
    by apply isdir_stat in E.
Qed.

End Edge_cases.

Lemma X14_witness :
  zip_staging_folder ["staging_folder"%string] ["staged_commits.zip"%string]
    (World (Dir [("a.txt"%string, File (Bytes "A"))]) [])
  = (Ok tt,
     World (Dir [("a.txt"%string, File (Bytes "A"));
                 ("staged_commits.zip"%string, File (ZipArchive []))])
       [Printed (ZipCreated ["staged_commits.zip"%string])])
  ∧ FS.lookup (Dir [("a.txt"%string, File (Bytes "A"));
                    ("staged_commits.zip"%string, File (ZipArchive []))])
      ["staged_commits.zip"%string]
    = Some (File (ZipArchive [])).
Proof.
  apply (X14_archive_of_missing_folder_is_empty ["staging_folder"%string]
           ["staged_commits.zip"%string]
           (World (Dir [("a.txt"%string, File (Bytes "A"))]) []));
    reflexivity.
Defined.

(** ** Order of the commits and of the final listing *)

Lemma sort_key_reverse_fixed {A} (key : A → Z) l :
  StronglySorted (λ a b, (key b ≤ key a)%Z) l → sort_key_reverse key l = l.
Proof.
  unfold sort_key_reverse, stable_sort.
  induction 1 as [|x l Hl IH Hx]; [done|]. cbn [foldr]. rewrite IH.
  destruct l as [|y l]; [done|]. cbn [insert_by]. apply Forall_inv in Hx.
  destruct (Z.ltb_spec (key x) (key y)); [lia | done].
Qed.

(** X16: the query hands the list of the backend on as it is exactly
    when that list is already newest first. With a valid range and a
    backend that delivers the commits [cs], the list returned is [cs]
    itself, in the same order, if and only if no commit of [cs] is
    followed by a newer one. *)
Theorem X16_backend_order_kept_iff_newest_first r branch start_s end_s ds de cs w :
  parse_date_input start_s = Some ds →
  parse_date_input end_s = Some de →
  ¬ date_later ds de →
  iter_commits r branch (strftime_iso ds) (strftime_iso de) = Ok cs →
  (get_commits_between_dates r branch start_s end_s w).1 = Ok cs ↔ newest_first cs.
Proof.
  intros Hs He Hle Hcs. unfold get_commits_between_dates. rewrite Hs, He.
  destruct (datetime_gt ds de) eqn:Hgt.
  { by apply datetime_gt_inv in Hgt. }
  unfold bind, emit, lift, ret. cbn [fst]. rewrite Hcs. cbn [fst]. split.
  - intros [= Heq]. unfold newest_first. rewrite <- Heq.
    apply sort_key_reverse_sorted.
  - intros Hsorted. f_equal. by apply sort_key_reverse_fixed.
Qed.

Lemma X16_witness :
  let a := Commit "aaaaaaa" 10 "older" ["0000000"%string] in
  let b := Commit "bbbbbbb" 20 "newer" ["aaaaaaa"%string] in
  let r := Repo false "main" (λ _ _ _, Ok [b; a]) (λ _ _, Ok []) in
  (get_commits_between_dates r "main" "01/03/2024" "10/03/2024" (World (Dir []) [])).1
  = Ok [b; a] ↔ newest_first [b; a].
Proof.
  intros a b r.
  apply (X16_backend_order_kept_iff_newest_first r "main" "01/03/2024" "10/03/2024"
           (Datetime 2024 3 1) (Datetime 2024 3 10) [b; a] (World (Dir []) []));
    [reflexivity | reflexivity | | reflexivity].
  unfold date_later. simpl. lia.
Defined.

Lemma insert_by_ext {A} (f g : A → A → bool) x l :
  (∀ a b, f a b = g a b) → insert_by f x l = insert_by g x l.
Proof. intros H. induction l as [|y l IH]; [done|]. simpl. by rewrite H, IH. Qed.

Lemma sorted_ints_alt l : sorted_ints l = sort_key_reverse Z.opp l.
Proof.
  unfold sorted_ints, sort_key_reverse, stable_sort.
  induction l as [|x l IH]; [done|]. cbn [foldr]. rewrite IH.
  apply insert_by_ext. intros a b.
  destruct (Z.ltb_spec a b), (Z.ltb_spec (- b) (- a)); (done || lia).
Qed.

Lemma sorted_ints_perm l : Permutation (sorted_ints l) l.
Proof. rewrite sorted_ints_alt. apply sort_key_reverse_perm. Qed.

Lemma sorted_ints_sorted l : StronglySorted Z.le (sorted_ints l).
Proof.
  rewrite sorted_ints_alt. pose proof (sort_key_reverse_sorted Z.opp l) as H.
  induction H as [|x s Hs IH Hx]; constructor; [done|].
  eapply Forall_impl; [exact Hx|]. simpl. intros. lia.
Qed.

Lemma listing_rows (commits : list commit) l :
  Forall (λ i, is_Some (commits !! Z.to_nat i)) l →
  let rows := omap (λ idx, (λ c, (idx, c)) <$> commits !! Z.to_nat idx) l in
  rows.*1 = l ∧ Forall (λ row, commits !! Z.to_nat row.1 = Some row.2) rows.
Proof.
  induction 1 as [|i l [c Hc] _ [IH1 IH2]]; [done|].
  cbn [omap list_omap]. rewrite Hc. cbn. split; [by f_equal | by constructor].
Qed.

(** X17: the list of commits printed before the manifest is written has
    one row for every line typed that was the text of an index within
    the bounds of the commit list, even when an index was typed several
    times or named a root commit that was skipped; the rows come in
    ascending order of the index, and each shows the commit at that
    index. (The backend is taken not to raise [ValueError].) *)
Theorem X17_final_listing_shows_every_selection
    unreadable r commits rp sf lines w st rest w1 res w2 :
  (∀ a b, diff_name_only r a b ≠ Raise ValueError) →
  selection_loop unreadable r commits rp sf (Selection ∅ []) lines w
  = (Ok (st, rest), w1) →
  overall_changed_files st ≠ ∅ →
  finish commits st w1 = (res, w2) →
  ∃ before tok rows evs,
    lines = before ++ tok :: rest
    ∧ w_out w2 = w_out w1 ++ Printed (SelectedListing rows) :: evs
    ∧ Permutation rows.*1 (omap (chosen commits) before)
    ∧ StronglySorted Z.le rows.*1
    ∧ Forall (λ row, commits !! Z.to_nat row.1 = Some row.2) rows.
Proof.
  intros Hval Hloop Hne Hfin.
  destruct (selection_loop_recorded _ _ _ _ _ _ _ _ _ _ _ Hval Hloop)
    as (before & tok & Hlines & Hsel).
  cbn [selected_commit_indices app] in Hsel.
  apply selection_loop_in_range in Hloop; [|constructor].
  assert (Hsorted : Forall (λ i, is_Some (commits !! Z.to_nat i))
                      (sorted_ints (selected_commit_indices st))).
  { eapply Permutation_Forall; [symmetry; apply sorted_ints_perm | done]. }
  destruct (listing_rows commits _ Hsorted) as [Hfst Hrows].
  unfold finish in Hfin. rewrite bool_decide_eq_false_2 in Hfin by done.
  unfold bind at 1 in Hfin. cbn [print emit] in Hfin.
  assert (Hrest : respects (emits_only (λ _, True))
            (create_manifest (overall_changed_files st) staging_folder ;;;
             zip_staging_folder staging_folder zip_filename ;;; print Zipped)).
  { assert (H1 : ∀ s sf, respects (emits_only (λ _, True)) (create_manifest s sf))
      by (intros; by apply create_manifest_emits).
    assert (H2 : ∀ sf zn, respects (emits_only (λ _, True)) (zip_staging_folder sf zn))
      by (intros; by apply zip_staging_folder_emits).
    assert (H3 := emits_any_log). respects_tac. }
  apply Hrest in Hfin as (evs & Hout & _).
  eexists before, tok, _, evs. split; [done|]. split; [|split; [|split; [|exact Hrows]]].
  - rewrite Hout. cbn. by rewrite <- app_assoc.
  - rewrite Hfst, <- Hsel. apply sorted_ints_perm.
  - rewrite Hfst. apply sorted_ints_sorted.
Qed.


Lemma X17_witness :
  ∃ st w1 res w2,
    selection_loop (λ _, false) demo_repo demo_commits repo_path staging_folder
      (Selection ∅ []) ["1"; "2"; "9"; "0"; "1"; "e"]%string (World demo_tree [])
    = (Ok (st, []), w1)
    ∧ finish demo_commits st w1 = (res, w2)
    ∧ ∃ before tok rows evs,
        ["1"; "2"; "9"; "0"; "1"; "e"]%string = before ++ tok :: []
        ∧ w_out w2 = w_out w1 ++ Printed (SelectedListing rows) :: evs
        ∧ Permutation rows.*1 (omap (chosen demo_commits) before)
        ∧ StronglySorted Z.le rows.*1
        ∧ Forall (λ row, demo_commits !! Z.to_nat row.1 = Some row.2) rows.
Proof.
  eexists _, _, _, _. split; [vm_compute; reflexivity|].
  split; [vm_compute; reflexivity|].
  eapply (X17_final_listing_shows_every_selection (λ _, false) demo_repo demo_commits
            repo_path staging_folder ["1"; "2"; "9"; "0"; "1"; "e"]%string
            (World demo_tree []));
    [ | vm_compute; reflexivity | | vm_compute; reflexivity].
  - intros a b. simpl. by repeat case_match.
  - intros Hempty.
    apply (f_equal (λ s : gset path, bool_decide (["a.txt"%string] ∈ s))) in Hempty.
    by vm_compute in Hempty.
Defined.


(** ** Typing an index of the listing *)

Section Typed_index.

Local Open Scope Z_scope.

Lemma uint_chars d :
  Forall (λ c, Text.digit_val c ≠ None)
         (list_ascii_of_string (NilEmpty.string_of_uint d)).
Proof. induction d; cbn; constructor; done. Qed.

Lemma digits_of_uint d prev acc :
  d ≠ Decimal.Nil ∨ prev = true →
  Text.digits prev (Z.of_nat acc) (list_ascii_of_string (NilEmpty.string_of_uint d))
  = Some (Z.of_nat (Nat.of_uint_acc d acc)).
Proof.
  revert prev acc. induction d as [|d IH|d IH|d IH|d IH|d IH|d IH|d IH|d IH|d IH|d IH];
    intros prev acc H;
    cbn [NilEmpty.string_of_uint list_ascii_of_string Text.digits Nat.of_uint_acc];
    [by destruct H as [?| ->]|..].
  all: match goal with
       | |- context [Text.digit_val ?c] =>
           let v := eval vm_compute in (Text.digit_val c) in
           change (Text.digit_val c) with v
       end.
  all: cbv beta iota; rewrite <- (IH true) by (by right); f_equal;
       rewrite Nat.tail_mul_spec; lia.
Qed.

Lemma digit_not_space c : Text.digit_val c ≠ None → Text.isspace c = false.
Proof.
  unfold Text.digit_val, Text.isspace.
  destruct (Z.leb_spec 48 (code c)), (Z.leb_spec (code c) 57); try done. intros _.
  destruct (Z.leb_spec 9 (code c)), (Z.leb_spec (code c) 13),
    (Z.leb_spec 28 (code c)), (Z.leb_spec (code c) 32); (done || lia).
Qed.

Lemma digit_lower c : Text.digit_val c ≠ None → Text.lower_char c = c.
Proof.
  unfold Text.digit_val, Text.lower_char.
  destruct (Z.leb_spec 48 (code c)), (Z.leb_spec (code c) 57); try done. intros _.
  destruct (Z.leb_spec 65 (code c)), (Z.leb_spec (code c) 90); (done || lia).
Qed.

Lemma strip_word s :
  Forall (λ c, Text.isspace c = false) s → Text.rstrip (Text.lstrip s) = s.
Proof.
  intros Hs.
  assert (Hl : ∀ l, Forall (λ c, Text.isspace c = false) l → Text.lstrip l = l).
  { intros [|c l]; [done|]. intros [Hc _]%Forall_cons. by apply lstrip_nonspace. }
  rewrite (Hl s Hs). unfold Text.rstrip. rewrite Hl; [apply rev_involutive|].
  by apply Forall_rev.
Qed.

(** The decimal text of a number is read back as that number, and is
    not the termination token. *)
Lemma int_decimal i :
  Text.int (Text.lower (Text.strip (decimal i))) = Some (Z.of_nat i).
Proof.
  unfold decimal. pose proof (Unsigned.of_to i) as Hi. unfold Nat.of_uint in Hi.
  destruct (Nat.to_uint i) as [|d|d|d|d|d|d|d|d|d|d] eqn:Hd;
    [cbn in Hi; by subst i|..].
  all: cbn [NilZero.string_of_uint].
  all: match goal with
       | |- context [NilEmpty.string_of_uint ?u] =>
           pose proof (uint_chars u) as Hchars;
           assert (Hnil : u ≠ Decimal.Nil) by discriminate;
           pose proof (digits_of_uint u false 0%nat (or_introl Hnil)) as Hval;
           rewrite Hi in Hval; clear Hnil Hd Hi;
           set (s := NilEmpty.string_of_uint u) in *
       end.
  all: assert (Hstrip : Text.strip s = s)
         by (unfold Text.strip; rewrite strip_word;
             [apply string_of_list_ascii_of_string|];
             eapply Forall_impl; [exact Hchars | apply digit_not_space]).
  all: assert (Hlower : Text.lower s = s)
         by (unfold Text.lower;
             rewrite <- (string_of_list_ascii_of_string s) at 2; f_equal;
             rewrite <- (map_id (list_ascii_of_string s)) at 2;
             apply map_ext_Forall; eapply Forall_impl; [exact Hchars | apply digit_lower]).
  all: rewrite Hstrip, Hlower; unfold Text.int;
       rewrite (strip_word (list_ascii_of_string s))
         by (eapply Forall_impl; [exact Hchars | apply digit_not_space]).
  all: subst s; cbn [NilEmpty.string_of_uint list_ascii_of_string] in *.
  all: cbn [Ascii.eqb Bool.eqb]; exact Hval.
Qed.

Variable unreadable : path → bool.
Variable r : repo.
Variable commits : list commit.
Variables rp sf : path.

(** X19: typing an index as the listing shows it selects the commit
    listed under it. For every position [i] of the commit list, the
    decimal text of [i] is accepted as the index [i], and the step it
    starts begins with the "processing" message for the commit at that
    position. *)
Theorem X19_typing_a_listed_index_selects_its_commit st i c w res w' :
  commits !! i = Some c →
  select_step unreadable r commits rp sf st (decimal i) w = (res, w') →
  chosen commits (decimal i) = Some (Z.of_nat i)
  ∧ ∃ evs, w_out w' = w_out w ++ Printed (Processing c (Z.of_nat i)) :: evs.
Proof.
  intros Hc.
  assert (Hrange : ((0 <=? Z.of_nat i) && (Z.of_nat i <? Z.of_nat (length commits))) = true).
  { apply lookup_lt_Some in Hc. apply andb_true_intro. split.
    - apply Z.leb_le. lia.
    - apply Z.ltb_lt. lia. }
  intros Hstep. split.
  { unfold chosen. by rewrite int_decimal, Hrange. }
  revert Hstep. unfold select_step. rewrite (int_not_token _ _ (int_decimal i)), int_decimal.
  unfold try_except, bind at 1, lift. rewrite Hrange, Nat2Z.id, Hc.
  unfold bind at 1. cbn [print emit].
  set (rest := match parents c with [] => _ | _ => _ end).
  assert (Hrest : respects (emits_only (λ _, True)) rest).
  { assert (H : ∀ cf, respects (emits_only (λ _, True))
                        (copy_files_to_staging unreadable cf rp sf))
      by (intros; by apply copy_files_emits).
    assert (H1 := emits_any_log). subst rest. respects_tac. }
  destruct (rest _) as [[next|e] w1] eqn:Hrun; apply Hrest in Hrun as (evs & Hout & _).
  - intros [= <- <-]. exists evs. rewrite Hout. cbn. by rewrite <- app_assoc.
  - destruct (is_ValueError e).
    + unfold bind, print, emit, ret. intros [= <- <-].
      exists (evs ++ [Printed InvalidInput]). cbn. rewrite Hout. cbn.
      by rewrite <- !app_assoc.
    + intros [= <- <-]. exists evs. rewrite Hout. cbn. by rewrite <- app_assoc.
Qed.

End Typed_index.

Lemma X19_witness :
  let run := select_step (λ _, false) demo_repo demo_commits repo_path staging_folder
               (Selection ∅ []) (decimal 1) (World demo_tree []) in
  chosen demo_commits (decimal 1) = Some 1%Z
  ∧ ∃ evs, w_out run.2
           = [] ++ Printed (Processing (Commit "c2c2c2c" 200 "second" ["c1c1c1c"%string]) 1)
                   :: evs.
Proof.
  intros run.
  apply (X19_typing_a_listed_index_selects_its_commit (λ _, false) demo_repo demo_commits
           repo_path staging_folder (Selection ∅ []) 1
           (Commit "c2c2c2c" 200 "second" ["c1c1c1c"%string]) (World demo_tree [])
           run.1 run.2); [reflexivity | apply surjective_pairing].
Defined.

(** ** The end of a run *)


